(** * A shallow embedding of the sudoku board module (board.c)

    The C module keeps a board as a grid of ints together with "heatmaps"
    (bool arrays with a live count) recording which values are used in each
    row, column and box, and which values are still candidates ("notes") of
    each cell.  Arrays are modelled as lists indexed by [Z], structs as
    records, the mutation of a board through its pointer as explicit state
    passing, and failed assertions as [None] / [Fault]. *)

From stdpp Require Import base list list_numbers gmap.
From Stdlib Require Import ZArith Lia.

Local Open Scope Z_scope.

(** ** Machine integers *)

(** [int] is 32 bits wide.  The counters of the module are incremented and
    decremented in place; the wrap-around of the machine is written out. *)
Definition int_min : Z := -2147483648.
Definition int_max : Z := 2147483647.

Definition wrap (z : Z) : Z := (z + 2147483648) `mod` 4294967296 - 2147483648.

Definition incr (z : Z) : Z := wrap (z + 1).
Definition decr (z : Z) : Z := wrap (z - 1).

(** [(int)sqrt((double)size)]: for [0 <= size < 2^31] the correctly rounded
    double square root truncates to the integer square root. *)
Definition isqrt (z : Z) : Z := Z.sqrt z.

(** ** Arrays *)

(** [a[i]], read with a default outside the array. *)
Definition get {A} `{Inhabited A} (l : list A) (i : Z) : A := l !!! Z.to_nat i.

(** [a[i] = f(a[i])], in place. *)
Definition upd {A} (l : list A) (i : Z) (f : A → A) : list A :=
  alter f (Z.to_nat i) l.

Definition get2 {A} `{Inhabited A} (m : list (list A)) (i j : Z) : A :=
  get (get m i) j.

Definition upd2 {A} (m : list (list A)) (i j : Z) (f : A → A) : list (list A) :=
  upd m i (λ r, upd r j f).

(** [for (int i = lo; i < hi; i++) s = body i s;] for a body without
    [break] or [return]. *)
Definition for_each {S : Type} (lo hi : Z) (body : Z → S → S) (s : S) : S :=
  foldl (λ s i, body i s) s (seqZ lo (hi - lo)).

(** ** Heatmaps *)

(** [struct heatmap]: [h_map] has [h_len] entries, [h_count] counts the
    entries that are set.  The functions below are the effect of the C
    functions on a heatmap; their assertions ([h] is not null,
    [0 < val <= h->len]) and those of [box_finder] are kept in the model of
    the module on the heap ([Heap], further down), where [board_insert] and
    [board_copy] are shown to meet them on boards of the right shape.  Out of
    range, [get] reads a default and [upd] writes nothing. *)
Record heatmap : Type := Heatmap {
  h_len : Z;
  h_count : Z;
  h_map : list bool
}.

Global Instance heatmap_inhabited : Inhabited heatmap :=
  populate (Heatmap 0 0 []).

Definition heatmap_create (len : Z) : heatmap :=
  Heatmap len 0 (replicate (Z.to_nat len) false).

Definition heatmap_check (h : heatmap) (val : Z) : bool :=
  get (h_map h) (val - 1).

Definition heatmap_flip (h : heatmap) (val : Z) : bool * heatmap :=
  if get (h_map h) (val - 1)
  then (true, Heatmap (h_len h) (decr (h_count h)) (upd (h_map h) (val - 1) (λ _, false)))
  else (false, Heatmap (h_len h) (incr (h_count h)) (upd (h_map h) (val - 1) (λ _, true))).

Definition heatmap_on (h : heatmap) (val : Z) : heatmap :=
  Heatmap (h_len h)
          (if negb (get (h_map h) (val - 1)) then incr (h_count h) else h_count h)
          (upd (h_map h) (val - 1) (λ _, true)).

Definition heatmap_off (h : heatmap) (val : Z) : heatmap :=
  Heatmap (h_len h)
          (if get (h_map h) (val - 1) then decr (h_count h) else h_count h)
          (upd (h_map h) (val - 1) (λ _, false)).

Definition heatmap_copy (dest src : heatmap) : heatmap :=
  for_each 1 (h_len dest + 1)
    (λ i dest,
       let dest := heatmap_off dest i in
       if heatmap_check src i then (heatmap_flip dest i).2 else dest)
    dest.

(** ** Boards *)

Definition box_finder (row col size : Z) : Z :=
  let root := isqrt size in
  root * (row `quot` root) + col `quot` root.

Record board : Type := Board {
  b_size : Z;
  b_data : list (list Z);
  b_appearances : list Z;
  b_total_appearances : Z;
  b_rows : list heatmap;
  b_cols : list heatmap;
  b_boxs : list heatmap;
  b_notes : list (list heatmap)
}.

Definition set_data (b : board) (d : list (list Z)) : board :=
  Board (b_size b) d (b_appearances b) (b_total_appearances b)
        (b_rows b) (b_cols b) (b_boxs b) (b_notes b).
Definition set_appearances (b : board) (a : list Z) : board :=
  Board (b_size b) (b_data b) a (b_total_appearances b)
        (b_rows b) (b_cols b) (b_boxs b) (b_notes b).
Definition set_total_appearances (b : board) (t : Z) : board :=
  Board (b_size b) (b_data b) (b_appearances b) t
        (b_rows b) (b_cols b) (b_boxs b) (b_notes b).
Definition set_rows (b : board) (r : list heatmap) : board :=
  Board (b_size b) (b_data b) (b_appearances b) (b_total_appearances b)
        r (b_cols b) (b_boxs b) (b_notes b).
Definition set_cols (b : board) (c : list heatmap) : board :=
  Board (b_size b) (b_data b) (b_appearances b) (b_total_appearances b)
        (b_rows b) c (b_boxs b) (b_notes b).
Definition set_boxs (b : board) (x : list heatmap) : board :=
  Board (b_size b) (b_data b) (b_appearances b) (b_total_appearances b)
        (b_rows b) (b_cols b) x (b_notes b).
Definition set_notes (b : board) (n : list (list heatmap)) : board :=
  Board (b_size b) (b_data b) (b_appearances b) (b_total_appearances b)
        (b_rows b) (b_cols b) (b_boxs b) n.

(** [heatmap_off((b->notes)[i][j], val)] *)
Definition note_off (b : board) (i j val : Z) : board :=
  set_notes b (upd2 (b_notes b) i j (λ h, heatmap_off h val)).

(** [heatmap_on((b->notes)[i][j], val)] *)
Definition note_on (b : board) (i j val : Z) : board :=
  set_notes b (upd2 (b_notes b) i j (λ h, heatmap_on h val)).

Definition board_get_size (b : board) : Z := b_size b.

(** [board_create]: [None] when one of its assertions fails. *)
Definition board_create (size : Z) : option board :=
  if negb (0 <? size) then None
  else if negb (isqrt size * isqrt size =? size) then None
  else
    let n := Z.to_nat size in
    Some (Board size
                (replicate n (replicate n 0))
                (replicate n 0)
                0
                (replicate n (heatmap_create size))
                (replicate n (heatmap_create size))
                (replicate n (heatmap_create size))
                (replicate n (replicate n (heatmap_create size)))).

(** Status codes of [board_insert]. *)
Definition INSERT_OK : Z := 0.
Definition ALREADY_FILLED : Z := 1.
Definition CONFLICT : Z := 2.

(** The assertions at the head of [board_insert]. *)
Definition insert_args_ok (b : board) (row col val : Z) : bool :=
  (0 <? row) && (row <=? board_get_size b) &&
  (0 <? col) && (col <=? board_get_size b) &&
  (0 <? val) && (val <=? board_get_size b).

(** The part of [board_insert] after the three checks: the mutation. *)
Definition insert_commit (b : board) (row col val box : Z) : board :=
  let b := set_data b (upd2 (b_data b) (row - 1) (col - 1) (λ _, val)) in
  let b := set_appearances b (upd (b_appearances b) (val - 1) incr) in
  let b := set_rows b (upd (b_rows b) (row - 1) (λ h, (heatmap_flip h val).2)) in
  let b := set_cols b (upd (b_cols b) (col - 1) (λ h, (heatmap_flip h val).2)) in
  let b := set_boxs b (upd (b_boxs b) box (λ h, (heatmap_flip h val).2)) in
  (* remove notes for the inserted square, and across row and column *)
  let b := for_each 0 (board_get_size b)
             (λ i b,
                let b := note_off b (row - 1) (col - 1) (i + 1) in
                let b := note_off b i (col - 1) val in
                note_off b (row - 1) i val)
             b in
  (* remove notes for box *)
  let root := isqrt (board_get_size b) in
  let box_row := root * (box `quot` root) in
  let box_col := root * (box `rem` root) in
  let b := for_each box_row (box_row + root)
             (λ i b, for_each box_col (box_col + root)
                       (λ j b, note_off b i j val) b)
             b in
  set_total_appearances b (incr (b_total_appearances b)).

Definition board_insert (b : board) (row col val : Z) : option (Z * board) :=
  if negb (insert_args_ok b row col val) then None
  else if negb (get2 (b_data b) (row - 1) (col - 1) =? 0) then Some (ALREADY_FILLED, b)
  else if heatmap_check (get (b_rows b) (row - 1)) val then Some (CONFLICT, b)
  else if heatmap_check (get (b_cols b) (col - 1)) val then Some (CONFLICT, b)
  else
    let box := box_finder (row - 1) (col - 1) (board_get_size b) in
    if heatmap_check (get (b_boxs b) box) val then Some (CONFLICT, b)
    else Some (INSERT_OK, insert_commit b row col val box).

(** [board_make_notes]: turns a note on wherever the cell is empty and the
    value is absent from the cell's row, column and box. *)
Definition board_make_notes (b : board) : board :=
  let size := board_get_size b in
  for_each 0 size
    (λ i b, for_each 0 size
       (λ j b, for_each 1 (size + 1)
          (λ val b,
             if (get2 (b_data b) i j =? 0) &&
                negb (heatmap_check (get (b_rows b) i) val) &&
                negb (heatmap_check (get (b_cols b) j) val) &&
                negb (heatmap_check (get (b_boxs b) (box_finder i j size)) val)
             then note_on b i j val
             else b)
          b)
       b)
    b.

(** ** Control flow *)

(** The result of running a statement on a state [S]: it falls through, it
    returns from [board_solve] (with the board as it stands), or it stops on
    a failed assertion or an access out of bounds. *)
Inductive res (S : Type) : Type :=
| Next (s : S)
| Return (r : Z) (b : board)
| Fault.
Global Arguments Next {S} s.
Global Arguments Return {S} r b.
Global Arguments Fault {S}.

Global Instance res_bind : MBind res := λ A B k c,
  match c with
  | Next s => k s
  | Return r b => Return r b
  | Fault => Fault
  end.

(** A loop body ends either at its closing brace or at a [break]. *)
Definition continue {S : Type} (s : S) : res (bool * S) := Next (false, s).
Definition break {S : Type} (s : S) : res (bool * S) := Next (true, s).

(** [for (int i = lo; i < hi; i++) body], where the body may break, return
    or fail. *)
Fixpoint for_list {S : Type} (body : Z → S → res (bool * S)) (l : list Z) (s : S) : res S :=
  match l with
  | [] => Next s
  | i :: l' =>
      match body i s with
      | Next (false, s') => for_list body l' s'
      | Next (true, s') => Next s'
      | Return r b => Return r b
      | Fault => Fault
      end
  end.

Definition for_range {S : Type} (lo hi : Z) (body : Z → S → res (bool * S)) (s : S) : res S :=
  for_list body (seqZ lo (hi - lo)) s.

(** A call of [board_insert] whose status is not looked at. *)
Definition insert_ (b : board) (row col val : Z) : res board :=
  match board_insert b row col val with
  | Some (_, b') => Next b'
  | None => Fault
  end.

(** [board_copy(dest, src)], first half: empty dest's data. *)
Definition copy_clear (dest : board) (size : Z) : board :=
  let empty := heatmap_create size in
  let dest := set_total_appearances dest 0 in
  for_each 0 size
    (λ i dest,
       let dest := set_rows dest (upd (b_rows dest) i (λ h, heatmap_copy h empty)) in
       let dest := set_cols dest (upd (b_cols dest) i (λ h, heatmap_copy h empty)) in
       let dest := set_boxs dest (upd (b_boxs dest) i (λ h, heatmap_copy h empty)) in
       let dest := set_appearances dest (upd (b_appearances dest) i (λ _, 0)) in
       for_each 0 size
         (λ j dest, set_data dest (upd2 (b_data dest) i j (λ _, 0))) dest)
    dest.

(** [board_copy(dest, src)], second half: fill dest with src. *)
Definition copy_fill (dest src : board) (size : Z) : res board :=
  for_range 0 size
    (λ i dest, for_range 0 size
       (λ j dest,
          if negb (get2 (b_data src) i j =? 0)
          then dest ← insert_ dest (i + 1) (j + 1) (get2 (b_data src) i j);
               continue dest
          else continue (set_notes dest
                           (upd2 (b_notes dest) i j
                              (λ h, heatmap_copy h (get2 (b_notes src) i j)))))
       dest ≫= continue)
    dest.

(** [board_copy(dest, src)]: [None] when an assertion fails. *)
Definition board_copy (dest src : board) : option board :=
  if negb (board_get_size dest =? board_get_size src) then None
  else
    let size := board_get_size src in
    match copy_fill (copy_clear dest size) src size with
    | Next dest => Some dest
    | _ => None
    end.

(** ** Propagation *)

(** The rules below are the blocks of the body of the outer [for] loop of a
    propagation round, in the order of the source.  [i] is the outer loop
    variable.  Loop counters that are local to a block are bounded by the
    trip count of their loop and are kept as plain integers. *)

(** check for numbers with size-1 entries *)
Definition rule_value (i : Z) (b : board) : res board :=
  let size := board_get_size b in
  if get (b_appearances b) i =? size - 1 then
    '(b, _, _) ←
      for_range 0 size
        (λ j '(b, row, col),
           let row := if negb (heatmap_check (get (b_rows b) j) (i + 1)) then j else row in
           let col := if negb (heatmap_check (get (b_cols b) j) (i + 1)) then j else col in
           if (0 <=? row) && (0 <=? col)
           then b ← insert_ b (row + 1) (col + 1) (i + 1); break (b, row, col)
           else continue (b, row, col))
        (b, -1, -1);
    Next b
  else Next b.

(** check for rows with size-1 entries *)
Definition rule_row (i : Z) (b : board) : res board :=
  let size := board_get_size b in
  if h_count (get (b_rows b) i) =? size - 1 then
    '(b, _, _) ←
      for_range 0 size
        (λ j '(b, col, val),
           let val := if negb (heatmap_check (get (b_rows b) i) (j + 1)) then j + 1 else val in
           let col := if get2 (b_data b) i j =? 0 then j else col in
           if (0 <=? col) && (0 <=? val)
           then b ← insert_ b (i + 1) (col + 1) val; break (b, col, val)
           else continue (b, col, val))
        (b, -1, -1);
    Next b
  else Next b.

(** check for cols with size-1 entries *)
Definition rule_col (i : Z) (b : board) : res board :=
  let size := board_get_size b in
  if h_count (get (b_cols b) i) =? size - 1 then
    '(b, _, _) ←
      for_range 0 size
        (λ j '(b, row, val),
           let val := if negb (heatmap_check (get (b_cols b) i) (j + 1)) then j + 1 else val in
           let row := if get2 (b_data b) j i =? 0 then j else row in
           if (0 <=? row) && (0 <=? val)
           then b ← insert_ b (row + 1) (i + 1) val; break (b, row, val)
           else continue (b, row, val))
        (b, -1, -1);
    Next b
  else Next b.

(** check for boxs with size-1 entries; the [break] leaves the inner loop
    only, so every row of the box is visited. *)
Definition rule_box (i : Z) (b : board) : res board :=
  let size := board_get_size b in
  if h_count (get (b_boxs b) i) =? size - 1 then
    let root := isqrt (board_get_size b) in
    let box_row := root * (i `quot` root) in
    let box_col := root * (i `rem` root) in
    let val :=
      for_each 0 size
        (λ j val, if negb (heatmap_check (get (b_boxs b) i) (j + 1)) then j + 1 else val)
        (-1) in
    for_range box_row (box_row + root)
      (λ i b,
         for_range box_col (box_col + root)
           (λ j b,
              if get2 (b_data b) i j =? 0
              then b ← insert_ b (i + 1) (j + 1) val; break b
              else continue b)
           b ≫= continue)
      b
  else Next b.

(** checks for squares with only one possible number, and for squares with
    no possible numbers.  [h] points into the board, so the inner loop reads
    the notes of the cell as they are after each insertion. *)
Definition rule_cells (i : Z) (b : board) : res board :=
  let size := board_get_size b in
  for_range 0 size
    (λ j b,
       if h_count (get2 (b_notes b) i j) =? 1 then
         for_range 1 (size + 1)
           (λ val b,
              if heatmap_check (get2 (b_notes b) i j) val
              then b ← insert_ b (i + 1) (j + 1) val; continue b
              else continue b)
           b ≫= continue
       else if (h_count (get2 (b_notes b) i j) =? 0) && (get2 (b_data b) i j =? 0)
       then Return 1 b
       else continue b)
    b.

(** checks for rows, cols, or boxs where numbers exist only once in the
    notes *)
Definition hidden_row (val i : Z) (b : board) : res board :=
  let size := board_get_size b in
  if negb (heatmap_check (get (b_rows b) i) val) then
    '(row_count, col) ←
      for_range 0 size
        (λ j '(row_count, col),
           if heatmap_check (get2 (b_notes b) i j) val
           then let row_count := row_count + 1 in
                let col := j in
                if 1 <? row_count then break (row_count, col)
                else continue (row_count, col)
           else continue (row_count, col))
        (0, -1);
    if row_count =? 1 then insert_ b (i + 1) (col + 1) val else Next b
  else Next b.

Definition hidden_col (val i : Z) (b : board) : res board :=
  let size := board_get_size b in
  if negb (heatmap_check (get (b_cols b) i) val) then
    '(col_count, row) ←
      for_range 0 size
        (λ j '(col_count, row),
           if heatmap_check (get2 (b_notes b) j i) val
           then let col_count := col_count + 1 in
                let row := j in
                if 1 <? col_count then break (col_count, row)
                else continue (col_count, row)
           else continue (col_count, row))
        (0, -1);
    if col_count =? 1 then insert_ b (row + 1) (i + 1) val else Next b
  else Next b.

Definition hidden_box (val i : Z) (b : board) : res board :=
  let size := board_get_size b in
  if negb (heatmap_check (get (b_boxs b) i) val) then
    let root := isqrt size in
    let box_row := root * (i `quot` root) in
    let box_col := root * (i `rem` root) in
    '(box_count, row, col) ←
      for_range box_row (box_row + root)
        (λ j st,
           '(box_count, row, col) ←
             for_range box_col (box_col + root)
               (λ k '(box_count, row, col),
                  if heatmap_check (get2 (b_notes b) j k) val
                  then continue (box_count + 1, j, k)
                  else continue (box_count, row, col))
               st;
           if 1 <? box_count then break (box_count, row, col)
           else continue (box_count, row, col))
        (0, -1, -1);
    if box_count =? 1 then insert_ b (row + 1) (col + 1) val else Next b
  else Next b.

Definition rule_hidden (b : board) : res board :=
  let size := board_get_size b in
  for_range 1 (size + 1)
    (λ val b,
       for_range 0 size
         (λ i b,
            b ← hidden_row val i b;
            b ← hidden_col val i b;
            b ← hidden_box val i b;
            continue b)
         b ≫= continue)
    b.

(** One pass of the outer [for] loop inside the [while] loop. *)
Definition round (b : board) : res board :=
  for_range 0 (board_get_size b)
    (λ i b,
       b ← rule_value i b;
       b ← rule_row i b;
       b ← rule_col i b;
       b ← rule_box i b;
       b ← rule_cells i b;
       b ← rule_hidden b;
       continue b)
    b.

(** The [while] loop of [board_solve].  A round is entered only with
    [old < total < size * size], so [k] rounds are enough when [k] is at
    least [size * size - total]; [None] is the loop cut short. *)
Fixpoint rounds (k : nat) (b : board) (old_total_appearances : Z) : option (res board) :=
  let size := board_get_size b in
  if (b_total_appearances b <? size * size) &&
     (old_total_appearances <? b_total_appearances b)
  then
    match k with
    | O => None
    | S k' =>
        match round b with
        | Next b' => rounds k' b' (b_total_appearances b)
        | Return r b' => Some (Return r b')
        | Fault => Some Fault
        end
    end
  else Some (Next b).

Definition propagate (b : board) : option (res board) :=
  let size := board_get_size b in
  rounds (Z.to_nat (size * size - b_total_appearances b)) b
         (decr (b_total_appearances b)).

(** ** Guessing *)

(** The locals of the guessing loop that the scan for a guess assigns. *)
Record guess : Type := Guess {
  g_board : board;       (* new_b *)
  g_row : Z;
  g_col : Z;
  g_val : Z;
  g_updated : bool
}.

(** The scan for a guess in the scratch board [new_b].  A [return 1] here
    leaves [board_solve] with the caller's board [b] as it is. *)
Definition find_guess (b new_b : board) : res guess :=
  let size := board_get_size b in
  for_range 1 size
    (λ num_possible g,
       g ← for_range 0 size
         (λ i g,
            g ← for_range 0 size
              (λ j g,
                 g ←
                   (if h_count (get2 (b_notes (g_board g)) i j) =? num_possible then
                      for_range 1 (size + 1)
                        (λ k g,
                           if heatmap_check (get2 (b_notes (g_board g)) i j) k
                           then new_b ← insert_ (g_board g) (i + 1) (j + 1) k;
                                break (Guess new_b i j k true)
                           else continue g)
                        g
                    else if (get2 (b_data (g_board g)) i j =? 0) &&
                            (h_count (get2 (b_notes (g_board g)) i j) =? 0)
                    then Return 1 b
                    else Next g);
                 if g_updated g then break g else continue g)
              g;
            if g_updated g then break g else continue g)
         g;
       if g_updated g then break g else continue g)
    (Guess new_b (-1) (-1) (-1) false).

(** ** The solver *)

(** What one call of [board_solve] comes to: it returns a status and leaves
    the board in some state, it stops on a fault, or the model runs out of
    fuel. *)
Inductive outcome : Type :=
| Returned (r : Z) (b : board)
| Faulted
| OutOfFuel.

(** Ghost events, to speak about the order of calls: the call of
    [board_make_notes] at the head of [board_solve], and the entry to and
    the exit from the recursive call in the guessing loop. *)
Inductive event : Type :=
| EvMakeNotes
| EvCall
| EvRet.

Global Instance event_eq_dec : EqDecision event.
Proof. solve_decision. Defined.

Definition SOLVED : Z := 0.
Definition UNSOLVABLE : Z := 1.

(** The loop [while (guess_ret == 1)].  [rec] is the recursive call of
    [board_solve]; one unit of fuel is spent per iteration. *)
Fixpoint guess_loop (k : nat) (rec : board → Z → list event * outcome)
    (b new_b : board) (n : Z) : list event * outcome :=
  match k with
  | O => ([], OutOfFuel)
  | S k' =>
      match board_copy new_b b with
      | None => ([], Faulted)
      | Some new_b =>
          match find_guess b new_b with
          | Return r b' => ([], Returned r b')
          | Fault => ([], Faulted)
          | Next g =>
              let '(tr, o) := rec (g_board g) (incr n) in
              match o with
              | Returned guess_ret new_b =>
                  if guess_ret =? 0 then
                    match board_copy b new_b with
                    | Some b' => (EvCall :: tr ++ [EvRet], Returned guess_ret b')
                    | None => (EvCall :: tr ++ [EvRet], Faulted)
                    end
                  else if (g_row g <? 0) || (g_col g <? 0) then
                    (* (b->notes)[-1][-1] *)
                    (EvCall :: tr ++ [EvRet], Faulted)
                  else
                    let b := note_off b (g_row g) (g_col g) (g_val g) in
                    if guess_ret =? 1 then
                      let '(tr', o') := guess_loop k' rec b new_b n in
                      (EvCall :: tr ++ EvRet :: tr', o')
                    else
                      (* control reaches the end of a non-void function *)
                      (EvCall :: tr ++ [EvRet], Faulted)
              | Faulted => (EvCall :: tr, Faulted)
              | OutOfFuel => (EvCall :: tr, OutOfFuel)
              end
          end
      end
  end.

(** [board_solve(b, n)], with [fuel] bounding the depth of the recursion and
    the number of guesses tried at each level. *)
Fixpoint board_solve (fuel : nat) (b : board) (n : Z) : list event * outcome :=
  match fuel with
  | O => ([], OutOfFuel)
  | S fuel' =>
      let size := board_get_size b in
      let b := board_make_notes b in
      match propagate b with
      | None => ([EvMakeNotes], OutOfFuel)
      | Some Fault => ([EvMakeNotes], Faulted)
      | Some (Return r b) => ([EvMakeNotes], Returned r b)
      | Some (Next b) =>
          if size * size <=? b_total_appearances b then
            ([EvMakeNotes], Returned 0 b)
          else
            (* now we guess! *)
            match board_create size with
            | None => ([EvMakeNotes], Faulted)
            | Some new_b =>
                let '(tr, o) := guess_loop fuel' (board_solve fuel') b new_b n in
                (EvMakeNotes :: tr, o)
            end
      end
  end.

(** The status and final board of a run, without the ghost events. *)
Definition solve (fuel : nat) (b : board) (n : Z) : outcome :=
  (board_solve fuel b n).2.

(** ** The data-model invariants *)

Definition b2z (b : bool) : Z := if b then 1 else 0.

(** Number of entries of a list that satisfy [p]. *)
Fixpoint countb {A : Type} (p : A → bool) (l : list A) : Z :=
  match l with
  | [] => 0
  | x :: l' => b2z (p x) + countb p l'
  end.

(** Number of cells of a grid that satisfy [p]. *)
Fixpoint count_grid (p : Z → bool) (m : list (list Z)) : Z :=
  match m with
  | [] => 0
  | r :: m' => countb p r + count_grid p m'
  end.

(** A heatmap of length [n] whose count is the number of its members. *)
Definition hm_ok (n : Z) (h : heatmap) : Prop :=
  h_len h = n ∧ 0 ≤ n ≤ int_max ∧
  length (h_map h) = Z.to_nat n ∧ h_count h = countb id (h_map h).

(** The layout that [board_create] sets up and that no operation changes:
    a positive square size whose square fits in an [int], and arrays of
    that size. *)
Record shape (b : board) : Prop := {
  shape_pos : 0 < b_size b;
  shape_root : isqrt (b_size b) * isqrt (b_size b) = b_size b;
  shape_int : b_size b * b_size b ≤ int_max;
  shape_data : length (b_data b) = Z.to_nat (b_size b);
  shape_data_rows : Forall (λ r, length r = Z.to_nat (b_size b)) (b_data b);
  shape_appearances : length (b_appearances b) = Z.to_nat (b_size b);
  shape_rows : length (b_rows b) = Z.to_nat (b_size b);
  shape_rows_ok : Forall (hm_ok (b_size b)) (b_rows b);
  shape_cols : length (b_cols b) = Z.to_nat (b_size b);
  shape_cols_ok : Forall (hm_ok (b_size b)) (b_cols b);
  shape_boxs : length (b_boxs b) = Z.to_nat (b_size b);
  shape_boxs_ok : Forall (hm_ok (b_size b)) (b_boxs b);
  shape_notes : length (b_notes b) = Z.to_nat (b_size b);
  shape_notes_rows :
    Forall (λ r, length r = Z.to_nat (b_size b) ∧ Forall (hm_ok (b_size b)) r) (b_notes b)
}.

(** Indices and values of a board. *)
Definition idx (b : board) (i : Z) : Prop := 0 ≤ i < b_size b.
Definition is_val (b : board) (v : Z) : Prop := 1 ≤ v ≤ b_size b.

Definition cell (b : board) (r c : Z) : Z := get2 (b_data b) r c.
Definition box_of (b : board) (r c : Z) : Z := box_finder r c (b_size b).
Definition row_used (b : board) (r v : Z) : bool := heatmap_check (get (b_rows b) r) v.
Definition col_used (b : board) (c v : Z) : bool := heatmap_check (get (b_cols b) c) v.
Definition box_used (b : board) (k v : Z) : bool := heatmap_check (get (b_boxs b) k) v.
Definition note (b : board) (r c v : Z) : bool := heatmap_check (get2 (b_notes b) r c) v.

(** The used-sets hold exactly the values placed in their unit. *)
Definition used_sets_exact (b : board) : Prop :=
  (∀ r v, idx b r → is_val b v →
     (row_used b r v = true ↔ ∃ c, idx b c ∧ cell b r c = v)) ∧
  (∀ c v, idx b c → is_val b v →
     (col_used b c v = true ↔ ∃ r, idx b r ∧ cell b r c = v)) ∧
  (∀ k v, idx b k → is_val b v →
     (box_used b k v = true ↔ ∃ r c, idx b r ∧ idx b c ∧ box_of b r c = k ∧ cell b r c = v)).

(** No value is placed twice in a row, a column or a box. *)
Definition units_distinct (b : board) : Prop :=
  ∀ r c r' c', idx b r → idx b c → idx b r' → idx b c' →
    cell b r c ≠ 0 → cell b r c = cell b r' c' →
    (r = r' ∨ c = c' ∨ box_of b r c = box_of b r' c') →
    r = r' ∧ c = c'.

(** Invariant 1: a placed value is in the three used-sets of its cell, and
    the notes of a filled cell are empty. *)
Definition invariant1 (b : board) : Prop :=
  ∀ r c, idx b r → idx b c → cell b r c ≠ 0 →
    row_used b r (cell b r c) = true ∧
    col_used b c (cell b r c) = true ∧
    box_used b (box_of b r c) (cell b r c) = true ∧
    h_count (get2 (b_notes b) r c) = 0 ∧
    (∀ v, is_val b v → note b r c v = false).

(** The counters count the placed values. *)
Definition counters_exact (b : board) : Prop :=
  (∀ v, is_val b v →
     get (b_appearances b) (v - 1) = count_grid (λ x, x =? v) (b_data b)) ∧
  b_total_appearances b = count_grid (λ x, negb (x =? 0)) (b_data b).

Definition sumZ (f : Z → Z) (l : list Z) : Z := foldr Z.add 0 (f <$> l).

(** Invariant 2: [appearances[v]] is the number of cells that hold [v], and
    [total_appearances] is their sum and the number of filled cells. *)
Definition invariant2 (b : board) : Prop :=
  counters_exact b ∧
  b_total_appearances b = sumZ (λ v, get (b_appearances b) (v - 1)) (seqZ 1 (b_size b)).

(** Notes are conservative: a note that is on belongs to an empty cell and
    to a value absent from the cell's row, column and box. *)
Definition notes_conservative (b : board) : Prop :=
  ∀ r c v, idx b r → idx b c → is_val b v → note b r c v = true →
    cell b r c = 0 ∧ row_used b r v = false ∧ col_used b c v = false ∧
    box_used b (box_of b r c) v = false.

(** The invariants of the grid, the used-sets and the counters. *)
Record core (b : board) : Prop := {
  inv_cells : ∀ r c, idx b r → idx b c → 0 ≤ cell b r c ≤ b_size b;
  inv_used : used_sets_exact b;
  inv_distinct : units_distinct b;
  inv_count : counters_exact b
}.

Definition inv (b : board) : Prop := core b ∧ notes_conservative b.

(** A well-formed board: what every board built by [board_create] and
    changed through [board_insert] satisfies. *)
Definition wf (b : board) : Prop := shape b ∧ inv b.

(** Everything but the notes of a board. *)
Definition erase_notes (b : board) : board := set_notes b [].

(** The notes that inserting [val] at [(r, c)] turns off: all notes of the
    cell, and [val] in the cells of its row, column and box. *)
Definition retracted (b : board) (r c val i j w : Z) : Prop :=
  (i = r ∧ j = c) ∨ (w = val ∧ (i = r ∨ j = c ∨ box_of b i j = box_of b r c)).

(** ** Solved grids *)

Definition row_list (b : board) (r : Z) : list Z :=
  (λ c, cell b r c) <$> seqZ 0 (b_size b).
Definition col_list (b : board) (c : Z) : list Z :=
  (λ r, cell b r c) <$> seqZ 0 (b_size b).
Definition box_list (b : board) (k : Z) : list Z :=
  let root := isqrt (b_size b) in
  r ← seqZ (root * (k `quot` root)) root;
  (λ c, cell b r c) <$> seqZ (root * (k `rem` root)) root.

(** Every row, column and box holds each value [1..size] exactly once. *)
Definition units_complete (b : board) : Prop :=
  ∀ i, idx b i →
    row_list b i ≡ₚ seqZ 1 (b_size b) ∧
    col_list b i ≡ₚ seqZ 1 (b_size b) ∧
    box_list b i ≡ₚ seqZ 1 (b_size b).

Definition filled (b : board) : Prop :=
  b_total_appearances b = b_size b * b_size b.

(** [s] agrees with [b] where [b] is filled. *)
Definition agrees (s b : board) : Prop :=
  ∀ r c, idx b r → idx b c → cell b r c ≠ 0 → cell s r c = cell b r c.

(** [s] is a solution of [b]: a grid of the size of [b] in which every row,
    column and box holds each value exactly once, and which keeps what [b]
    has placed. *)
Definition solution (s b : board) : Prop :=
  b_size s = b_size b ∧ units_complete s ∧ agrees s b.

(** The value that [s] has for an empty cell of [b] is among the notes of
    the cell. *)
Definition viable_noted (s b : board) : Prop :=
  ∀ r c, idx b r → idx b c → cell b r c = 0 → note b r c (cell s r c) = true.

(** [b] is on the way to the solution [s]. *)
Definition on_track (s b : board) : Prop :=
  wf b ∧ solution s b ∧ viable_noted s b.

(** An empty cell without candidates: where the solver gives up. *)
Definition dead_end (b : board) : Prop :=
  ∃ r c, idx b r ∧ idx b c ∧ cell b r c = 0 ∧ h_count (get2 (b_notes b) r c) = 0.

(** ** Reasoning about runs *)

(** [res_sat P Q c]: if [c] falls through its state satisfies [P], if it
    returns its status and board satisfy [Q]. *)
Definition res_sat {S : Type} (P : S → Prop) (Q : Z → board → Prop) (c : res S) : Prop :=
  match c with
  | Next s => P s
  | Return r b => Q r b
  | Fault => True
  end.

(** [res_next P c]: [c] falls through, in a state that satisfies [P]. *)
Definition res_next {S : Type} (P : S → Prop) (c : res S) : Prop :=
  match c with
  | Next s => P s
  | _ => False
  end.

(** [reach b b']: [b'] results from [b] by calls of [board_insert]. *)
Inductive reach : board → board → Prop :=
| reach_refl b : reach b b
| reach_insert b row col val st b' b'' :
    board_insert b row col val = Some (st, b') → reach b' b'' → reach b b''.

(** A run from [b0] that returns [1] at an empty cell without notes. *)
Definition gives_up (b0 : board) (r : Z) (b : board) : Prop :=
  r = UNSOLVABLE ∧ reach b0 b ∧
  ∃ i j, 0 ≤ i < b_size b0 ∧ 0 ≤ j < b_size b0 ∧
         cell b i j = 0 ∧ h_count (get2 (b_notes b) i j) = 0.

(** The notes of [b'] are among those of [b]. *)
Definition notes_le (b' b : board) : Prop :=
  ∀ r c v, idx b r → idx b c → is_val b v → note b' r c v = true → note b r c v = true.

(** The scan for a guess found nothing and left the scratch board alone. *)
Definition no_guess (new_b : board) (g : guess) : Prop :=
  g = Guess new_b (-1) (-1) (-1) false.

(** The scan for a guess chose a note of [new_b] and inserted it. *)
Definition guessed (new_b : board) (g : guess) : Prop :=
  g_updated g = true ∧
  idx new_b (g_row g) ∧ idx new_b (g_col g) ∧ is_val new_b (g_val g) ∧
  note new_b (g_row g) (g_col g) (g_val g) = true ∧
  ∃ st, board_insert new_b (g_row g + 1) (g_col g + 1) (g_val g) = Some (st, g_board g).

(** What a call of [board_solve] on a well-formed board [b] comes to, when
    it returns. *)
Definition solve_post (b : board) (o : outcome) : Prop :=
  match o with
  | Returned r b' =>
      wf b' ∧ b_size b' = b_size b ∧
      ((r = SOLVED ∧ filled b') ∨ (r = UNSOLVABLE ∧ dead_end b')) ∧
      notes_le b' b
  | _ => True
  end.


(** What a returning call leaves keeps the values that the board had. *)
Definition keeps (b : board) (o : outcome) : Prop :=
  match o with
  | Returned _ b' => agrees b' b
  | _ => True
  end.

(** Number of calls of [board_make_notes] and of recursive calls in a
    trace. *)
Definition make_notes_runs (tr : list event) : nat :=
  length (filter (λ e, e = EvMakeNotes) tr).
Definition recursive_calls (tr : list event) : nat :=
  length (filter (λ e, e = EvCall) tr).

(** ** The empty 4×4 board *)

(** The board that [board_create(4)] returns, and the same board with its
    notes derived. *)
Definition empty4 : board :=
  Eval vm_compute in default (Board 0 [] [] 0 [] [] [] []) (board_create 4).

Definition empty4_notes : board :=
  Eval vm_compute in board_make_notes empty4.

(** ** The caller *)

(** The input loop of [main]: each clue [(val, row, col)] is inserted and
    its status only printed.  [None] when an assertion of [board_insert]
    fails. *)
Definition insert_clues (b : board) (clues : list (Z * Z * Z)) : option board :=
  foldl (λ ob '(val, row, col),
           b ← ob; '(_, b') ← board_insert b row col val; Some b')
        (Some b) clues.

(** [main] for a given size and list of clues: the status that
    [board_solve(b, 1)] returns and the board it leaves. *)
Definition main (fuel : nat) (size : Z) (clues : list (Z * Z * Z)) : outcome :=
  match board_create size ≫= λ b, insert_clues b clues with
  | Some b => solve fuel b 1
  | None => Faulted
  end.

(** ** Sample boards *)

Definition blank : board := Board 0 [] [] 0 [] [] [] [].

(** A 4×4 board with two clues: 1 at (1,1) and 2 at (2,3). *)
Definition sample4_clues : list (Z * Z * Z) := [(1, 1, 1); (2, 2, 3)].

Definition sample4 : board :=
  Eval vm_compute in
    default blank (board_create 4 ≫= λ b, insert_clues b sample4_clues).

(** What [board_solve] makes of it. *)
Definition sample4_trace : list event :=
  Eval vm_compute in (board_solve 30 sample4 1).1.

Definition sample4_solved : board :=
  Eval vm_compute in
    match (board_solve 30 sample4 1).2 with Returned _ b => b | _ => blank end.

(** A 4×4 board whose first row lacks only a 4, with a 4 already in the
    column of the row's empty cell. *)
Definition stuck4_clues : list (Z * Z * Z) := [(1, 1, 1); (2, 1, 2); (3, 1, 3); (4, 3, 4)].

Definition stuck4_clued : board :=
  Eval vm_compute in
    default blank (board_create 4 ≫= λ b, insert_clues b stuck4_clues).

Definition stuck4 : board := Eval vm_compute in board_make_notes stuck4_clued.

Definition stuck4_result : board :=
  Eval vm_compute in
    match (board_solve 5 stuck4 1).2 with Returned _ b => b | _ => blank end.

(** ** The module on a heap *)

(** The functions above pass boards as values.  In the C module a board is
    a graph of heap blocks: the struct, its arrays of pointers, and behind
    them the rows of the grid and the heatmaps with their bool arrays.  To
    speak about storage that two boards may or may not share, the heatmap
    functions, [board_create], [board_insert] and [board_copy] are given here
    a second time, on an explicit heap of blocks, with the loads and stores
    of the source. *)
Module Heap.

Definition block : Type := nat.

(** An address: a block and an offset into it. *)
Definition addr : Type := block * Z.

Inductive val : Type :=
| VUndef
| VInt (z : Z)
| VBool (x : bool)
| VPtr (a : addr).

(** The heap: the cells that are allocated, and the next block that
    [malloc] hands out. *)
Record mem : Type := Mem {
  cells : gmap addr val;
  next : block
}.

Definition empty_mem : mem := Mem ∅ 0%nat.

(** A command: it fails ([None]: a failed assertion, a load or store outside
    the allocated cells, a value of the wrong kind) or returns a result and
    a heap. *)
Definition M (A : Type) : Type := mem → option (A * mem).

Definition ret {A : Type} (a : A) : M A := λ h, Some (a, h).
Definition fail {A : Type} : M A := λ _, None.
Definition bind {A B : Type} (m : M A) (k : A → M B) : M B :=
  λ h, match m h with
       | Some (a, h') => k a h'
       | None => None
       end.

Notation "x ←ₘ m ; k" := (bind m (λ x, k))
  (at level 20, m at level 100, k at level 200, right associativity, only parsing).
Notation "m ;;ₘ k" := (bind m (λ _, k))
  (at level 100, k at level 200, right associativity, only parsing).

Definition shift (a : addr) (k : Z) : addr := (a.1, a.2 + k).
Notation "a +ₗ k" := (shift a k) (at level 50, left associativity).

Definition load (a : addr) : M val :=
  λ h, match cells h !! a with
       | Some v => Some (v, h)
       | None => None
       end.

Definition load_int (a : addr) : M Z :=
  v ←ₘ load a; match v with VInt z => ret z | _ => fail end.
Definition load_bool (a : addr) : M bool :=
  v ←ₘ load a; match v with VBool x => ret x | _ => fail end.
Definition load_ptr (a : addr) : M addr :=
  v ←ₘ load a; match v with VPtr p => ret p | _ => fail end.

Definition store (a : addr) (v : val) : M unit :=
  λ h, match cells h !! a with
       | Some _ => Some (tt, Mem (<[a := v]> (cells h)) (next h))
       | None => None
       end.

(** The heap with one more block, of [n] cells that are not initialised. *)
Definition alloc (h : mem) (n : Z) : mem :=
  Mem (foldr (λ k m, <[(next h, k) := VUndef]> m) (cells h) (seqZ 0 n))
      (S (next h)).

(** [malloc(n * sizeof ...)] *)
Definition malloc (n : Z) : M addr := λ h, Some ((next h, 0), alloc h n).

Definition assert_ (b : bool) : M unit := if b then ret tt else fail.

Fixpoint for_list (body : Z → M unit) (l : list Z) : M unit :=
  match l with
  | [] => ret tt
  | i :: l' => body i ;;ₘ for_list body l'
  end.

(** [for (int i = lo; i < hi; i++) body] *)
Definition for_ (lo hi : Z) (body : Z → M unit) : M unit :=
  for_list body (seqZ lo (hi - lo)).

(** *** Heatmaps: [struct heatmap { int len; int count; bool *map; }] *)

Definition f_len : Z := 0.
Definition f_count : Z := 1.
Definition f_map : Z := 2.

Definition heatmap_create (len : Z) : M addr :=
  assert_ (0 <? len) ;;ₘ
  h ←ₘ malloc 3;
  store (h +ₗ f_len) (VInt len) ;;ₘ
  store (h +ₗ f_count) (VInt 0) ;;ₘ
  m ←ₘ malloc len;
  store (h +ₗ f_map) (VPtr m) ;;ₘ
  for_ 0 len (λ i, store (m +ₗ i) (VBool false)) ;;ₘ
  ret h.

(** The assertions [val > 0] and [val <= h->len]. *)
Definition check_val (h : addr) (val : Z) : M unit :=
  assert_ (0 <? val) ;;ₘ
  len ←ₘ load_int (h +ₗ f_len);
  assert_ (val <=? len).

Definition heatmap_flip (h : addr) (val : Z) : M bool :=
  check_val h val ;;ₘ
  map ←ₘ load_ptr (h +ₗ f_map);
  x ←ₘ load_bool (map +ₗ (val - 1));
  count ←ₘ load_int (h +ₗ f_count);
  if x
  then store (h +ₗ f_count) (VInt (decr count)) ;;ₘ
       store (map +ₗ (val - 1)) (VBool false) ;;ₘ
       ret true
  else store (h +ₗ f_count) (VInt (incr count)) ;;ₘ
       store (map +ₗ (val - 1)) (VBool true) ;;ₘ
       ret false.

Definition heatmap_on (h : addr) (val : Z) : M unit :=
  check_val h val ;;ₘ
  map ←ₘ load_ptr (h +ₗ f_map);
  x ←ₘ load_bool (map +ₗ (val - 1));
  (if negb x
   then count ←ₘ load_int (h +ₗ f_count); store (h +ₗ f_count) (VInt (incr count))
   else ret tt) ;;ₘ
  store (map +ₗ (val - 1)) (VBool true).

Definition heatmap_off (h : addr) (val : Z) : M unit :=
  check_val h val ;;ₘ
  map ←ₘ load_ptr (h +ₗ f_map);
  x ←ₘ load_bool (map +ₗ (val - 1));
  (if x
   then count ←ₘ load_int (h +ₗ f_count); store (h +ₗ f_count) (VInt (decr count))
   else ret tt) ;;ₘ
  store (map +ₗ (val - 1)) (VBool false).

Definition heatmap_check (h : addr) (val : Z) : M bool :=
  check_val h val ;;ₘ
  map ←ₘ load_ptr (h +ₗ f_map);
  load_bool (map +ₗ (val - 1)).

Definition heatmap_copy (dest src : addr) : M unit :=
  dlen ←ₘ load_int (dest +ₗ f_len);
  slen ←ₘ load_int (src +ₗ f_len);
  assert_ (dlen =? slen) ;;ₘ
  for_ 1 (dlen + 1)
    (λ i, heatmap_off dest i ;;ₘ
          x ←ₘ heatmap_check src i;
          if x then (_ ←ₘ heatmap_flip dest i; ret tt) else ret tt).

(** *** Boards: [struct board], fields in the order of the source *)

Definition f_size : Z := 0.
Definition f_data : Z := 1.
Definition f_appearances : Z := 2.
Definition f_total_appearances : Z := 3.
Definition f_rows : Z := 4.
Definition f_cols : Z := 5.
Definition f_boxs : Z := 6.
Definition f_notes : Z := 7.

Definition board_get_size (b : addr) : M Z := load_int (b +ₗ f_size).

(** [(b->field)[i]], a pointer *)
Definition elem (b : addr) (field i : Z) : M addr :=
  arr ←ₘ load_ptr (b +ₗ field); load_ptr (arr +ₗ i).

(** [(b->notes)[i][j]] *)
Definition note_at (b : addr) (i j : Z) : M addr :=
  row ←ₘ elem b f_notes i; load_ptr (row +ₗ j).

(** An array of [n] fresh heatmaps of length [len]. *)
Definition heatmaps_create (n len : Z) : M addr :=
  arr ←ₘ malloc n;
  for_ 0 n (λ i, h ←ₘ heatmap_create len; store (arr +ₗ i) (VPtr h)) ;;ₘ
  ret arr.

Definition board_create (size : Z) : M addr :=
  assert_ (0 <? size) ;;ₘ
  assert_ (isqrt size * isqrt size =? size) ;;ₘ
  b ←ₘ malloc 8;
  store (b +ₗ f_size) (VInt size) ;;ₘ
  store (b +ₗ f_total_appearances) (VInt 0) ;;ₘ
  app ←ₘ malloc size;
  store (b +ₗ f_appearances) (VPtr app) ;;ₘ
  for_ 0 size (λ i, store (app +ₗ i) (VInt 0)) ;;ₘ
  rows ←ₘ heatmaps_create size size;
  store (b +ₗ f_rows) (VPtr rows) ;;ₘ
  cols ←ₘ heatmaps_create size size;
  store (b +ₗ f_cols) (VPtr cols) ;;ₘ
  boxs ←ₘ heatmaps_create size size;
  store (b +ₗ f_boxs) (VPtr boxs) ;;ₘ
  data ←ₘ malloc size;
  store (b +ₗ f_data) (VPtr data) ;;ₘ
  for_ 0 size
    (λ i, row ←ₘ malloc size;
          store (data +ₗ i) (VPtr row) ;;ₘ
          for_ 0 size (λ j, store (row +ₗ j) (VInt 0))) ;;ₘ
  notes ←ₘ malloc size;
  store (b +ₗ f_notes) (VPtr notes) ;;ₘ
  for_ 0 size
    (λ i, row ←ₘ heatmaps_create size size; store (notes +ₗ i) (VPtr row)) ;;ₘ
  ret b.

Definition board_insert (b : addr) (row col val : Z) : M Z :=
  size ←ₘ board_get_size b;
  assert_ ((0 <? row) && (row <=? size) && (0 <? col) && (col <=? size) &&
           (0 <? val) && (val <=? size)) ;;ₘ
  drow ←ₘ elem b f_data (row - 1);
  x ←ₘ load_int (drow +ₗ (col - 1));
  if negb (x =? 0) then ret ALREADY_FILLED else
  hrow ←ₘ elem b f_rows (row - 1);
  in_row ←ₘ heatmap_check hrow val;
  if in_row then ret CONFLICT else
  hcol ←ₘ elem b f_cols (col - 1);
  in_col ←ₘ heatmap_check hcol val;
  if in_col then ret CONFLICT else
  let box := box_finder (row - 1) (col - 1) size in
  hbox ←ₘ elem b f_boxs box;
  in_box ←ₘ heatmap_check hbox val;
  if in_box then ret CONFLICT else
  store (drow +ₗ (col - 1)) (VInt val) ;;ₘ
  app ←ₘ load_ptr (b +ₗ f_appearances);
  a ←ₘ load_int (app +ₗ (val - 1));
  store (app +ₗ (val - 1)) (VInt (incr a)) ;;ₘ
  (_ ←ₘ heatmap_flip hrow val; ret tt) ;;ₘ
  (_ ←ₘ heatmap_flip hcol val; ret tt) ;;ₘ
  (_ ←ₘ heatmap_flip hbox val; ret tt) ;;ₘ
  for_ 0 size
    (λ i, (h ←ₘ note_at b (row - 1) (col - 1); heatmap_off h (i + 1)) ;;ₘ
          (h ←ₘ note_at b i (col - 1); heatmap_off h val) ;;ₘ
          (h ←ₘ note_at b (row - 1) i; heatmap_off h val)) ;;ₘ
  let root := isqrt size in
  let box_row := root * (box `quot` root) in
  let box_col := root * (box `rem` root) in
  for_ box_row (box_row + root)
    (λ i, for_ box_col (box_col + root)
            (λ j, h ←ₘ note_at b i j; heatmap_off h val)) ;;ₘ
  t ←ₘ load_int (b +ₗ f_total_appearances);
  store (b +ₗ f_total_appearances) (VInt (incr t)) ;;ₘ
  ret INSERT_OK.

Definition board_copy (dest src : addr) : M unit :=
  dsize ←ₘ board_get_size dest;
  size ←ₘ board_get_size src;
  assert_ (dsize =? size) ;;ₘ
  empty ←ₘ heatmap_create size;
  (* empty dest's data *)
  store (dest +ₗ f_total_appearances) (VInt 0) ;;ₘ
  for_ 0 size
    (λ i, (h ←ₘ elem dest f_rows i; heatmap_copy h empty) ;;ₘ
          (h ←ₘ elem dest f_cols i; heatmap_copy h empty) ;;ₘ
          (h ←ₘ elem dest f_boxs i; heatmap_copy h empty) ;;ₘ
          (app ←ₘ load_ptr (dest +ₗ f_appearances); store (app +ₗ i) (VInt 0)) ;;ₘ
          for_ 0 size
            (λ j, drow ←ₘ elem dest f_data i; store (drow +ₗ j) (VInt 0))) ;;ₘ
  (* fill dest with src *)
  for_ 0 size
    (λ i, for_ 0 size
       (λ j, srow ←ₘ elem src f_data i;
             x ←ₘ load_int (srow +ₗ j);
             if negb (x =? 0)
             then (_ ←ₘ board_insert dest (i + 1) (j + 1) x; ret tt)
             else (hd ←ₘ note_at dest i j;
                   hs ←ₘ note_at src i j;
                   heatmap_copy hd hs))).

(** *** Regions *)

(** A region is a set of blocks.  It is closed when the pointers stored in
    its blocks point into it: everything reachable from a pointer into the
    region lies in the region. *)
Definition region : Type := block → Prop.

Definition closed (R : region) (h : mem) : Prop :=
  ∀ b off a, R b → cells h !! (b, off) = Some (VPtr a) → R a.1.

(** The blocks of [R] hold in [h'] what they hold in [h]. *)
Definition same_on (R : region) (h h' : mem) : Prop :=
  ∀ b off, R b → cells h' !! (b, off) = cells h !! (b, off).

Definition disjoint (R1 R2 : region) : Prop := ∀ b, R1 b → R2 b → False.

(** Only blocks below [next] are allocated. *)
Definition mem_ok (h : mem) : Prop :=
  ∀ b off, (next h ≤ b)%nat → cells h !! (b, off) = None.

(** What a command running from [h0] on behalf of the region [R] may
    touch: [R] and the blocks it allocates itself. *)
Definition owned (R : region) (h0 : mem) : region :=
  λ b, R b ∨ (next h0 ≤ b)%nat.

(** The state of a run from [h0] that has stayed within [owned R h0]. *)
Definition within (R : region) (h0 h : mem) : Prop :=
  mem_ok h ∧ (next h0 ≤ next h)%nat ∧ closed (owned R h0) h ∧
  ∀ b off, ¬ owned R h0 b → cells h !! (b, off) = cells h0 !! (b, off).

(** [safe R h0 P m]: run in a state within the region, [m] stays within it,
    and its result satisfies [P]. *)
Definition safe {A : Type} (R : region) (h0 : mem) (P : A → Prop) (m : M A) : Prop :=
  ∀ h a h', within R h0 h → m h = Some (a, h') → within R h0 h' ∧ P a.

(** A command that only reads. *)
Definition readonly {A : Type} (m : M A) : Prop :=
  ∀ h a h', m h = Some (a, h') → h' = h.

(** *** How a board lies on the heap *)

(** The heatmaps of a board. *)
Inductive place : Type :=
| PRow (i : Z)
| PCol (i : Z)
| PBox (i : Z)
| PNote (i j : Z).

(** The blocks of a board: the struct, its arrays, the rows of the grid, and
    for each heatmap the struct and its bool array. *)
Inductive comp : Type :=
| CBoard
| CData
| CDataRow (i : Z)
| CApp
| CRows
| CCols
| CBoxs
| CNotes
| CNotesRow (i : Z)
| CHm (pl : place)
| CMap (pl : place).

Global Instance place_eq_dec : EqDecision place.
Proof. solve_decision. Defined.
Global Instance comp_eq_dec : EqDecision comp.
Proof. solve_decision. Defined.
Global Instance val_eq_dec : EqDecision val.
Proof. solve_decision. Defined.

(** A layout names the block of each part. *)
Definition layout : Type := comp → block.

Definition in_range (n i : Z) : bool := (0 <=? i) && (i <? n).

Definition valid_place (n : Z) (pl : place) : bool :=
  match pl with
  | PRow i | PCol i | PBox i => in_range n i
  | PNote i j => in_range n i && in_range n j
  end.

(** The parts that a board of size [n] has. *)
Definition valid (n : Z) (c : comp) : bool :=
  match c with
  | CDataRow i | CNotesRow i => in_range n i
  | CHm pl | CMap pl => valid_place n pl
  | _ => true
  end.

(** The parts lie in blocks of their own. *)
Definition layout_ok (L : layout) (n : Z) : Prop :=
  ∀ c c', valid n c = true → valid n c' = true → L c = L c' → c = c'.

(** The blocks of a board. *)
Definition blocks_of (L : layout) (n : Z) : region :=
  λ blk, ∃ c, valid n c = true ∧ L c = blk.

Definition hm_at (b : board) (pl : place) : heatmap :=
  match pl with
  | PRow i => get (b_rows b) i
  | PCol i => get (b_cols b) i
  | PBox i => get (b_boxs b) i
  | PNote i j => get2 (b_notes b) i j
  end.

(** The heatmap at [pl] is updated by [f], in place. *)
Definition hm_set (b : board) (pl : place) (f : heatmap → heatmap) : board :=
  match pl with
  | PRow i => set_rows b (upd (b_rows b) i f)
  | PCol i => set_cols b (upd (b_cols b) i f)
  | PBox i => set_boxs b (upd (b_boxs b) i f)
  | PNote i j => set_notes b (upd2 (b_notes b) i j f)
  end.

(** What the cell at offset [off] of the part [c] holds when the heap holds
    the board [b] in the layout [L]: the fields in the order of the structs. *)
Definition content (L : layout) (b : board) (c : comp) (off : Z) : option val :=
  let n := b_size b in
  let ptr (c' : comp) := Some (VPtr (L c', 0)) in
  let elems (f : Z → option val) := if in_range n off then f off else None in
  match c with
  | CBoard =>
      if off =? f_size then Some (VInt n)
      else if off =? f_data then ptr CData
      else if off =? f_appearances then ptr CApp
      else if off =? f_total_appearances then Some (VInt (b_total_appearances b))
      else if off =? f_rows then ptr CRows
      else if off =? f_cols then ptr CCols
      else if off =? f_boxs then ptr CBoxs
      else if off =? f_notes then ptr CNotes
      else None
  | CData => elems (λ i, ptr (CDataRow i))
  | CDataRow i => elems (λ j, Some (VInt (get2 (b_data b) i j)))
  | CApp => elems (λ i, Some (VInt (get (b_appearances b) i)))
  | CRows => elems (λ i, ptr (CHm (PRow i)))
  | CCols => elems (λ i, ptr (CHm (PCol i)))
  | CBoxs => elems (λ i, ptr (CHm (PBox i)))
  | CNotes => elems (λ i, ptr (CNotesRow i))
  | CNotesRow i => elems (λ j, ptr (CHm (PNote i j)))
  | CHm pl =>
      if off =? f_len then Some (VInt (h_len (hm_at b pl)))
      else if off =? f_count then Some (VInt (h_count (hm_at b pl)))
      else if off =? f_map then ptr (CMap pl)
      else None
  | CMap pl =>
      if in_range (h_len (hm_at b pl)) off
      then Some (VBool (get (h_map (hm_at b pl)) off))
      else None
  end.

(** The heap [h] holds the board [b] at [p], laid out as [L] says. *)
Definition repr (L : layout) (h : mem) (p : addr) (b : board) : Prop :=
  p = (L CBoard, 0) ∧
  ∀ c off v, valid (b_size b) c = true → content L b c off = Some v →
             cells h !! (L c, off) = Some v.

(** The heap holds the heatmap [hm] in the blocks [s] (the struct) and [m]
    (the bool array). *)
Definition hm_repr (h : mem) (s m : block) (hm : heatmap) : Prop :=
  cells h !! (s, f_len) = Some (VInt (h_len hm)) ∧
  cells h !! (s, f_count) = Some (VInt (h_count hm)) ∧
  cells h !! (s, f_map) = Some (VPtr (m, 0)) ∧
  ∀ k, 0 ≤ k < h_len hm → cells h !! (m, k) = Some (VBool (get (h_map hm) k)).

(** The two blocks of a heatmap. *)
Definition two (s m : block) : region := λ blk, blk = s ∨ blk = m.

(** The heap after the store of [v] at [a]. *)
Definition put (h : mem) (a : addr) (v : val) : mem :=
  Mem (<[a := v]> (cells h)) (next h).
Global Arguments put : simpl never.

(** From [h] to [h'] nothing is allocated, and the blocks outside [S] hold
    what they held. *)
Definition only (S : region) (h h' : mem) : Prop :=
  next h' = next h ∧
  ∀ blk off, ¬ S blk → cells h' !! (blk, off) = cells h !! (blk, off).

(** From [h] to [h'] nothing is freed, and the blocks of [h] outside [S]
    hold what they held. *)
Definition frame (S : region) (h h' : mem) : Prop :=
  (next h ≤ next h')%nat ∧
  ∀ blk off, ¬ S blk → (blk < next h)%nat →
             cells h' !! (blk, off) = cells h !! (blk, off).

(** The state of a run from [h0] on the board at [p]: the heap holds the
    board [b], of size [n] and of the right shape, and only the blocks of the
    board have changed. *)
Definition holds (L : layout) (n : Z) (p : addr) (h0 : mem) (b : board) (h : mem) : Prop :=
  repr L h p b ∧ b_size b = n ∧ shape b ∧ only (blocks_of L n) h0 h.

(** The layout that the pointers of the board at [p] describe. *)
Definition ptr_block (h : mem) (a : addr) : block :=
  match cells h !! a with
  | Some (VPtr q) => q.1
  | _ => 0%nat
  end.

Definition hm_block (h : mem) (p : addr) (pl : place) : block :=
  let arr (f i : Z) := ptr_block h ((ptr_block h (p +ₗ f), 0) +ₗ i) in
  match pl with
  | PRow i => arr f_rows i
  | PCol i => arr f_cols i
  | PBox i => arr f_boxs i
  | PNote i j => ptr_block h ((arr f_notes i, 0) +ₗ j)
  end.

Definition layout_of (h : mem) (p : addr) : layout :=
  λ c,
    let arr (f i : Z) := ptr_block h ((ptr_block h (p +ₗ f), 0) +ₗ i) in
    match c with
    | CBoard => p.1
    | CData => ptr_block h (p +ₗ f_data)
    | CDataRow i => arr f_data i
    | CApp => ptr_block h (p +ₗ f_appearances)
    | CRows => ptr_block h (p +ₗ f_rows)
    | CCols => ptr_block h (p +ₗ f_cols)
    | CBoxs => ptr_block h (p +ₗ f_boxs)
    | CNotes => ptr_block h (p +ₗ f_notes)
    | CNotesRow i => arr f_notes i
    | CHm pl => hm_block h p pl
    | CMap pl => ptr_block h ((hm_block h p pl, 0) +ₗ f_map)
    end.

(** The parts of a board of size [n], and the offsets of their cells. *)
Definition places (n : Z) : list place :=
  let ix := seqZ 0 n in
  (PRow <$> ix) ++ (PCol <$> ix) ++ (PBox <$> ix) ++
  (i ← ix; PNote i <$> ix).

Definition comps (n : Z) : list comp :=
  let ix := seqZ 0 n in
  [CBoard; CData; CApp; CRows; CCols; CBoxs; CNotes] ++
  (CDataRow <$> ix) ++ (CNotesRow <$> ix) ++
  (CHm <$> places n) ++ (CMap <$> places n).

Definition offsets (b : board) (c : comp) : list Z :=
  match c with
  | CBoard => seqZ 0 8
  | CHm _ => seqZ 0 3
  | CMap pl => seqZ 0 (h_len (hm_at b pl))
  | _ => seqZ 0 (b_size b)
  end.

(** [repr], decided: the cells of every part are looked up. *)
Definition repr_check (L : layout) (h : mem) (p : addr) (b : board) : bool :=
  bool_decide (p = (L CBoard, 0)) &&
  forallb
    (λ c, forallb
            (λ off, match content L b c off with
                    | Some v => bool_decide (cells h !! (L c, off) = Some v)
                    | None => true
                    end)
            (offsets b c))
    (comps (b_size b)).

(** Two layouts are separate, decided: no block is named twice. *)
Definition separate_check (Ld Ls : layout) (n : Z) : bool :=
  bool_decide (NoDup ((Ld <$> comps n) ++ (Ls <$> comps n))).

(** [mem_ok], decided. *)
Definition mem_ok_check (h : mem) : bool :=
  bool_decide (map_Forall (λ (a : addr) (_ : val), (a.1 < next h)%nat) (cells h)).

(** *** Two boards on the heap *)

(** The heap after two calls of [board_create(4)] and the insertion of the
    clues of [sample4] into the second board. *)
Definition heap4 : option (addr * addr * mem) :=
  (d ←ₘ board_create 4;
   s ←ₘ board_create 4;
   _ ←ₘ board_insert s 1 1 1;
   _ ←ₘ board_insert s 2 3 2;
   ret (d, s)) empty_mem.

Definition heap4_dest : addr := from_option (λ x, x.1.1) (0%nat, 0) heap4.
Definition heap4_src : addr := from_option (λ x, x.1.2) (0%nat, 0) heap4.
Definition heap4_mem : mem := from_option (λ x, x.2) empty_mem heap4.
Definition heap4_dest_layout : layout := layout_of heap4_mem heap4_dest.
Definition heap4_src_layout : layout := layout_of heap4_mem heap4_src.

End Heap.

(** * Proofs *)

(** ** Machine integers *)

Lemma wrap_id z : int_min ≤ z ≤ int_max → wrap z = z.
Proof.
  unfold wrap, int_min, int_max. intros Hz.
  rewrite Z.mod_small by lia. lia.
Qed.

Lemma incr_id z : int_min ≤ z < int_max → incr z = z + 1.
Proof. intros Hz. unfold incr. apply wrap_id. lia. Qed.

Lemma decr_id z : int_min < z ≤ int_max → decr z = z - 1.
Proof. intros Hz. unfold decr. apply wrap_id. lia. Qed.

(** ** Arrays *)


Lemma length_upd {A : Type} (l : list A) (i : Z) f : length (upd l i f) = length l.
Proof. apply length_alter. Qed.

Lemma get_upd_eq {A : Type} `{!Inhabited A} (l : list A) (i : Z) f :
  0 ≤ i < Z.of_nat (length l) → get (upd l i f) i = f (get l i).
Proof.
  intros Hi. unfold get, upd. apply list_lookup_total_alter_eq. lia.
Qed.

Lemma get_upd_ne {A : Type} `{!Inhabited A} (l : list A) (i j : Z) f :
  0 ≤ i → 0 ≤ j → i ≠ j → get (upd l i f) j = get l j.
Proof.
  intros Hi Hj Hne. unfold get, upd. apply list_lookup_total_alter_ne. lia.
Qed.

Lemma get_upd {A : Type} `{!Inhabited A} (l : list A) (i j : Z) f :
  0 ≤ i < Z.of_nat (length l) → 0 ≤ j →
  get (upd l i f) j = if decide (i = j) then f (get l i) else get l j.
Proof.
  intros Hi Hj. case_decide as Hd.
  - subst j. by apply get_upd_eq.
  - apply get_upd_ne; lia.
Qed.

Lemma upd_id {A : Type} `{!Inhabited A} (l : list A) (i : Z) f : f (get l i) = get l i → upd l i f = l.
Proof.
  intros Hf. unfold upd, get in *. apply list_eq. intros k.
  rewrite list_lookup_alter. case_decide as Hd; [|done].
  subst k. destruct (l !! Z.to_nat i) as [x|] eqn:Hx; [|done].
  simpl. f_equal. by rewrite (list_lookup_total_correct _ _ _ Hx) in Hf.
Qed.

Lemma list_ext_get {A : Type} `{!Inhabited A} (l1 l2 : list A) n :
  length l1 = Z.to_nat n → length l2 = Z.to_nat n →
  (∀ i, 0 ≤ i < n → get l1 i = get l2 i) → l1 = l2.
Proof.
  intros H1 H2 Hget. apply (list_eq_same_length _ _ (Z.to_nat n)); [done..|].
  intros k x y Hk Hx Hy.
  specialize (Hget (Z.of_nat k) ltac:(lia)). unfold get in Hget.
  rewrite Nat2Z.id in Hget.
  rewrite (list_lookup_total_correct _ _ _ Hx) in Hget.
  by rewrite (list_lookup_total_correct _ _ _ Hy) in Hget.
Qed.

Lemma Forall_get {A : Type} `{!Inhabited A} (P : A → Prop) (l : list A) (i : Z) :
  Forall P l → 0 ≤ i < Z.of_nat (length l) → P (get l i).
Proof. intros Hl Hi. unfold get. apply Forall_lookup_total_1; [done|lia]. Qed.

Lemma Forall_of_get {A : Type} `{!Inhabited A} (P : A → Prop) (l : list A) :
  (∀ i, 0 ≤ i < Z.of_nat (length l) → P (get l i)) → Forall P l.
Proof.
  intros Hl. apply (@Forall_lookup_total_2 _ P _ l). intros k Hk.
  specialize (Hl (Z.of_nat k) ltac:(lia)). unfold get in Hl.
  by rewrite Nat2Z.id in Hl.
Qed.

Lemma Forall_upd {A : Type} (P : A → Prop) (l : list A) (i : Z) f :
  Forall P l → (∀ x, P x → P (f x)) → Forall P (upd l i f).
Proof. intros Hl Hf. apply Forall_alter; auto. Qed.

Lemma length_upd2 {A : Type} (m : list (list A)) (i j : Z) f : length (upd2 m i j f) = length m.
Proof. apply length_upd. Qed.

Lemma get2_upd2 {A : Type} `{!Inhabited A} (m : list (list A)) (i j i' j' : Z) f n :
  length m = Z.to_nat n → Forall (λ r, length r = Z.to_nat n) m →
  0 ≤ i < n → 0 ≤ j < n → 0 ≤ i' → 0 ≤ j' →
  get2 (upd2 m i j f) i' j' =
    if decide (i = i' ∧ j = j') then f (get2 m i j) else get2 m i' j'.
Proof.
  intros Hm Hr Hi Hj Hi' Hj'. unfold get2, upd2.
  rewrite get_upd by lia. case_decide as Hd.
  - subst i'. rewrite get_upd; [|split; [lia|]|lia].
    + destruct (decide (j = j')), (decide (i = i ∧ j = j')); intuition.
    + assert (length (get m i) = Z.to_nat n) as ->; [|lia].
      unfold get.
      apply (Forall_lookup_total_1 (λ r, length r = Z.to_nat n)); [done|lia].
  - destruct (decide (i = i' ∧ j = j')); intuition.
Qed.

Lemma Forall_rows_upd2 {A : Type} (P : list A → Prop) (m : list (list A)) (i j : Z) f :
  Forall P m → (∀ r, P r → P (upd r j f)) → Forall P (upd2 m i j f).
Proof. intros Hm Hf. apply Forall_upd; auto. Qed.

(** ** Loops *)

Lemma for_each_empty {St : Type} lo hi (body : Z → St → St) s :
  hi ≤ lo → for_each lo hi body s = s.
Proof. intros Hle. unfold for_each. rewrite seqZ_nil by lia. done. Qed.

Lemma for_each_snoc {St : Type} lo hi (body : Z → St → St) s :
  lo ≤ hi → for_each lo (hi + 1) body s = body hi (for_each lo hi body s).
Proof.
  intros Hle. unfold for_each.
  replace (hi + 1 - lo) with (hi - lo + 1) by lia.
  rewrite seqZ_app by lia. rewrite foldl_app.
  rewrite (seqZ_cons _ 1) by lia. rewrite (seqZ_nil _ (Z.pred 1)) by lia. simpl.
  f_equal. lia.
Qed.

(** Invariant rule for a loop without [break]. *)
Lemma for_each_ind {St : Type} (P : Z → St → Prop) lo hi (body : Z → St → St) s :
  lo ≤ hi → P lo s →
  (∀ i s, lo ≤ i < hi → P i s → P (i + 1) (body i s)) →
  P hi (for_each lo hi body s).
Proof.
  intros Hle H0 Hstep.
  assert (∀ k : nat, lo + Z.of_nat k ≤ hi →
            P (lo + Z.of_nat k) (for_each lo (lo + Z.of_nat k) body s)) as Hk.
  { induction k as [|k IH]; intros Hb.
    - rewrite Z.add_0_r. rewrite for_each_empty by lia. done.
    - replace (lo + Z.of_nat (S k)) with (lo + Z.of_nat k + 1) by lia.
      rewrite for_each_snoc by lia. apply Hstep; [lia|]. apply IH. lia. }
  specialize (Hk (Z.to_nat (hi - lo))).
  replace (lo + Z.of_nat (Z.to_nat (hi - lo))) with hi in Hk by lia.
  apply Hk. lia.
Qed.

(** The same for a property that does not mention the loop variable. *)
Lemma for_each_pres {St : Type} (P : St → Prop) lo hi (body : Z → St → St) s :
  P s → (∀ i s, lo ≤ i < hi → P s → P (body i s)) → P (for_each lo hi body s).
Proof.
  intros H0 Hstep. destruct (decide (lo ≤ hi)).
  - apply (for_each_ind (λ _, P)); auto.
  - rewrite for_each_empty by lia. done.
Qed.

Lemma res_sat_impl {St : Type} (P P' : St → Prop) (Q Q' : Z → board → Prop) c :
  res_sat P Q c → (∀ s, P s → P' s) → (∀ r b, Q r b → Q' r b) → res_sat P' Q' c.
Proof. destruct c; simpl; auto. Qed.

Lemma res_sat_bind {A B : Type} (P : A → Prop) (P' : B → Prop) Q (c : res A) (k : A → res B) :
  res_sat P Q c → (∀ s, P s → res_sat P' Q (k s)) → res_sat P' Q (c ≫= k).
Proof. destruct c; simpl; auto. Qed.

(** Invariant rule for a loop whose body may break, return or fail. *)
Lemma for_list_sat {St : Type} (I : St → Prop) Q (body : Z → St → res (bool * St)) l s :
  I s →
  (∀ i s, i ∈ l → I s → res_sat (λ bs, I bs.2) Q (body i s)) →
  res_sat I Q (for_list body l s).
Proof.
  revert s. induction l as [|i l IH]; intros s Hs Hbody; simpl; [done|].
  pose proof (Hbody i s ltac:(left) Hs) as Hi.
  destruct (body i s) as [[[] s']| |]; simpl in *; auto.
  apply IH; [done|]. intros. apply Hbody; [by right|done].
Qed.

Lemma for_range_sat {St : Type} (I : St → Prop) Q lo hi (body : Z → St → res (bool * St)) s :
  I s →
  (∀ i s, lo ≤ i < hi → I s → res_sat (λ bs, I bs.2) Q (body i s)) →
  res_sat I Q (for_range lo hi body s).
Proof.
  intros Hs Hbody. apply for_list_sat; [done|].
  intros i s' Hi. apply Hbody. apply elem_of_seqZ in Hi. lia.
Qed.

(** ** Counting *)

Lemma countb_bounds {A : Type} (p : A → bool) (l : list A) :
  0 ≤ countb p l ≤ Z.of_nat (length l).
Proof.
  induction l as [|x l IH]; simpl; [lia|]. destruct (p x); simpl; lia.
Qed.

Lemma countb_alter {A : Type} (p : A → bool) (f : A → A) (l : list A) (k : nat) x :
  l !! k = Some x →
  countb p (alter f k l) = countb p l - b2z (p x) + b2z (p (f x)).
Proof.
  revert k. induction l as [|y l IH]; intros [|k] Hk; simplify_eq/=.
  - lia.
  - rewrite (IH k Hk). lia.
Qed.

Lemma countb_upd {A : Type} `{!Inhabited A} (p : A → bool) (f : A → A) (l : list A) (i : Z) :
  0 ≤ i < Z.of_nat (length l) →
  countb p (upd l i f) = countb p l - b2z (p (get l i)) + b2z (p (f (get l i))).
Proof.
  intros Hi. unfold upd, get.
  destruct (lookup_lt_is_Some_2 l (Z.to_nat i)) as [x Hx]; [lia|].
  rewrite (list_lookup_total_correct _ _ _ Hx). by apply countb_alter.
Qed.

Lemma countb_zero {A : Type} (p : A → bool) (l : list A) :
  countb p l = 0 ↔ Forall (λ x, p x = false) l.
Proof.
  induction l as [|x l IH]; simpl.
  - split; [constructor|done].
  - pose proof (countb_bounds p l). rewrite Forall_cons. destruct (p x); simpl.
    + split; [lia|]. intros [? _]. done.
    + rewrite <- IH. split; [intros; split; [done|lia]|intros [_ ?]; lia].
Qed.

Lemma countb_full {A : Type} (p : A → bool) (l : list A) :
  countb p l = Z.of_nat (length l) ↔ Forall (λ x, p x = true) l.
Proof.
  induction l as [|x l IH]; simpl.
  - split; [constructor|done].
  - pose proof (countb_bounds p l). rewrite Forall_cons. destruct (p x); simpl.
    + rewrite <- IH. split; [intros; split; [done|lia]|intros [_ ?]; lia].
    + split; [lia|]. intros [? _]. done.
Qed.

Lemma countb_ext {A : Type} (p q : A → bool) (l : list A) :
  Forall (λ x, p x = q x) l → countb p l = countb q l.
Proof. induction 1 as [|x l Hx _ IH]; simpl; [done|]. by rewrite Hx, IH. Qed.

(** ** Heatmaps *)

Lemma hm_ok_count n h : hm_ok n h → 0 ≤ h_count h ≤ n.
Proof.
  intros (_ & ? & Hlen & ->). pose proof (countb_bounds id (h_map h)). lia.
Qed.

Lemma hm_ok_create n : 0 ≤ n ≤ int_max → hm_ok n (heatmap_create n).
Proof.
  intros Hn. unfold hm_ok, heatmap_create. simpl.
  rewrite length_replicate. split; [done|]. split; [lia|]. split; [done|].
  symmetry. apply countb_zero. by apply Forall_replicate.
Qed.

Lemma check_create n w :
  1 ≤ w ≤ n → heatmap_check (heatmap_create n) w = false.
Proof.
  intros Hw. unfold heatmap_check, heatmap_create, get. simpl.
  rewrite lookup_total_replicate_2; [done|lia].
Qed.

Lemma count_create n : h_count (heatmap_create n) = 0.
Proof. done. Qed.

Section heatmap_ops.
  Context (n : Z) (h : heatmap) (v : Z).
  Hypothesis Hok : hm_ok n h.
  Hypothesis Hv : 1 ≤ v ≤ n.

Lemma hm_ok_set (x : bool) c :
    c = h_count h - b2z (heatmap_check h v) + b2z x →
    hm_ok n (Heatmap (h_len h) c (upd (h_map h) (v - 1) (λ _, x))).
  Proof using Hok Hv.
    destruct Hok as (Hlen & Hn & Hmap & Hcount). intros ->.
    unfold hm_ok. simpl. rewrite length_upd.
    split; [done|]. split; [done|]. split; [done|].
    rewrite countb_upd by lia. rewrite Hcount. done.
  Qed.

Lemma hm_ok_off : hm_ok n (heatmap_off h v).
  Proof using Hok Hv.
    unfold heatmap_off. apply hm_ok_set. fold (heatmap_check h v).
    pose proof (hm_ok_count _ _ Hok) as Hc. destruct Hok as (_ & Hn & _ & Hcount).
    destruct (heatmap_check h v) eqn:Hchk; simpl; [|lia].
    assert (h_count h ≠ 0) as Hne.
    { rewrite Hcount. intros Hz%countb_zero.
      unfold heatmap_check in Hchk.
      apply (Forall_get (λ x, id x = false) _ (v - 1)) in Hz.
      - simpl in Hz. congruence.
      - destruct Hok as (_ & _ & -> & _). lia. }
    rewrite decr_id; unfold int_min, int_max in *; lia.
  Qed.

Lemma hm_ok_on : hm_ok n (heatmap_on h v).
  Proof using Hok Hv.
    unfold heatmap_on. apply hm_ok_set. fold (heatmap_check h v).
    pose proof (hm_ok_count _ _ Hok) as Hc. destruct Hok as (_ & Hn & Hlen & Hcount).
    destruct (heatmap_check h v) eqn:Hchk; simpl; [lia|].
    assert (h_count h ≠ n) as Hne.
    { rewrite Hcount. intros Hz.
      assert (countb id (h_map h) = Z.of_nat (length (h_map h))) as Hf%countb_full by lia.
      unfold heatmap_check in Hchk.
      apply (Forall_get (λ x, id x = true) _ (v - 1)) in Hf.
      - simpl in Hf. congruence.
      - lia. }
    rewrite incr_id; unfold int_min, int_max in *; lia.
  Qed.

Lemma hm_ok_flip : hm_ok n (heatmap_flip h v).2.
  Proof using Hok Hv.
    pose proof hm_ok_off as Hoff. pose proof hm_ok_on as Hon.
    unfold heatmap_flip, heatmap_off, heatmap_on in *.
    destruct (get (h_map h) (v - 1)); simpl in *; done.
  Qed.

Lemma check_set (x : bool) c w :
    1 ≤ w →
    heatmap_check (Heatmap (h_len h) c (upd (h_map h) (v - 1) (λ _, x))) w =
      if decide (v = w) then x else heatmap_check h w.
  Proof using Hok Hv.
    intros Hw. destruct Hok as (_ & _ & Hmap & _).
    unfold heatmap_check. simpl. rewrite get_upd by lia.
    repeat case_decide; try done; lia.
  Qed.

Lemma check_off w :
    1 ≤ w → heatmap_check (heatmap_off h v) w =
             if decide (v = w) then false else heatmap_check h w.
  Proof using Hok Hv. apply check_set. Qed.

Lemma check_on w :
    1 ≤ w → heatmap_check (heatmap_on h v) w =
             if decide (v = w) then true else heatmap_check h w.
  Proof using Hok Hv. apply check_set. Qed.

Lemma check_flip w :
    1 ≤ w → heatmap_check (heatmap_flip h v).2 w =
             if decide (v = w) then negb (heatmap_check h v) else heatmap_check h w.
  Proof using Hok Hv.
    intros Hw. unfold heatmap_flip. fold (heatmap_check h v).
    destruct (heatmap_check h v); simpl; by rewrite check_set.
  Qed.

Lemma count_flip_on :
    heatmap_check h v = false → h_count (heatmap_flip h v).2 = h_count h + 1.
  Proof using Hok Hv.
    intros Hchk. pose proof hm_ok_on as Hon.
    unfold heatmap_flip, heatmap_on in *. fold (heatmap_check h v) in *.
    rewrite Hchk in *. simpl in *.
    destruct Hon as (_ & _ & _ & Hc). simpl in Hc. rewrite Hc.
    destruct Hok as (_ & _ & Hlen & ->).
    rewrite countb_upd by lia. fold (heatmap_check h v). rewrite Hchk. simpl. lia.
  Qed.

  (** Turning off a value that is off changes nothing. *)
Lemma heatmap_off_id : heatmap_check h v = false → heatmap_off h v = h.
  Proof using Hok Hv.
    intros Hchk. unfold heatmap_off. fold (heatmap_check h v). rewrite Hchk.
    rewrite upd_id by done. by destruct h.
  Qed.
End heatmap_ops.

(** A well-formed heatmap is determined by its members. *)
Lemma hm_ext n h h' :
  hm_ok n h → hm_ok n h' →
  (∀ w, 1 ≤ w ≤ n → heatmap_check h w = heatmap_check h' w) → h = h'.
Proof.
  intros (Hl & _ & Hm & Hc) (Hl' & _ & Hm' & Hc') Hchk.
  assert (h_map h = h_map h') as Heq.
  { apply (list_ext_get _ _ n); [done..|]. intros i Hi.
    specialize (Hchk (i + 1) ltac:(lia)). unfold heatmap_check in Hchk.
    by replace (i + 1 - 1) with i in Hchk by lia. }
  destruct h, h'. simpl in *. congruence.
Qed.

Lemma hm_count_zero n h :
  hm_ok n h → (h_count h = 0 ↔ ∀ w, 1 ≤ w ≤ n → heatmap_check h w = false).
Proof.
  intros (Hl & _ & Hm & ->). rewrite countb_zero. split.
  - intros Hf w Hw. unfold heatmap_check.
    apply (Forall_get (λ x, id x = false)); [done|lia].
  - intros Hchk. apply Forall_of_get. intros i Hi.
    specialize (Hchk (i + 1) ltac:(lia)). unfold heatmap_check in Hchk.
    by replace (i + 1 - 1) with i in Hchk by lia.
Qed.

Lemma hm_count_pos n h w :
  hm_ok n h → 1 ≤ w ≤ n → heatmap_check h w = true → 0 < h_count h.
Proof.
  intros Hok Hw Hchk. pose proof (hm_ok_count _ _ Hok).
  destruct (decide (h_count h = 0)) as [Hz|]; [|lia].
  rewrite (hm_count_zero _ _ Hok) in Hz. rewrite Hz in Hchk; done.
Qed.

(** [heatmap_copy] reproduces the members of [src] in [dest], one by one. *)
Lemma heatmap_copy_spec n dest src :
  hm_ok n dest → length (h_map src) = Z.to_nat n →
  hm_ok n (heatmap_copy dest src) ∧
  ∀ w, 1 ≤ w ≤ n → heatmap_check (heatmap_copy dest src) w = heatmap_check src w.
Proof.
  intros Hd Hs. unfold heatmap_copy.
  assert (h_len dest = n) as -> by apply Hd.
  destruct (decide (0 ≤ n)) as [Hn|Hn]; last first.
  { rewrite for_each_empty by lia. split; [done|]. intros; lia. }
  pose (P := λ (k : Z) (d : heatmap),
    hm_ok n d ∧
    ∀ w, 1 ≤ w ≤ n →
      heatmap_check d w = if decide (w < k) then heatmap_check src w else heatmap_check dest w).
  assert (P (n + 1) (for_each 1 (n + 1)
    (λ i d, let d := heatmap_off d i in
            if heatmap_check src i then (heatmap_flip d i).2 else d) dest)) as [Hok Hchk].
  { apply for_each_ind; [lia| |].
    - split; [done|]. intros w Hw. case_decide; [lia|done].
    - intros i d Hi [Hok Hchk]. simpl.
      assert (hm_ok n (heatmap_off d i)) as Hoff by (apply hm_ok_off; [done|lia]).
      split.
      + destruct (heatmap_check src i); [apply hm_ok_flip; [done|lia]|done].
      + intros w Hw.
        destruct (heatmap_check src i) eqn:Hsi.
        * rewrite (check_flip n) by (done || lia).
          rewrite !(check_off n) by (done || lia).
          repeat case_decide; subst; simpl; try lia; try done.
          rewrite Hchk by lia. case_decide; [done|lia].
          rewrite Hchk by lia. case_decide; [lia|done].
        * rewrite !(check_off n) by (done || lia).
          repeat case_decide; subst; simpl; try lia; try done.
          rewrite Hchk by lia. case_decide; [done|lia].
          rewrite Hchk by lia. case_decide; [lia|done]. }
  split; [done|]. intros w Hw. rewrite Hchk by done. case_decide; [done|lia].
Qed.

(** ** Box arithmetic *)

Section box_arith.
  Context (R : Z) (HR : 0 < R).

Lemma div_range_iff i q :
    0 ≤ i → 0 ≤ q → (R * q ≤ i < R * q + R ↔ i `div` R = q).
  Proof using HR.
    intros Hi Hq. split.
    - intros Hr. symmetry. apply (Z.div_unique_pos i R q (i - R * q)); lia.
    - intros <-. pose proof (Z.mul_div_le i R HR).
      pose proof (Z.mul_succ_div_gt i R HR). lia.
  Qed.

Lemma box_decompose i j k :
    0 ≤ i < R * R → 0 ≤ j < R * R → 0 ≤ k < R * R →
    (R * (i `div` R) + j `div` R = k ↔ i `div` R = k `div` R ∧ j `div` R = k `mod` R).
  Proof using HR.
    intros Hi Hj Hk.
    assert (0 ≤ j `div` R < R) as Hjr.
    { split; [apply Z.div_pos; lia|]. apply Z.div_lt_upper_bound; lia. }
    split.
    - intros <-. split.
      + apply (Z.div_unique_pos _ R (i `div` R) (j `div` R)); lia.
      + apply (Z.mod_unique_pos _ R (i `div` R) (j `div` R)); lia.
    - intros [-> ->]. pose proof (Z.div_mod k R). lia.
  Qed.

Lemma box_index_range i j :
    0 ≤ i < R * R → 0 ≤ j < R * R → 0 ≤ R * (i `div` R) + j `div` R < R * R.
  Proof using HR.
    intros Hi Hj.
    assert (0 ≤ j `div` R < R) as Hjr.
    { split; [apply Z.div_pos; lia|]. apply Z.div_lt_upper_bound; lia. }
    assert (0 ≤ i `div` R < R) as Hir.
    { split; [apply Z.div_pos; lia|]. apply Z.div_lt_upper_bound; lia. }
    nia.
  Qed.

Lemma box_corner_range k :
    0 ≤ k < R * R →
    0 ≤ R * (k `div` R) ∧ R * (k `div` R) + R ≤ R * R ∧
    0 ≤ R * (k `mod` R) ∧ R * (k `mod` R) + R ≤ R * R.
  Proof using HR.
    intros Hk.
    assert (0 ≤ k `div` R < R) as Hd.
    { split; [apply Z.div_pos; lia|]. apply Z.div_lt_upper_bound; lia. }
    pose proof (Z.mod_pos_bound k R HR). nia.
  Qed.
End box_arith.

(** ** Reading a well-shaped board *)

Section shape_facts.
  Context (b : board) (Hs : shape b).

Lemma shape_root_pos : 0 < isqrt (b_size b).
  Proof using Hs.
    pose proof (shape_root _ Hs). pose proof (shape_pos _ Hs).
    unfold isqrt in *. pose proof (Z.sqrt_nonneg (b_size b)). nia.
  Qed.

Lemma shape_size_int : b_size b ≤ int_max.
  Proof using Hs.
    pose proof (shape_int _ Hs). pose proof (shape_pos _ Hs). nia.
  Qed.

Lemma box_of_eq r c :
    idx b r → idx b c →
    box_of b r c = isqrt (b_size b) * (r `div` isqrt (b_size b)) + c `div` isqrt (b_size b).
  Proof using Hs.
    intros Hr Hc. unfold box_of, box_finder, idx in *. pose proof shape_root_pos.
    rewrite !Z.quot_div_nonneg by lia. done.
  Qed.

Lemma box_of_idx r c : idx b r → idx b c → idx b (box_of b r c).
  Proof using Hs.
    intros Hr Hc. rewrite box_of_eq by done. unfold idx in *.
    pose proof shape_root_pos as HR. pose proof (shape_root _ Hs) as Hsz.
    set (root := isqrt (b_size b)) in *. clearbody root.
    rewrite <- Hsz in *. by apply box_index_range.
  Qed.

  (** The rectangle that the loops over a box span is the set of cells that
      [box_finder] maps to that box. *)
Lemma box_range_iff k i j :
    idx b k → idx b i → idx b j →
    let root := isqrt (b_size b) in
    (root * (k `quot` root) ≤ i < root * (k `quot` root) + root ∧
     root * (k `rem` root) ≤ j < root * (k `rem` root) + root) ↔ box_of b i j = k.
  Proof using Hs.
    intros Hk Hi Hj root. rewrite box_of_eq by done. fold root.
    pose proof shape_root_pos as HR. fold root in HR. unfold idx in *.
    pose proof (shape_root _ Hs) as Hsz. fold root in Hsz. clearbody root.
    rewrite <- Hsz in *.
    rewrite Z.quot_div_nonneg, Z.rem_mod_nonneg by lia.
    rewrite box_decompose by lia.
    assert (0 ≤ k `div` root) by (apply Z.div_pos; lia).
    pose proof (Z.mod_pos_bound k root HR).
    rewrite !div_range_iff by lia. done.
  Qed.

Lemma box_corner k :
    idx b k →
    let root := isqrt (b_size b) in
    0 ≤ root * (k `quot` root) ∧ root * (k `quot` root) + root ≤ b_size b ∧
    0 ≤ root * (k `rem` root) ∧ root * (k `rem` root) + root ≤ b_size b.
  Proof using Hs.
    intros Hk root. pose proof shape_root_pos as HR. fold root in HR. unfold idx in *.
    pose proof (shape_root _ Hs) as Hsz. fold root in Hsz. clearbody root.
    rewrite <- Hsz in *.
    rewrite Z.quot_div_nonneg, Z.rem_mod_nonneg by lia.
    by apply box_corner_range.
  Qed.

Lemma shape_row_hm i : idx b i → hm_ok (b_size b) (get (b_rows b) i).
  Proof using Hs.
    intros Hi. unfold idx in *.
    apply Forall_get; [apply Hs|]. rewrite (shape_rows _ Hs). lia.
  Qed.

Lemma shape_col_hm i : idx b i → hm_ok (b_size b) (get (b_cols b) i).
  Proof using Hs.
    intros Hi. unfold idx in *.
    apply Forall_get; [apply Hs|]. rewrite (shape_cols _ Hs). lia.
  Qed.

Lemma shape_box_hm i : idx b i → hm_ok (b_size b) (get (b_boxs b) i).
  Proof using Hs.
    intros Hi. unfold idx in *.
    apply Forall_get; [apply Hs|]. rewrite (shape_boxs _ Hs). lia.
  Qed.

Lemma shape_notes_row i :
    idx b i → length (get (b_notes b) i) = Z.to_nat (b_size b) ∧
              Forall (hm_ok (b_size b)) (get (b_notes b) i).
  Proof using Hs.
    intros Hi. unfold idx in *.
    apply (Forall_get (λ r, length r = Z.to_nat (b_size b) ∧ Forall (hm_ok (b_size b)) r));
      [apply Hs|]. rewrite (shape_notes _ Hs). lia.
  Qed.

Lemma shape_note_hm i j : idx b i → idx b j → hm_ok (b_size b) (get2 (b_notes b) i j).
  Proof using Hs.
    intros Hi Hj. destruct (shape_notes_row i Hi) as [Hlen Hall].
    unfold get2, idx in *. apply Forall_get; [done|lia].
  Qed.

Lemma shape_data_row i : idx b i → length (get (b_data b) i) = Z.to_nat (b_size b).
  Proof using Hs.
    intros Hi. unfold idx in *.
    apply (Forall_get (λ r, length r = Z.to_nat (b_size b))); [apply Hs|].
    rewrite (shape_data _ Hs). lia.
  Qed.

Lemma shape_notes_len :
    Forall (λ r : list heatmap, length r = Z.to_nat (b_size b)) (b_notes b).
  Proof using Hs.
    eapply Forall_impl; [apply (shape_notes_rows _ Hs)|]. by intros r [? _].
  Qed.
End shape_facts.

(** ** Setters and shape *)

Lemma shape_set_notes b ns :
  shape b → length ns = Z.to_nat (b_size b) →
  Forall (λ r, length r = Z.to_nat (b_size b) ∧ Forall (hm_ok (b_size b)) r) ns →
  shape (set_notes b ns).
Proof. intros [] ??. constructor; done. Qed.

Lemma shape_upd_note b i j f :
  shape b → (∀ h, hm_ok (b_size b) h → hm_ok (b_size b) (f h)) →
  shape (set_notes b (upd2 (b_notes b) i j f)).
Proof.
  intros Hs Hf. apply shape_set_notes; [done|rewrite length_upd2; apply Hs|].
  apply Forall_rows_upd2; [apply Hs|]. intros r [Hlen Hall].
  rewrite length_upd. split; [done|]. by apply Forall_upd.
Qed.

Lemma shape_note_off b i j v : shape b → is_val b v → shape (note_off b i j v).
Proof.
  intros Hs Hv. apply shape_upd_note; [done|]. intros h Hh. by apply hm_ok_off.
Qed.

Lemma shape_note_on b i j v : shape b → is_val b v → shape (note_on b i j v).
Proof.
  intros Hs Hv. apply shape_upd_note; [done|]. intros h Hh. by apply hm_ok_on.
Qed.

Lemma erase_note_off b i j v : erase_notes (note_off b i j v) = erase_notes b.
Proof. done. Qed.

Lemma erase_note_on b i j v : erase_notes (note_on b i j v) = erase_notes b.
Proof. done. Qed.

Lemma erase_notes_eq b b' :
  erase_notes b = erase_notes b' →
  b_size b = b_size b' ∧ b_data b = b_data b' ∧ b_appearances b = b_appearances b' ∧
  b_total_appearances b = b_total_appearances b' ∧
  b_rows b = b_rows b' ∧ b_cols b = b_cols b' ∧ b_boxs b = b_boxs b'.
Proof. destruct b, b'. unfold erase_notes, set_notes. simpl. intros [=]. done. Qed.

Lemma note_note_off_dec b i j v i' j' w :
  shape b → idx b i → idx b j → is_val b v → 0 ≤ i' → 0 ≤ j' → 1 ≤ w →
  note (note_off b i j v) i' j' w =
    if decide (i = i' ∧ j = j' ∧ v = w) then false else note b i' j' w.
Proof.
  intros Hs Hi Hj Hv Hi' Hj' Hw. unfold note, note_off. simpl.
  rewrite (get2_upd2 _ _ _ _ _ _ (b_size b));
    [|apply Hs|by apply shape_notes_len|done..].
  case_decide as Hd.
  - destruct Hd as [-> ->].
    rewrite (check_off (b_size b)); [|by apply shape_note_hm|done|done].
    repeat case_decide; try done; intuition congruence.
  - case_decide; [intuition congruence|done].
Qed.

Lemma note_note_on_dec b i j v i' j' w :
  shape b → idx b i → idx b j → is_val b v → 0 ≤ i' → 0 ≤ j' → 1 ≤ w →
  note (note_on b i j v) i' j' w =
    if decide (i = i' ∧ j = j' ∧ v = w) then true else note b i' j' w.
Proof.
  intros Hs Hi Hj Hv Hi' Hj' Hw. unfold note, note_on. simpl.
  rewrite (get2_upd2 _ _ _ _ _ _ (b_size b));
    [|apply Hs|by apply shape_notes_len|done..].
  case_decide as Hd.
  - destruct Hd as [-> ->].
    rewrite (check_on (b_size b)); [|by apply shape_note_hm|done|done].
    repeat case_decide; try done; intuition congruence.
  - case_decide; [intuition congruence|done].
Qed.

Lemma note_note_off b i j v i' j' w :
  shape b → idx b i → idx b j → is_val b v → 0 ≤ i' → 0 ≤ j' → 1 ≤ w →
  (note (note_off b i j v) i' j' w = true ↔
   note b i' j' w = true ∧ ¬ (i = i' ∧ j = j' ∧ v = w)).
Proof.
  intros. rewrite note_note_off_dec by done.
  case_decide; [split; [done|tauto]|tauto].
Qed.

Lemma note_note_on b i j v i' j' w :
  shape b → idx b i → idx b j → is_val b v → 0 ≤ i' → 0 ≤ j' → 1 ≤ w →
  (note (note_on b i j v) i' j' w = true ↔
   note b i' j' w = true ∨ (i = i' ∧ j = j' ∧ v = w)).
Proof.
  intros. rewrite note_note_on_dec by done.
  case_decide; [tauto|]. tauto.
Qed.

(** ** The mutation of [board_insert] *)

Lemma insert_args_ok_spec b row col val :
  insert_args_ok b row col val = true ↔
  idx b (row - 1) ∧ idx b (col - 1) ∧ is_val b val.
Proof.
  unfold insert_args_ok, board_get_size, idx, is_val.
  rewrite !andb_true_iff, !Z.ltb_lt, !Z.leb_le. lia.
Qed.

Section insert_commit.
  Context (b : board) (row col val : Z).
  Hypothesis Hs : shape b.
  Hypothesis Hrow : idx b (row - 1).
  Hypothesis Hcol : idx b (col - 1).
  Hypothesis Hval : is_val b val.

Let box := box_finder (row - 1) (col - 1) (board_get_size b).

  (** The board after the stores to the grid, the counter of [val] and the
      three used-sets. *)
Let b1 : board :=
    set_boxs
      (set_cols
         (set_rows
            (set_appearances
               (set_data b (upd2 (b_data b) (row - 1) (col - 1) (λ _, val)))
               (upd (b_appearances b) (val - 1) incr))
            (upd (b_rows b) (row - 1) (λ h, (heatmap_flip h val).2)))
         (upd (b_cols b) (col - 1) (λ h, (heatmap_flip h val).2)))
      (upd (b_boxs b) box (λ h, (heatmap_flip h val).2)).

Lemma shape_b1 : shape b1.
  Proof using Hs Hval.
    assert (∀ h, hm_ok (b_size b) h → hm_ok (b_size b) (heatmap_flip h val).2) as Hflip.
    { intros h Hh. by apply hm_ok_flip. }
    destruct Hs. constructor; simpl; rewrite ?length_upd2, ?length_upd; try done.
    - apply Forall_rows_upd2; [done|]. intros r Hr. by rewrite length_upd.
    - by apply Forall_upd.
    - by apply Forall_upd.
    - by apply Forall_upd.
  Qed.

Lemma note_b1 i j w : note b1 i j w = note b i j w.
  Proof. done. Qed.

  (** What the loop over the row and the column has turned off after [k]
      iterations. *)
Let cross (k i j w : Z) : Prop :=
    (i = row - 1 ∧ j = col - 1 ∧ w ≤ k) ∨
    (w = val ∧ j = col - 1 ∧ i < k) ∨
    (w = val ∧ i = row - 1 ∧ j < k).

Let loop1 : board :=
    for_each 0 (board_get_size b1)
      (λ i b, let b := note_off b (row - 1) (col - 1) (i + 1) in
              let b := note_off b i (col - 1) val in
              note_off b (row - 1) i val)
      b1.

Lemma loop1_spec :
    erase_notes loop1 = erase_notes b1 ∧ shape loop1 ∧
    ∀ i j w, idx b i → idx b j → is_val b w →
      (note loop1 i j w = true ↔ note b i j w = true ∧ ¬ cross (b_size b) i j w).
  Proof using Hs Hrow Hcol Hval.
    pose proof shape_b1 as Hs1. pose proof (shape_pos _ Hs) as Hpos.
    unfold loop1, board_get_size.
    change (b_size b1) with (b_size b).
    apply (for_each_ind (λ k b',
      erase_notes b' = erase_notes b1 ∧ shape b' ∧
      ∀ i j w, idx b i → idx b j → is_val b w →
        (note b' i j w = true ↔ note b i j w = true ∧ ¬ cross k i j w))); [lia| |].
    - split; [done|]. split; [done|]. intros i j w Hi Hj Hw.
      unfold cross, idx, is_val in *. rewrite note_b1. intuition lia.
    - intros k b' Hk (Her & Hs' & Hn). simpl.
      assert (b_size b' = b_size b) as Hsz by (apply erase_notes_eq in Her; apply Her).
      assert (idx b' k ∧ idx b' (row - 1) ∧ idx b' (col - 1) ∧ is_val b' val ∧
              is_val b' (k + 1)) as (Hk' & Hr' & Hc' & Hv' & Hk1).
      { unfold idx, is_val in *. rewrite Hsz. lia. }
      split; [by rewrite !erase_note_off|].
      split; [by repeat apply shape_note_off|].
      intros i j w Hi Hj Hw.
      rewrite !note_note_off;
        try (done || (unfold idx, is_val in *; lia) || (by repeat apply shape_note_off)).
      rewrite Hn by done. unfold cross, idx, is_val in *.
      destruct (decide (i = row - 1)), (decide (j = col - 1)), (decide (w = val));
        intuition lia.
  Qed.

Let root : Z := isqrt (board_get_size loop1).
Let box_row : Z := root * (box `quot` root).
Let box_col : Z := root * (box `rem` root).

Let loop2 : board :=
    for_each box_row (box_row + root)
      (λ i b, for_each box_col (box_col + root) (λ j b, note_off b i j val) b)
      loop1.

Lemma loop2_spec :
    erase_notes loop2 = erase_notes b1 ∧ shape loop2 ∧
    ∀ i j w, idx b i → idx b j → is_val b w →
      (note loop2 i j w = true ↔
       note b i j w = true ∧ ¬ retracted b (row - 1) (col - 1) val i j w).
  Proof using Hs Hrow Hcol Hval.
    destruct loop1_spec as (Her1 & Hs1 & Hn1).
    assert (b_size loop1 = b_size b) as Hsz1 by (apply erase_notes_eq in Her1; apply Her1).
    assert (idx b box) as Hbox by (by apply box_of_idx).
    pose proof (box_corner b Hs box Hbox) as Hcorner.
    pose proof (shape_root_pos b Hs) as Hroot.
    assert (root = isqrt (b_size b)) as Hrooteq.
    { unfold root, board_get_size. by rewrite Hsz1. }
    cbv zeta in Hcorner. rewrite <- Hrooteq in Hcorner, Hroot.
    fold box_row box_col in Hcorner.
    assert (∀ i j, idx b i → idx b j →
      (box_row ≤ i < box_row + root ∧ box_col ≤ j < box_col + root ↔
       box_of b i j = box_of b (row - 1) (col - 1))) as Hrect.
    { intros i j Hi Hj. unfold box_row, box_col. rewrite Hrooteq.
      apply (box_range_iff b Hs box i j); done. }
    pose (I := λ (rect : Z → Z → Prop) (b' : board),
      erase_notes b' = erase_notes b1 ∧ shape b' ∧
      ∀ i j w, idx b i → idx b j → is_val b w →
        (note b' i j w = true ↔
         note b i j w = true ∧ ¬ cross (b_size b) i j w ∧ ¬ (w = val ∧ rect i j))).
    assert (I (λ i j, box_row ≤ i < box_row + root ∧ box_col ≤ j < box_col + root) loop2)
      as (Her & Hs2 & Hn).
    { unfold loop2.
      apply (for_each_ind (λ k b',
        I (λ i j, box_row ≤ i < k ∧ box_col ≤ j < box_col + root) b')); [lia| |].
      - split; [done|]. split; [done|]. intros i j w Hi Hj Hw.
        rewrite Hn1 by done. intuition lia.
      - intros k b' Hk HI.
        assert (I (λ i j, (box_row ≤ i < k ∧ box_col ≤ j < box_col + root) ∨
                          (i = k ∧ box_col ≤ j < box_col + root))
                  (for_each box_col (box_col + root) (λ j b, note_off b k j val) b'))
          as (Her & Hs' & Hn).
        { apply (for_each_ind (λ m b'',
            I (λ i j, (box_row ≤ i < k ∧ box_col ≤ j < box_col + root) ∨
                      (i = k ∧ box_col ≤ j < m)) b'')); [lia| |].
          - destruct HI as (Her & Hs' & Hn). split; [done|]. split; [done|].
            intros i j w Hi Hj Hw. rewrite Hn by done. intuition lia.
          - intros m b'' Hm (Her & Hs' & Hn).
            assert (b_size b'' = b_size b) as Hsz
              by (apply erase_notes_eq in Her; apply Her).
            split; [by rewrite erase_note_off|].
            split; [apply shape_note_off; [done|unfold is_val in *; by rewrite Hsz]|].
            intros i j w Hi Hj Hw.
            rewrite note_note_off;
              try (done || (unfold idx, is_val in *; rewrite ?Hsz; lia)).
            rewrite Hn by done. unfold idx, is_val in *.
            destruct (decide (i = k)), (decide (j = m)), (decide (w = val));
              intuition lia. }
        split; [done|]. split; [done|].
        intros i j w Hi Hj Hw. rewrite Hn by done. intuition lia. }
    split; [done|]. split; [done|]. intros i j w Hi Hj Hw.
    rewrite Hn by done. specialize (Hrect i j Hi Hj).
    unfold retracted, cross, idx, is_val in *.
    destruct (decide (i = row - 1)), (decide (j = col - 1)), (decide (w = val));
      intuition lia.
  Qed.

Lemma insert_commit_spec :
    let b' := insert_commit b row col val box in
    (b_size b' = b_size b ∧
     b_data b' = upd2 (b_data b) (row - 1) (col - 1) (λ _, val) ∧
     b_appearances b' = upd (b_appearances b) (val - 1) incr ∧
     b_total_appearances b' = incr (b_total_appearances b) ∧
     b_rows b' = upd (b_rows b) (row - 1) (λ h, (heatmap_flip h val).2) ∧
     b_cols b' = upd (b_cols b) (col - 1) (λ h, (heatmap_flip h val).2) ∧
     b_boxs b' = upd (b_boxs b) box (λ h, (heatmap_flip h val).2)) ∧
    shape b' ∧
    ∀ i j w, idx b i → idx b j → is_val b w →
      (note b' i j w = true ↔
       note b i j w = true ∧ ¬ retracted b (row - 1) (col - 1) val i j w).
  Proof using Hs Hrow Hcol Hval.
    intros b'.
    assert (b' = set_total_appearances loop2 (incr (b_total_appearances loop2)))
      as Hb' by reflexivity.
    destruct loop2_spec as (Her & Hs2 & Hn).
    apply erase_notes_eq in Her. destruct Her as (H1 & H2 & H3 & H4 & H5 & H6 & H7).
    rewrite Hb'. simpl. split; [|split].
    - rewrite H1, H2, H3, H4, H5, H6, H7. done.
    - destruct Hs2. constructor; done.
    - apply Hn.
  Qed.
End insert_commit.

Lemma count_grid_bounds p (m : list (list Z)) n :
  Forall (λ r, length r = n) m →
  0 ≤ count_grid p m ≤ Z.of_nat (length m) * Z.of_nat n.
Proof.
  induction 1 as [|r m Hr _ IH]; simpl; [lia|].
  pose proof (countb_bounds p r). lia.
Qed.

Lemma count_grid_alter p (m : list (list Z)) (k : nat) (f : list Z → list Z) r :
  m !! k = Some r →
  count_grid p (alter f k m) = count_grid p m - countb p r + countb p (f r).
Proof.
  revert k. induction m as [|y m IH]; intros [|k] Hk; simplify_eq/=.
  - lia.
  - rewrite (IH k Hk). lia.
Qed.

Lemma count_grid_upd2 p (m : list (list Z)) n i j x :
  length m = Z.to_nat n → Forall (λ r, length r = Z.to_nat n) m →
  0 ≤ i < n → 0 ≤ j < n →
  count_grid p (upd2 m i j (λ _, x)) = count_grid p m - b2z (p (get2 m i j)) + b2z (p x).
Proof.
  intros Hm Hr Hi Hj. unfold upd2, upd at 1.
  destruct (lookup_lt_is_Some_2 m (Z.to_nat i)) as [r Hri]; [lia|].
  rewrite (count_grid_alter _ _ _ _ r) by done.
  assert (get m i = r) as Hget by (by apply list_lookup_total_correct).
  assert (length r = Z.to_nat n) as Hlen.
  { eapply (Forall_lookup_1 (λ r, length r = Z.to_nat n)); done. }
  rewrite countb_upd by lia. unfold get2. rewrite Hget. lia.
Qed.

Lemma count_grid_zero p (m : list (list Z)) :
  count_grid p m = 0 ↔ Forall (Forall (λ x, p x = false)) m.
Proof.
  induction m as [|r m IH]; simpl.
  - split; [constructor|done].
  - pose proof (countb_bounds p r). rewrite Forall_cons, <- IH, <- countb_zero.
    assert (0 ≤ count_grid p m).
    { clear. induction m as [|r' m IH]; simpl; [lia|].
      pose proof (countb_bounds p r'). lia. }
    lia.
Qed.

Lemma count_grid_full p (m : list (list Z)) n :
  Forall (λ r, length r = n) m →
  (count_grid p m = Z.of_nat (length m) * Z.of_nat n ↔
   Forall (Forall (λ x, p x = true)) m).
Proof.
  induction 1 as [|r m Hr Hm IH]; simpl.
  - split; [constructor|lia].
  - pose proof (countb_bounds p r). pose proof (count_grid_bounds p m n Hm).
    rewrite Forall_cons, <- IH, <- countb_full. lia.
Qed.

Section insert_commit_result.
  Context (b : board) (row col val : Z).
  Hypothesis Hs : shape b.
  Hypothesis Hrow : idx b (row - 1).
  Hypothesis Hcol : idx b (col - 1).
  Hypothesis Hval : is_val b val.

Let b' : board :=
    insert_commit b row col val (box_finder (row - 1) (col - 1) (board_get_size b)).

Lemma insert_commit_fields :
    b_size b' = b_size b ∧
    b_data b' = upd2 (b_data b) (row - 1) (col - 1) (λ _, val) ∧
    b_appearances b' = upd (b_appearances b) (val - 1) incr ∧
    b_total_appearances b' = incr (b_total_appearances b) ∧
    b_rows b' = upd (b_rows b) (row - 1) (λ h, (heatmap_flip h val).2) ∧
    b_cols b' = upd (b_cols b) (col - 1) (λ h, (heatmap_flip h val).2) ∧
    b_boxs b' = upd (b_boxs b) (box_of b (row - 1) (col - 1))
                    (λ h, (heatmap_flip h val).2).
  Proof using Hs Hrow Hcol Hval.
    apply (insert_commit_spec b row col val Hs Hrow Hcol Hval).
  Qed.

Lemma insert_commit_shape : shape b'.
  Proof using Hs Hrow Hcol Hval.
    apply (insert_commit_spec b row col val Hs Hrow Hcol Hval).
  Qed.

Lemma insert_commit_note i j w :
    idx b i → idx b j → is_val b w →
    (note b' i j w = true ↔
     note b i j w = true ∧ ¬ retracted b (row - 1) (col - 1) val i j w).
  Proof using Hs Hrow Hcol Hval.
    apply (insert_commit_spec b row col val Hs Hrow Hcol Hval).
  Qed.

Lemma insert_commit_cell i j :
    0 ≤ i → 0 ≤ j →
    cell b' i j = if decide (row - 1 = i ∧ col - 1 = j) then val else cell b i j.
  Proof using Hs Hrow Hcol Hval.
    intros Hi Hj. destruct insert_commit_fields as (_ & Hd & _).
    unfold cell. rewrite Hd.
    rewrite (get2_upd2 _ _ _ _ _ _ (b_size b)); [done|apply Hs..|done|done|done|done].
  Qed.

Lemma insert_commit_box_of i j : box_of b' i j = box_of b i j.
  Proof using Hs Hrow Hcol Hval.
    destruct insert_commit_fields as (Hsz & _). unfold box_of. by rewrite Hsz.
  Qed.

  Hypothesis Hrow_free : row_used b (row - 1) val = false.
  Hypothesis Hcol_free : col_used b (col - 1) val = false.
  Hypothesis Hbox_free : box_used b (box_of b (row - 1) (col - 1)) val = false.

Lemma insert_commit_row_used i w :
    idx b i → is_val b w →
    row_used b' i w = if decide (row - 1 = i ∧ val = w) then true else row_used b i w.
  Proof using Hs Hrow Hcol Hval Hrow_free.
    intros Hi Hw. destruct insert_commit_fields as (_ & _ & _ & _ & Hr & _).
    unfold row_used in *. rewrite Hr. unfold idx, is_val in *.
    rewrite get_upd; [|rewrite (shape_rows _ Hs); lia|lia].
    case_decide as Hd.
    - subst i. rewrite (check_flip (b_size b));
        [|by apply shape_row_hm|done|lia].
      rewrite Hrow_free. repeat case_decide; try done; intuition congruence.
    - case_decide; [intuition congruence|done].
  Qed.

Lemma insert_commit_col_used i w :
    idx b i → is_val b w →
    col_used b' i w = if decide (col - 1 = i ∧ val = w) then true else col_used b i w.
  Proof using Hs Hrow Hcol Hval Hcol_free.
    intros Hi Hw. destruct insert_commit_fields as (_ & _ & _ & _ & _ & Hc & _).
    unfold col_used in *. rewrite Hc. unfold idx, is_val in *.
    rewrite get_upd; [|rewrite (shape_cols _ Hs); lia|lia].
    case_decide as Hd.
    - subst i. rewrite (check_flip (b_size b));
        [|by apply shape_col_hm|done|lia].
      rewrite Hcol_free. repeat case_decide; try done; intuition congruence.
    - case_decide; [intuition congruence|done].
  Qed.

Lemma insert_commit_box_used k w :
    idx b k → is_val b w →
    box_used b' k w =
      if decide (box_of b (row - 1) (col - 1) = k ∧ val = w) then true else box_used b k w.
  Proof using Hs Hrow Hcol Hval Hbox_free.
    intros Hi Hw. destruct insert_commit_fields as (_ & _ & _ & _ & _ & _ & Hx).
    pose proof (box_of_idx b Hs _ _ Hrow Hcol) as Hbox.
    unfold box_used in *. rewrite Hx. unfold idx, is_val in *.
    rewrite get_upd; [|rewrite (shape_boxs _ Hs); lia|lia].
    case_decide as Hd.
    - subst k. rewrite (check_flip (b_size b));
        [|by apply shape_box_hm|done|lia].
      rewrite Hbox_free. repeat case_decide; try done; intuition congruence.
    - case_decide; [intuition congruence|done].
  Qed.
End insert_commit_result.

(** ** [board_insert] keeps the invariants *)

Section insert_wf.
  Context (b : board) (row col val : Z).
  Hypothesis Hs : shape b.
  Hypothesis Hinv : core b.
  Hypothesis Hrow : idx b (row - 1).
  Hypothesis Hcol : idx b (col - 1).
  Hypothesis Hval : is_val b val.
  Hypothesis Hempty : cell b (row - 1) (col - 1) = 0.
  Hypothesis Hrow_free : row_used b (row - 1) val = false.
  Hypothesis Hcol_free : col_used b (col - 1) val = false.
  Hypothesis Hbox_free : box_used b (box_of b (row - 1) (col - 1)) val = false.

Let b' : board :=
    insert_commit b row col val (box_finder (row - 1) (col - 1) (board_get_size b)).

Local Lemma size_b' : b_size b' = b_size b.
  Proof using Hs Hinv Hrow Hcol Hval. apply (insert_commit_fields b row col val); done. Qed.

Local Lemma cell_b' i j :
    0 ≤ i → 0 ≤ j →
    cell b' i j = if decide (row - 1 = i ∧ col - 1 = j) then val else cell b i j.
  Proof using Hs Hinv Hrow Hcol Hval. by apply insert_commit_cell. Qed.

Local Lemma box_of_b' i j : box_of b' i j = box_of b i j.
  Proof using Hs Hinv Hrow Hcol Hval. by apply insert_commit_box_of. Qed.

Lemma insert_inv_cells r c : idx b' r → idx b' c → 0 ≤ cell b' r c ≤ b_size b'.
  Proof using Hs Hinv Hrow Hcol Hval.
    unfold idx. rewrite size_b'. intros Hr Hc. rewrite cell_b' by lia.
    case_decide; [unfold is_val in *; lia|]. by apply (inv_cells _ Hinv).
  Qed.

Lemma insert_used_sets : used_sets_exact b'.
  Proof using All.
    destruct (inv_used _ Hinv) as (Hrows & Hcols & Hboxs).
    unfold used_sets_exact, idx, is_val. rewrite !size_b'.
    split; [|split].
    - intros r v Hr Hv. rewrite (insert_commit_row_used b row col val) by done.
      case_decide as Hd.
      + destruct Hd as [<- <-]. split; [|done]. intros _. exists (col - 1).
        split; [done|]. rewrite cell_b' by (unfold idx in *; lia).
        case_decide; [done|tauto].
      + rewrite (Hrows r v Hr Hv). split; intros (c & Hc & Hcell); exists c; (split; [done|]).
        * rewrite cell_b' by (unfold idx in *; lia). case_decide as Hd'; [|done].
          destruct Hd' as [<- <-]. rewrite Hempty in Hcell. lia.
        * rewrite cell_b' in Hcell by (unfold idx in *; lia).
          case_decide as Hd'; [|done]. destruct Hd' as [<- <-]. tauto.
    - intros c v Hc Hv. rewrite (insert_commit_col_used b row col val) by done.
      case_decide as Hd.
      + destruct Hd as [<- <-]. split; [|done]. intros _. exists (row - 1).
        split; [done|]. rewrite cell_b' by (unfold idx in *; lia).
        case_decide; [done|tauto].
      + rewrite (Hcols c v Hc Hv). split; intros (r & Hr & Hcell); exists r; (split; [done|]).
        * rewrite cell_b' by (unfold idx in *; lia). case_decide as Hd'; [|done].
          destruct Hd' as [<- <-]. rewrite Hempty in Hcell. lia.
        * rewrite cell_b' in Hcell by (unfold idx in *; lia).
          case_decide as Hd'; [|done]. destruct Hd' as [<- <-]. tauto.
    - intros k v Hk Hv. rewrite (insert_commit_box_used b row col val) by done.
      setoid_rewrite box_of_b'.
      case_decide as Hd.
      + destruct Hd as [<- <-]. split; [|done]. intros _. exists (row - 1), (col - 1).
        split; [done|]. split; [done|]. split; [done|].
        rewrite cell_b' by (unfold idx in *; lia). case_decide; [done|tauto].
      + rewrite (Hboxs k v Hk Hv).
        split; intros (r & c & Hr & Hc & Hbox & Hcell); exists r, c;
          (split; [done|]; split; [done|]; split; [done|]).
        * rewrite cell_b' by (unfold idx in *; lia). case_decide as Hd'; [|done].
          destruct Hd' as [<- <-]. rewrite Hempty in Hcell. lia.
        * rewrite cell_b' in Hcell by (unfold idx in *; lia).
          case_decide as Hd'; [|done]. destruct Hd' as [<- <-]. tauto.
  Qed.

  (** A cell of [b] that shares a unit with the insertion site does not
      hold [val]. *)
Local Lemma no_clash r c :
    idx b r → idx b c → cell b r c = val →
    ¬ (row - 1 = r ∨ col - 1 = c ∨ box_of b (row - 1) (col - 1) = box_of b r c).
  Proof using All.
    destruct (inv_used _ Hinv) as (Hrows & Hcols & Hboxs).
    intros Hr Hc Hcell [<-|[<-|Hbox]].
    - assert (row_used b (row - 1) val = true) as Hu; [|congruence].
      apply Hrows; [done..|]. by exists c.
    - assert (col_used b (col - 1) val = true) as Hu; [|congruence].
      apply Hcols; [done..|]. by exists r.
    - assert (box_used b (box_of b (row - 1) (col - 1)) val = true) as Hu; [|congruence].
      apply Hboxs; [by apply box_of_idx|done|]. by exists r, c.
  Qed.

Lemma insert_units_distinct : units_distinct b'.
  Proof using All.
    unfold units_distinct, idx.
    setoid_rewrite box_of_b'.
    rewrite !size_b'. intros r c r' c' Hr Hc Hr' Hc' Hne Heq Hunit.
    rewrite (cell_b' r c), (cell_b' r' c') in Heq by lia.
    rewrite (cell_b' r c) in Hne by lia. revert Heq Hne.
    destruct (decide (row - 1 = r ∧ col - 1 = c)) as [[<- <-]|Hd],
             (decide (row - 1 = r' ∧ col - 1 = c')) as [[<- <-]|Hd'];
      intros Heq Hne.
    - done.
    - exfalso. apply (no_clash r' c'); [unfold idx; lia..|done|tauto].
    - exfalso. apply (no_clash r c); [unfold idx; lia..|done|].
      destruct Hunit as [->|[->|Hu]]; auto.
    - by apply (inv_distinct _ Hinv).
  Qed.

Lemma insert_notes_conservative : notes_conservative b → notes_conservative b'.
  Proof using All.
    intros Hnotes.
    unfold notes_conservative, idx, is_val.
    setoid_rewrite box_of_b'.
    rewrite !size_b'. intros r c v Hr Hc Hv Hnote.
    apply (insert_commit_note b row col val) in Hnote; [|done..].
    destruct Hnote as [Hnote Hret].
    destruct (Hnotes r c v Hr Hc Hv Hnote) as (Hcell & Hru & Hcu & Hbu).
    unfold retracted in Hret.
    rewrite cell_b' by lia.
    rewrite (insert_commit_row_used b row col val) by done.
    rewrite (insert_commit_col_used b row col val) by done.
    rewrite (insert_commit_box_used b row col val);
      [|done..|by apply box_of_idx|done].
    repeat case_decide; try done; exfalso; apply Hret; intuition congruence.
  Qed.

Local Lemma count_b' p :
    count_grid p (b_data b') = count_grid p (b_data b) - b2z (p 0) + b2z (p val).
  Proof using Hs Hrow Hcol Hval Hempty.
    destruct (insert_commit_fields b row col val Hs Hrow Hcol Hval) as (_ & Hd & _).
    fold b' in Hd. rewrite Hd.
    rewrite (count_grid_upd2 _ _ (b_size b)); [|apply Hs..|done|done].
    fold (cell b (row - 1) (col - 1)). by rewrite Hempty.
  Qed.

Local Lemma count_b'_bound p : count_grid p (b_data b') ≤ int_max.
  Proof using Hs Hinv Hrow Hcol Hval.
    pose proof (insert_commit_shape b row col val Hs Hrow Hcol Hval) as Hs'.
    fold b' in Hs'.
    pose proof (count_grid_bounds p (b_data b') _ (shape_data_rows _ Hs')) as Hb.
    rewrite (shape_data _ Hs') in Hb.
    pose proof (shape_int _ Hs'). pose proof (shape_pos _ Hs'). lia.
  Qed.

Lemma insert_counters_exact : counters_exact b'.
  Proof using All.
    destruct (inv_count _ Hinv) as [Happ Htot].
    destruct (insert_commit_fields b row col val Hs Hrow Hcol Hval)
      as (_ & _ & Ha & Ht & _).
    fold b' in Ha, Ht.
    unfold counters_exact, is_val. rewrite size_b'. split.
    - intros v Hv. rewrite Ha. rewrite count_b'. unfold is_val in *.
      rewrite get_upd; [|rewrite (shape_appearances _ Hs); lia|lia].
      pose proof (count_b'_bound (λ x, x =? v)) as Hb. rewrite count_b' in Hb.
      pose proof (count_grid_bounds (λ x, x =? v) (b_data b) _ (shape_data_rows _ Hs)).
      replace (0 =? v) with false in * by (symmetry; apply Z.eqb_neq; lia).
      case_decide as Hd.
      + replace v with val in * by lia. rewrite Z.eqb_refl in *. simpl in *.
        rewrite Happ by done. rewrite incr_id; unfold int_min; lia.
      + replace (val =? v) with false by (symmetry; apply Z.eqb_neq; lia).
        rewrite Happ by done. simpl. lia.
    - rewrite Ht, count_b'. simpl.
      pose proof (count_b'_bound (λ x, negb (x =? 0))) as Hb. rewrite count_b' in Hb.
      pose proof (count_grid_bounds (λ x, negb (x =? 0)) (b_data b) _
                    (shape_data_rows _ Hs)).
      replace (val =? 0) with false in * by (symmetry; apply Z.eqb_neq; unfold is_val in *; lia).
      simpl in *. rewrite Htot. rewrite incr_id; unfold int_min; lia.
  Qed.

Lemma insert_commit_core : core b'.
  Proof using All.
    constructor.
    - apply insert_inv_cells.
    - apply insert_used_sets.
    - apply insert_units_distinct.
    - apply insert_counters_exact.
  Qed.
End insert_wf.

Lemma insert_commit_wf b row col val :
  wf b → idx b (row - 1) → idx b (col - 1) → is_val b val →
  cell b (row - 1) (col - 1) = 0 →
  row_used b (row - 1) val = false → col_used b (col - 1) val = false →
  box_used b (box_of b (row - 1) (col - 1)) val = false →
  wf (insert_commit b row col val
        (box_finder (row - 1) (col - 1) (board_get_size b))).
Proof.
  intros (Hs & Hcore & Hnotes) ???????.
  split; [by apply insert_commit_shape|]. split.
  - by apply insert_commit_core.
  - by apply insert_notes_conservative.
Qed.

(** ** The three outcomes of [board_insert] *)

Lemma board_insert_cases b row col val st b' :
  board_insert b row col val = Some (st, b') →
  idx b (row - 1) ∧ idx b (col - 1) ∧ is_val b val ∧
  ((st = ALREADY_FILLED ∧ cell b (row - 1) (col - 1) ≠ 0 ∧ b' = b) ∨
   (st = CONFLICT ∧ cell b (row - 1) (col - 1) = 0 ∧
    (row_used b (row - 1) val = true ∨ col_used b (col - 1) val = true ∨
     box_used b (box_of b (row - 1) (col - 1)) val = true) ∧ b' = b) ∨
   (st = INSERT_OK ∧ cell b (row - 1) (col - 1) = 0 ∧
    row_used b (row - 1) val = false ∧ col_used b (col - 1) val = false ∧
    box_used b (box_of b (row - 1) (col - 1)) val = false ∧
    b' = insert_commit b row col val
           (box_finder (row - 1) (col - 1) (board_get_size b)))).
Proof.
  unfold board_insert, row_used, col_used, box_used, box_of, cell, board_get_size.
  destruct (insert_args_ok b row col val) eqn:Hargs; simpl; [|done].
  apply insert_args_ok_spec in Hargs. destruct Hargs as (Hr & Hc & Hv).
  destruct (Z.eqb_spec (get2 (b_data b) (row - 1) (col - 1)) 0) as [Hz|Hz]; simpl.
  - destruct (heatmap_check (get (b_rows b) (row - 1)) val) eqn:Hru.
    { intros [= <- <-]. do 3 (split; [done|]). right. left. tauto. }
    destruct (heatmap_check (get (b_cols b) (col - 1)) val) eqn:Hcu.
    { intros [= <- <-]. do 3 (split; [done|]). right. left. tauto. }
    destruct (heatmap_check (get (b_boxs b) _) val) eqn:Hbu.
    { intros [= <- <-]. do 3 (split; [done|]). right. left. tauto. }
    intros [= <- <-]. do 3 (split; [done|]). right. right. tauto.
  - intros [= <- <-]. do 3 (split; [done|]). left. tauto.
Qed.

Lemma board_insert_None b row col val :
  board_insert b row col val = None ↔
  ¬ (idx b (row - 1) ∧ idx b (col - 1) ∧ is_val b val).
Proof.
  rewrite <- insert_args_ok_spec. unfold board_insert.
  destruct (insert_args_ok b row col val); simpl.
  - split; [|done]. repeat case_match; done.
  - split; [done|]. done.
Qed.

(** A failed insertion leaves the board as it is. *)
Lemma board_insert_failed b row col val st b' :
  board_insert b row col val = Some (st, b') → st ≠ INSERT_OK → b' = b.
Proof.
  intros Hins Hst. apply board_insert_cases in Hins.
  destruct Hins as (_ & _ & _ & [(_ & _ & ->)|[(_ & _ & _ & ->)|(-> & _)]]); done.
Qed.

Lemma board_insert_status b row col val st b' :
  board_insert b row col val = Some (st, b') →
  st = INSERT_OK ∨ st = ALREADY_FILLED ∨ st = CONFLICT.
Proof.
  intros Hins. apply board_insert_cases in Hins.
  destruct Hins as (_ & _ & _ & [(-> & _)|[(-> & _)|(-> & _)]]); auto.
Qed.

Lemma board_insert_wf b row col val st b' :
  wf b → board_insert b row col val = Some (st, b') → wf b'.
Proof.
  intros Hwf Hins. apply board_insert_cases in Hins.
  destruct Hins as (Hr & Hc & Hv &
    [(_ & _ & ->)|[(_ & _ & _ & ->)|(_ & Hz & Hru & Hcu & Hbu & ->)]]); [done..|].
  by apply insert_commit_wf.
Qed.

Lemma board_insert_size b row col val st b' :
  shape b → board_insert b row col val = Some (st, b') → b_size b' = b_size b.
Proof.
  intros Hs Hins. apply board_insert_cases in Hins.
  destruct Hins as (Hr & Hc & Hv &
    [(_ & _ & ->)|[(_ & _ & _ & ->)|(_ & Hz & Hru & Hcu & Hbu & ->)]]); [done..|].
  by apply insert_commit_fields.
Qed.

Lemma board_insert_shape b row col val st b' :
  shape b → board_insert b row col val = Some (st, b') → shape b'.
Proof.
  intros Hs Hins. apply board_insert_cases in Hins.
  destruct Hins as (Hr & Hc & Hv &
    [(_ & _ & ->)|[(_ & _ & _ & ->)|(_ & Hz & Hru & Hcu & Hbu & ->)]]); [done..|].
  by apply insert_commit_shape.
Qed.

(** Insertion only turns notes off. *)
Lemma board_insert_notes_le b row col val st b' :
  shape b → board_insert b row col val = Some (st, b') → notes_le b' b.
Proof.
  intros Hs Hins. apply board_insert_cases in Hins.
  destruct Hins as (Hr & Hc & Hv &
    [(_ & _ & ->)|[(_ & _ & _ & ->)|(_ & Hz & Hru & Hcu & Hbu & ->)]]);
    [by intros ???????..|].
  intros r c v Hi Hj Hw Hn. by apply (insert_commit_note b row col val) in Hn as [? _].
Qed.

(** ** Invariants 1 and 2 follow from well-formedness *)

Lemma wf_cell_val b r c :
  wf b → idx b r → idx b c → cell b r c ≠ 0 → is_val b (cell b r c).
Proof.
  intros (_ & Hinv & _) Hr Hc Hne. pose proof (inv_cells _ Hinv r c Hr Hc).
  unfold is_val. lia.
Qed.

Lemma wf_invariant1 b : wf b → invariant1 b.
Proof.
  intros Hwf r c Hr Hc Hne. pose proof Hwf as (Hs & Hinv & Hcons).
  pose proof (wf_cell_val b r c Hwf Hr Hc Hne) as Hv.
  destruct (inv_used _ Hinv) as (Hrows & Hcols & Hboxs).
  assert (∀ v, is_val b v → note b r c v = false) as Hnotes.
  { intros v Hv'. destruct (note b r c v) eqn:Hn; [|done].
    by destruct (Hcons r c v Hr Hc Hv' Hn) as [? _]. }
  split; [|split; [|split; [|split]]].
  - apply Hrows; [done..|]. by exists c.
  - apply Hcols; [done..|]. by exists r.
  - apply Hboxs; [by apply box_of_idx|done|]. by exists r, c.
  - apply (hm_count_zero (b_size b)); [by apply shape_note_hm|]. apply Hnotes.
  - done.
Qed.

Lemma sumZ_cons f x l : sumZ f (x :: l) = f x + sumZ f l.
Proof. done. Qed.

Lemma sumZ_add f g l : sumZ (λ v, f v + g v) l = sumZ f l + sumZ g l.
Proof. induction l as [|x l IH]; [done|]. rewrite !sumZ_cons, IH. lia. Qed.

Lemma sumZ_zero l : sumZ (λ _, 0) l = 0.
Proof. induction l as [|x l IH]; [done|]. by rewrite sumZ_cons, IH. Qed.

Lemma sumZ_indicator x l :
  NoDup l → sumZ (λ v, b2z (x =? v)) l = b2z (bool_decide (x ∈ l)).
Proof.
  induction 1 as [|y l Hy Hnd IH]; [done|].
  rewrite sumZ_cons, IH. destruct (Z.eqb_spec x y) as [->|Hne]; simpl.
  - rewrite (bool_decide_eq_true_2 (y ∈ y :: l)) by left.
    rewrite (bool_decide_eq_false_2 (y ∈ l)) by done. done.
  - destruct (decide (x ∈ l)).
    + rewrite (bool_decide_eq_true_2 (x ∈ l)) by done.
      rewrite (bool_decide_eq_true_2 (x ∈ y :: l)) by (by right). done.
    + rewrite (bool_decide_eq_false_2 (x ∈ l)) by done.
      rewrite (bool_decide_eq_false_2 (x ∈ y :: l)); [done|].
      rewrite elem_of_cons. tauto.
Qed.

Lemma countb_sum n (l : list Z) :
  Forall (λ x, 0 ≤ x ≤ n) l →
  countb (λ x, negb (x =? 0)) l = sumZ (λ v, countb (λ x, x =? v) l) (seqZ 1 n).
Proof.
  induction 1 as [|x l Hx _ IH]; simpl.
  - by rewrite sumZ_zero.
  - rewrite sumZ_add, <- IH. f_equal.
    rewrite sumZ_indicator by apply NoDup_seqZ.
    destruct (Z.eqb_spec x 0) as [->|Hne]; simpl.
    + rewrite bool_decide_eq_false_2; [done|]. rewrite elem_of_seqZ. lia.
    + rewrite bool_decide_eq_true_2; [done|]. rewrite elem_of_seqZ. lia.
Qed.

Lemma count_grid_sum n (m : list (list Z)) :
  Forall (Forall (λ x, 0 ≤ x ≤ n)) m →
  count_grid (λ x, negb (x =? 0)) m =
    sumZ (λ v, count_grid (λ x, x =? v) m) (seqZ 1 n).
Proof.
  induction 1 as [|r m Hr _ IH]; simpl.
  - by rewrite sumZ_zero.
  - by rewrite sumZ_add, <- IH, <- countb_sum.
Qed.

Lemma sumZ_ext f g l : (∀ x, x ∈ l → f x = g x) → sumZ f l = sumZ g l.
Proof.
  induction l as [|x l IH]; intros Hfg; [done|].
  rewrite !sumZ_cons, IH, (Hfg x) by (try left; intros; apply Hfg; by right). done.
Qed.

Lemma wf_cells_range b :
  wf b → Forall (Forall (λ x, 0 ≤ x ≤ b_size b)) (b_data b).
Proof.
  intros (Hs & Hinv & _). apply Forall_of_get. intros i Hi.
  rewrite (shape_data _ Hs) in Hi.
  assert (idx b i) as Hidx by (unfold idx; lia).
  apply Forall_of_get. intros j Hj. rewrite (shape_data_row b Hs i Hidx) in Hj.
  apply (inv_cells _ Hinv); unfold idx; lia.
Qed.

Lemma wf_invariant2 b : wf b → invariant2 b.
Proof.
  intros Hwf. pose proof Hwf as (Hs & Hinv & _).
  destruct (inv_count _ Hinv) as [Happ Htot]. split; [done|].
  rewrite Htot, (count_grid_sum (b_size b)) by by apply wf_cells_range.
  apply sumZ_ext. intros v Hv%elem_of_seqZ. symmetry. apply Happ. unfold is_val. lia.
Qed.

Lemma board_insert_core b row col val st b' :
  shape b → core b → board_insert b row col val = Some (st, b') → core b'.
Proof.
  intros Hs Hcore Hins. apply board_insert_cases in Hins.
  destruct Hins as (Hr & Hc & Hv &
    [(_ & _ & ->)|[(_ & _ & _ & ->)|(_ & Hz & Hru & Hcu & Hbu & ->)]]); [done..|].
  by apply insert_commit_core.
Qed.

(** ** Changing notes only *)

(** The invariants of the grid do not look at the notes. *)
Lemma core_erase b b' : erase_notes b' = erase_notes b → core b → core b'.
Proof.
  intros (Hsz & Hd & Ha & Ht & Hr & Hc & Hx)%erase_notes_eq [Hcells Hused Hdist Hcount].
  constructor.
  - unfold idx, cell in *. rewrite Hsz, Hd. done.
  - unfold used_sets_exact, idx, is_val, row_used, col_used, box_used, box_of, cell in *.
    rewrite Hsz, Hd, Hr, Hc, Hx. done.
  - unfold units_distinct, idx, box_of, cell in *. rewrite Hsz, Hd. done.
  - unfold counters_exact, is_val in *. rewrite Hsz, Hd, Ha, Ht. done.
Qed.

Lemma wf_change_notes b b' :
  wf b → erase_notes b' = erase_notes b → shape b' →
  (∀ r c v, idx b r → idx b c → is_val b v → note b' r c v = true →
     note b r c v = true ∨
     (cell b r c = 0 ∧ row_used b r v = false ∧ col_used b c v = false ∧
      box_used b (box_of b r c) v = false)) →
  wf b'.
Proof.
  intros (Hs & Hcore & Hnotes) Her Hs' Hn.
  split; [done|]. split; [by apply (core_erase b)|].
  apply erase_notes_eq in Her. destruct Her as (Hsz & Hd & Ha & Ht & Hr & Hc & Hx).
  unfold notes_conservative, idx, is_val, row_used, col_used, box_used, box_of, cell.
  rewrite Hsz, Hd, Hr, Hc, Hx. intros r c v Hr' Hc' Hv Hnote.
  destruct (Hn r c v Hr' Hc' Hv Hnote) as [Hold|Hnew]; [|done].
  by apply Hnotes.
Qed.

Lemma note_off_wf b i j v :
  wf b → idx b i → idx b j → is_val b v → wf (note_off b i j v).
Proof.
  intros Hwf Hi Hj Hv. apply (wf_change_notes b); [done|done| |].
  - apply shape_note_off; [apply Hwf|done].
  - intros r c w Hr Hc Hw Hn. left.
    apply note_note_off in Hn; [tauto|apply Hwf|unfold idx, is_val in *; lia..].
Qed.

Lemma note_off_notes_le b i j v :
  shape b → idx b i → idx b j → is_val b v → notes_le (note_off b i j v) b.
Proof.
  intros Hs Hi Hj Hv r c w Hr Hc Hw Hn.
  apply note_note_off in Hn; [tauto|done|unfold idx, is_val in *; lia..].
Qed.

(** ** [board_make_notes] *)

Lemma board_make_notes_spec b :
  shape b →
  erase_notes (board_make_notes b) = erase_notes b ∧
  shape (board_make_notes b) ∧
  ∀ r c v, idx b r → idx b c → is_val b v →
    note (board_make_notes b) r c v = true →
    note b r c v = true ∨
    (cell b r c = 0 ∧ row_used b r v = false ∧ col_used b c v = false ∧
     box_used b (box_of b r c) v = false).
Proof.
  intros Hs. unfold board_make_notes, board_get_size.
  set (P := λ b' : board,
    erase_notes b' = erase_notes b ∧ shape b' ∧
    ∀ r c v, idx b r → idx b c → is_val b v → note b' r c v = true →
      note b r c v = true ∨
      (cell b r c = 0 ∧ row_used b r v = false ∧ col_used b c v = false ∧
       box_used b (box_of b r c) v = false)).
  change (P (for_each 0 (b_size b)
    (λ i b0, for_each 0 (b_size b)
       (λ j b1, for_each 1 (b_size b + 1)
          (λ val b2,
             if (get2 (b_data b2) i j =? 0) &&
                negb (heatmap_check (get (b_rows b2) i) val) &&
                negb (heatmap_check (get (b_cols b2) j) val) &&
                negb (heatmap_check (get (b_boxs b2) (box_finder i j (b_size b))) val)
             then note_on b2 i j val else b2) b1) b0) b)).
  apply for_each_pres; [unfold P; auto|]. intros i b0 Hi Hb0.
  apply for_each_pres; [done|]. intros j b1 Hj Hb1.
  apply for_each_pres; [done|]. intros val b2 Hval (Her & Hs2 & Hn).
  destruct (_ && _) eqn:Hcond; [|done].
  rewrite !andb_true_iff, !negb_true_iff, Z.eqb_eq in Hcond.
  destruct Hcond as (((Hcell & Hru) & Hcu) & Hbu).
  pose proof (erase_notes_eq _ _ Her) as (Hsz & Hd & _ & _ & Hr & Hc & Hx).
  rewrite Hd in Hcell. rewrite Hr in Hru. rewrite Hc in Hcu. rewrite Hx in Hbu.
  split; [by rewrite erase_note_on|].
  split; [apply shape_note_on; [done|unfold is_val; rewrite Hsz; lia]|].
  intros r c v Hr' Hc' Hv Hnote.
  apply note_note_on in Hnote;
    [|done|unfold idx, is_val in *; rewrite ?Hsz; lia..].
  destruct Hnote as [Hold|(<- & <- & <-)]; [by apply Hn|]. right. done.
Qed.

Lemma board_make_notes_wf b : wf b → wf (board_make_notes b).
Proof.
  intros Hwf. destruct (board_make_notes_spec b (proj1 Hwf)) as (Her & Hs & Hn).
  by apply (wf_change_notes b).
Qed.

Lemma board_make_notes_size b : shape b → b_size (board_make_notes b) = b_size b.
Proof.
  intros Hs. destruct (board_make_notes_spec b Hs) as (Her & _).
  apply erase_notes_eq in Her. apply Her.
Qed.

(** ** [board_create] *)

Lemma get_replicate {A : Type} `{!Inhabited A} (n : nat) (x : A) (i : Z) :
  0 ≤ i < Z.of_nat n → get (replicate n x) i = x.
Proof. intros Hi. unfold get. apply lookup_total_replicate_2. lia. Qed.

Lemma countb_replicate {A : Type} (p : A → bool) (n : nat) (x : A) :
  countb p (replicate n x) = Z.of_nat n * b2z (p x).
Proof. induction n as [|n IH]; simpl; [done|]. rewrite IH. lia. Qed.

Lemma count_grid_replicate p (n : nat) (r : list Z) :
  count_grid p (replicate n r) = Z.of_nat n * countb p r.
Proof. induction n as [|n IH]; simpl; [lia|]. rewrite IH. lia. Qed.

Lemma board_create_spec size b :
  board_create size = Some b →
  0 < size ∧ isqrt size * isqrt size = size ∧ b_size b = size ∧
  b_total_appearances b = 0 ∧
  (∀ r c, idx b r → idx b c → cell b r c = 0) ∧
  (∀ i v, idx b i → is_val b v →
     row_used b i v = false ∧ col_used b i v = false ∧ box_used b i v = false) ∧
  (∀ r c v, idx b r → idx b c → is_val b v → note b r c v = false) ∧
  (∀ i, idx b i → get (b_appearances b) i = 0).
Proof.
  unfold board_create.
  destruct (Z.ltb_spec 0 size) as [Hpos|]; simpl; [|done].
  destruct (Z.eqb_spec (isqrt size * isqrt size) size) as [Hroot|]; simpl; [|done].
  intros [= <-]. unfold idx, is_val, cell, row_used, col_used, box_used, note, get2.
  simpl. do 4 (split; [done|]).
  split; [|split; [|split]].
  - intros r c Hr Hc. rewrite !get_replicate by lia. done.
  - intros i v Hi Hv. rewrite !get_replicate by lia. by rewrite check_create.
  - intros r c v Hr Hc Hv. rewrite !get_replicate by lia. by rewrite check_create.
  - intros i Hi. by rewrite get_replicate by lia.
Qed.

Lemma board_create_shape size b :
  board_create size = Some b → size * size ≤ int_max → shape b.
Proof.
  intros Hb Hint. pose proof (board_create_spec _ _ Hb) as (Hpos & Hroot & _).
  unfold board_create in Hb.
  destruct (Z.ltb_spec 0 size); simpl in Hb; [|done].
  destruct (Z.eqb_spec (isqrt size * isqrt size) size); simpl in Hb; [|done].
  injection Hb as <-.
  assert (hm_ok size (heatmap_create size)) as Hhm.
  { apply hm_ok_create. nia. }
  constructor; simpl; rewrite ?length_replicate; try done.
  - apply Forall_replicate. by rewrite length_replicate.
  - by apply Forall_replicate.
  - by apply Forall_replicate.
  - by apply Forall_replicate.
  - apply Forall_replicate. rewrite length_replicate. split; [done|].
    by apply Forall_replicate.
Qed.


(** ** Loops that always fall through *)

Lemma for_range_next {St : Type} (P : Z → St → Prop) lo hi
    (body : Z → St → res (bool * St)) s :
  lo ≤ hi → P lo s →
  (∀ i s, lo ≤ i < hi → P i s →
     res_next (λ bs, bs.1 = false ∧ P (i + 1) bs.2) (body i s)) →
  res_next (P hi) (for_range lo hi body s).
Proof.
  intros Hle H0 Hstep. unfold for_range.
  remember (Z.to_nat (hi - lo)) as k eqn:Hk.
  revert lo s Hle H0 Hstep Hk. induction k as [|k IH]; intros lo s Hle H0 Hstep Hk.
  - rewrite seqZ_nil by lia. simpl. by replace hi with lo by lia.
  - rewrite seqZ_cons by lia. simpl.
    pose proof (Hstep lo s ltac:(lia) H0) as Hb.
    destruct (body lo s) as [[[] s']| |]; simpl in Hb; try done; [by destruct Hb|].
    destruct Hb as [_ Hb].
    replace (Z.pred (hi - lo)) with (hi - Z.succ lo) by lia.
    apply IH; [lia| |intros; apply Hstep; [lia|done] |lia].
    by replace (Z.succ lo) with (lo + 1) by lia.
Qed.

(** ** Setters and shape *)

Lemma shape_set_total b t : shape b → shape (set_total_appearances b t).
Proof. intros []. constructor; done. Qed.

Lemma shape_set_rows b f i :
  shape b → (∀ h, hm_ok (b_size b) h → hm_ok (b_size b) (f h)) →
  shape (set_rows b (upd (b_rows b) i f)).
Proof.
  intros [] Hf. constructor; simpl; rewrite ?length_upd; try done. by apply Forall_upd.
Qed.

Lemma shape_set_cols b f i :
  shape b → (∀ h, hm_ok (b_size b) h → hm_ok (b_size b) (f h)) →
  shape (set_cols b (upd (b_cols b) i f)).
Proof.
  intros [] Hf. constructor; simpl; rewrite ?length_upd; try done. by apply Forall_upd.
Qed.

Lemma shape_set_boxs b f i :
  shape b → (∀ h, hm_ok (b_size b) h → hm_ok (b_size b) (f h)) →
  shape (set_boxs b (upd (b_boxs b) i f)).
Proof.
  intros [] Hf. constructor; simpl; rewrite ?length_upd; try done. by apply Forall_upd.
Qed.

Lemma shape_set_appearances b f i :
  shape b → shape (set_appearances b (upd (b_appearances b) i f)).
Proof. intros []. constructor; simpl; rewrite ?length_upd; done. Qed.

Lemma shape_set_data b f i j :
  shape b → shape (set_data b (upd2 (b_data b) i j f)).
Proof.
  intros []. constructor; simpl; rewrite ?length_upd2; try done.
  apply Forall_rows_upd2; [done|]. intros r Hr. by rewrite length_upd.
Qed.

(** ** Boards without placed values *)

Lemma empty_core b :
  shape b →
  (∀ r c, idx b r → idx b c → cell b r c = 0) →
  (∀ i v, idx b i → is_val b v →
     row_used b i v = false ∧ col_used b i v = false ∧ box_used b i v = false) →
  (∀ i, idx b i → get (b_appearances b) i = 0) →
  b_total_appearances b = 0 →
  core b.
Proof.
  intros Hs Hcell Hused Happ Htot. constructor.
  - intros r c Hr Hc. rewrite Hcell by done. pose proof (shape_pos _ Hs). lia.
  - split; [|split].
    + intros r v Hr Hv. destruct (Hused r v Hr Hv) as (-> & _ & _).
      split; [done|]. intros (c & Hc & Hcv). rewrite Hcell in Hcv by done.
      unfold is_val in *. lia.
    + intros c v Hc Hv. destruct (Hused c v Hc Hv) as (_ & -> & _).
      split; [done|]. intros (r & Hr & Hcv). rewrite Hcell in Hcv by done.
      unfold is_val in *. lia.
    + intros k v Hk Hv. destruct (Hused k v Hk Hv) as (_ & _ & ->).
      split; [done|]. intros (r & c & Hr & Hc & _ & Hcv). rewrite Hcell in Hcv by done.
      unfold is_val in *. lia.
  - intros r c r' c' Hr Hc _ _ Hne. by rewrite Hcell in Hne.
  - assert (∀ p, p 0 = false → count_grid p (b_data b) = 0) as Hcount.
    { intros p Hp. apply count_grid_zero. apply Forall_of_get. intros i Hi.
      rewrite (shape_data _ Hs) in Hi.
      assert (idx b i) as Hidx by (unfold idx; lia).
      apply Forall_of_get. intros j Hj. rewrite (shape_data_row b Hs i Hidx) in Hj.
      fold (get2 (b_data b) i j). fold (cell b i j).
      rewrite Hcell; [done|done|unfold idx; lia]. }
    split.
    + intros v Hv. rewrite Happ by (unfold idx, is_val in *; lia).
      symmetry. apply Hcount. apply Z.eqb_neq. unfold is_val in *. lia.
    + rewrite Htot. symmetry. by apply Hcount.
Qed.

(** ** Two boards with the same cells and notes are the same board *)

Lemma board_ext b b' :
  shape b → shape b' → core b → core b' → b_size b = b_size b' →
  (∀ r c, idx b r → idx b c → cell b r c = cell b' r c) →
  (∀ r c v, idx b r → idx b c → is_val b v → note b r c v = note b' r c v) →
  b = b'.
Proof.
  intros Hs Hs' Hc Hc' Hsz Hcell Hnote.
  assert (b_data b = b_data b') as Hdata.
  { apply (list_ext_get _ _ (b_size b)); [apply Hs|rewrite Hsz; apply Hs'|].
    intros i Hi. apply (list_ext_get _ _ (b_size b)).
    - by apply shape_data_row.
    - rewrite Hsz. apply shape_data_row; [done|]. unfold idx. by rewrite <- Hsz.
    - intros j Hj. by apply Hcell. }
  destruct (inv_used _ Hc) as (Hr1 & Hc1 & Hx1).
  destruct (inv_used _ Hc') as (Hr2 & Hc2 & Hx2).
  unfold idx, is_val, cell, box_of in *. rewrite <- Hsz, <- Hdata in *.
  assert (∀ x y : bool, (x = true ↔ y = true) → x = y) as Hbool.
  { intros [] []; intuition congruence. }
  assert (b_rows b = b_rows b') as Hrows.
  { apply (list_ext_get _ _ (b_size b)); [apply Hs|rewrite Hsz; apply Hs'|].
    intros i Hi. apply (hm_ext (b_size b)).
    - by apply shape_row_hm.
    - rewrite Hsz. apply shape_row_hm; [done|]. unfold idx. by rewrite <- Hsz.
    - intros v Hv. apply Hbool. fold (row_used b i v) (row_used b' i v).
      rewrite Hr1, Hr2 by done. done. }
  assert (b_cols b = b_cols b') as Hcols.
  { apply (list_ext_get _ _ (b_size b)); [apply Hs|rewrite Hsz; apply Hs'|].
    intros i Hi. apply (hm_ext (b_size b)).
    - by apply shape_col_hm.
    - rewrite Hsz. apply shape_col_hm; [done|]. unfold idx. by rewrite <- Hsz.
    - intros v Hv. apply Hbool. fold (col_used b i v) (col_used b' i v).
      rewrite Hc1, Hc2 by done. done. }
  assert (b_boxs b = b_boxs b') as Hboxs.
  { apply (list_ext_get _ _ (b_size b)); [apply Hs|rewrite Hsz; apply Hs'|].
    intros i Hi. apply (hm_ext (b_size b)).
    - by apply shape_box_hm.
    - rewrite Hsz. apply shape_box_hm; [done|]. unfold idx. by rewrite <- Hsz.
    - intros v Hv. apply Hbool. fold (box_used b i v) (box_used b' i v).
      rewrite Hx1, Hx2 by done. done. }
  destruct (inv_count _ Hc) as [Ha1 Ht1]. destruct (inv_count _ Hc') as [Ha2 Ht2].
  unfold is_val in *. rewrite <- Hsz, <- Hdata in *.
  assert (b_appearances b = b_appearances b') as Happ.
  { apply (list_ext_get _ _ (b_size b)); [apply Hs|rewrite Hsz; apply Hs'|].
    intros i Hi. specialize (Ha1 (i + 1) ltac:(lia)). specialize (Ha2 (i + 1) ltac:(lia)).
    replace (i + 1 - 1) with i in * by lia. congruence. }
  assert (b_notes b = b_notes b') as Hnotes.
  { apply (list_ext_get _ _ (b_size b)); [apply Hs|rewrite Hsz; apply Hs'|].
    intros i Hi. apply (list_ext_get _ _ (b_size b)).
    - by apply shape_notes_row.
    - rewrite Hsz. apply shape_notes_row; [done|]. unfold idx. by rewrite <- Hsz.
    - intros j Hj. apply (hm_ext (b_size b)).
      + by apply shape_note_hm.
      + rewrite Hsz. apply shape_note_hm; [done|unfold idx; by rewrite <- Hsz..].
      + intros v Hv. by apply Hnote. }
  destruct b, b'. simpl in *. congruence.
Qed.

Lemma board_create_wf size b :
  board_create size = Some b → size * size ≤ int_max → wf b.
Proof.
  intros Hb Hint. pose proof (board_create_shape _ _ Hb Hint) as Hs.
  pose proof (board_create_spec _ _ Hb)
    as (Hpos & Hroot & Hsz & Htot & Hcell & Hused & Hnote & Happ).
  split; [done|]. split; [by apply empty_core|].
  intros r c v Hr Hc Hv Hn. by rewrite Hnote in Hn.
Qed.

(** ** [board_copy], first half *)

Lemma copy_empty_hm n h :
  hm_ok n h →
  hm_ok n (heatmap_copy h (heatmap_create n)) ∧
  ∀ v, 1 ≤ v ≤ n → heatmap_check (heatmap_copy h (heatmap_create n)) v = false.
Proof.
  intros Hh. assert (0 ≤ n) as Hn by apply Hh.
  destruct (heatmap_copy_spec n h (heatmap_create n) Hh) as [Hok Hchk].
  { simpl. by rewrite length_replicate. }
  split; [done|]. intros v Hv. rewrite Hchk by done. by apply check_create.
Qed.

Lemma copy_clear_spec dest :
  shape dest →
  let d := copy_clear dest (b_size dest) in
  shape d ∧ b_size d = b_size dest ∧ b_notes d = b_notes dest ∧
  b_total_appearances d = 0 ∧
  (∀ r c, idx dest r → idx dest c → cell d r c = 0) ∧
  (∀ i v, idx dest i → is_val dest v →
     row_used d i v = false ∧ col_used d i v = false ∧ box_used d i v = false) ∧
  (∀ i, idx dest i → get (b_appearances d) i = 0).
Proof.
  intros Hs. set (n := b_size dest). pose proof (shape_pos _ Hs) as Hpos. fold n in Hpos.
  pose (P := λ (k : Z) (d : board),
    shape d ∧ b_size d = n ∧ b_notes d = b_notes dest ∧ b_total_appearances d = 0 ∧
    (∀ r c, 0 ≤ r < k → 0 ≤ c < n → cell d r c = 0) ∧
    (∀ i v, 0 ≤ i < k → 1 ≤ v ≤ n →
       row_used d i v = false ∧ col_used d i v = false ∧ box_used d i v = false) ∧
    (∀ i, 0 ≤ i < k → get (b_appearances d) i = 0)).
  assert (P n (copy_clear dest n)) as HP; [|apply HP].
  unfold copy_clear. apply for_each_ind; [lia| |].
  { unfold P. split; [by apply shape_set_total|]. do 3 (split; [done|]).
    split; [|split]; intros; lia. }
  intros k d Hk (Hsd & Hsz & Hnotes & Htot & Hcell & Hused & Happ).
  (* the four stores of iteration [k] *)
  set (d1 := set_rows d (upd (b_rows d) k (λ h, heatmap_copy h (heatmap_create n)))).
  set (d2 := set_cols d1 (upd (b_cols d1) k (λ h, heatmap_copy h (heatmap_create n)))).
  set (d3 := set_boxs d2 (upd (b_boxs d2) k (λ h, heatmap_copy h (heatmap_create n)))).
  set (d4 := set_appearances d3 (upd (b_appearances d3) k (λ _, 0))).
  assert (∀ h, hm_ok (b_size d) h → hm_ok (b_size d) (heatmap_copy h (heatmap_create n)))
    as Hcopy.
  { rewrite Hsz. intros h Hh. by apply copy_empty_hm. }
  assert (shape d4) as Hs4.
  { apply shape_set_appearances. apply shape_set_boxs; [|done].
    apply shape_set_cols; [|done]. by apply shape_set_rows. }
  assert (∀ i v, 0 ≤ i < k + 1 → 1 ≤ v ≤ n →
            row_used d4 i v = false ∧ col_used d4 i v = false ∧ box_used d4 i v = false)
    as Hused4.
  { intros i v Hi Hv. unfold row_used, col_used, box_used. simpl.
    rewrite !get_upd;
      [|rewrite ?(shape_rows _ Hsd), ?(shape_cols _ Hsd), ?(shape_boxs _ Hsd), ?Hsz; lia..].
    case_decide as Hd.
    - subst i. repeat split; apply copy_empty_hm; try done; rewrite <- Hsz.
      + apply shape_row_hm; [done|unfold idx; lia].
      + apply shape_col_hm; [done|unfold idx; lia].
      + apply shape_box_hm; [done|unfold idx; lia].
    - apply Hused; lia. }
  assert (∀ i, 0 ≤ i < k + 1 → get (b_appearances d4) i = 0) as Happ4.
  { intros i Hi. simpl. rewrite get_upd; [|rewrite (shape_appearances _ Hsd), Hsz; lia|lia].
    case_decide; [done|]. apply Happ. lia. }
  (* the loop over the cells of row [k] *)
  pose (Q := λ (m : Z) (d' : board),
    shape d' ∧ b_size d' = n ∧ b_notes d' = b_notes dest ∧ b_total_appearances d' = 0 ∧
    b_rows d' = b_rows d4 ∧ b_cols d' = b_cols d4 ∧ b_boxs d' = b_boxs d4 ∧
    b_appearances d' = b_appearances d4 ∧
    ∀ r c, 0 ≤ r → 0 ≤ c →
      cell d' r c = if decide (r = k ∧ c < m) then 0 else cell d r c).
  assert (Q n (for_each 0 n (λ j d', set_data d' (upd2 (b_data d') k j (λ _, 0))) d4))
    as (Hs5 & Hsz5 & Hn5 & Ht5 & Hr5 & Hc5 & Hx5 & Ha5 & Hcell5).
  { apply for_each_ind; [lia| |].
    - unfold Q. do 8 (split; [done|]). intros r c Hr Hc.
      case_decide; [lia|done].
    - intros m d' Hm (Hs' & Hsz' & Hn' & Ht' & Hr' & Hc' & Hx' & Ha' & Hcell').
      unfold Q. split; [by apply shape_set_data|]. do 7 (split; [done|]).
      intros r c Hr Hc. unfold cell in *. simpl.
      rewrite (get2_upd2 _ _ _ _ _ _ n);
        [|rewrite <- Hsz'; apply Hs'..|lia|lia|lia|lia].
      rewrite Hcell' by done. repeat case_decide; try done; lia. }
  unfold P. do 4 (split; [done|]). split; [|split].
  - intros r c Hr Hc. rewrite Hcell5 by lia. case_decide; [done|]. apply Hcell; lia.
  - intros i v Hi Hv. unfold row_used, col_used, box_used. rewrite Hr5, Hc5, Hx5.
    by apply Hused4.
  - intros i Hi. rewrite Ha5. by apply Happ4.
Qed.

(** ** [board_copy], second half *)

Lemma board_insert_ok b row col val :
  idx b (row - 1) → idx b (col - 1) → is_val b val →
  cell b (row - 1) (col - 1) = 0 →
  row_used b (row - 1) val = false → col_used b (col - 1) val = false →
  box_used b (box_of b (row - 1) (col - 1)) val = false →
  board_insert b row col val =
    Some (INSERT_OK,
          insert_commit b row col val (box_finder (row - 1) (col - 1) (board_get_size b))).
Proof.
  intros Hr Hc Hv Hz Hru Hcu Hbu. unfold board_insert.
  rewrite (proj2 (insert_args_ok_spec b row col val)) by done. simpl.
  unfold cell, row_used, col_used, box_used, box_of, board_get_size in *.
  rewrite Hz, Hru, Hcu, Hbu. done.
Qed.

Lemma bool_eq_iff (x y : bool) : (x = true ↔ y = true) → x = y.
Proof. destruct x, y; intuition congruence. Qed.

Section copy_fill.
  Context (src : board) (Hsrc : wf src).

Let n : Z := b_size src.

  (** The state of [dest] when the cells in [D] have been copied. *)
Let filled_to (D : Z → Z → Prop) (d : board) : Prop :=
    shape d ∧ core d ∧ b_size d = n ∧
    (∀ r c, idx src r → idx src c → D r c → cell d r c = cell src r c) ∧
    (∀ r c, idx src r → idx src c → ¬ D r c → cell d r c = 0) ∧
    (∀ r c v, idx src r → idx src c → is_val src v → D r c →
       note d r c v = note src r c v).

  (** The body of the inner loop, at cell [(i, j)]. *)
Let body (i j : Z) (dest : board) : res (bool * board) :=
    if negb (get2 (b_data src) i j =? 0)
    then dest ← insert_ dest (i + 1) (j + 1) (get2 (b_data src) i j); continue dest
    else continue (set_notes dest
                     (upd2 (b_notes dest) i j
                        (λ h, heatmap_copy h (get2 (b_notes src) i j)))).

  (** A value placed in [src] is used in the units of its cell. *)
Local Lemma src_used r c :
    idx src r → idx src c → cell src r c ≠ 0 →
    row_used src r (cell src r c) = true ∧ col_used src c (cell src r c) = true ∧
    box_used src (box_of src r c) (cell src r c) = true.
  Proof using Hsrc.
    intros Hr Hc Hne.
    destruct (wf_invariant1 src Hsrc r c Hr Hc Hne) as (? & ? & ? & _). done.
  Qed.

Lemma copy_fill_step (D D' : Z → Z → Prop) d i j :
    filled_to D d → idx src i → idx src j → ¬ D i j →
    (∀ r c, D r c ∨ ¬ D r c) →
    (∀ r c, D' r c ↔ D r c ∨ (r = i ∧ c = j)) →
    res_next (λ bs, bs.1 = false ∧ filled_to D' bs.2) (body i j d).
  Proof using Hsrc.
    intros (Hs & Hcore & Hsz & Hin & Hout & Hnote) Hi Hj HnD Hdec HD'.
    pose proof Hsrc as (Hss & Hscore & Hsnotes).
    assert (∀ k, idx d k ↔ idx src k) as Hidx by (intros; unfold idx; by rewrite Hsz).
    assert (∀ v, is_val d v ↔ is_val src v) as Hisval
      by (intros; unfold is_val; by rewrite Hsz).
    assert (∀ r c, box_of d r c = box_of src r c) as Hboxof
      by (intros; unfold box_of; by rewrite Hsz).
    unfold body. fold (cell src i j).
    destruct (Z.eqb_spec (cell src i j) 0) as [Hz|Hnz]; simpl.
    - (* an empty cell of src: its notes are copied *)
      split; [done|].
      assert (∀ h, hm_ok (b_size d) h →
                hm_ok (b_size d) (heatmap_copy h (get2 (b_notes src) i j)) ∧
                ∀ w, 1 ≤ w ≤ b_size d →
                  heatmap_check (heatmap_copy h (get2 (b_notes src) i j)) w =
                  note src i j w) as Hcopy.
      { intros h Hh. apply heatmap_copy_spec; [done|]. rewrite Hsz.
        by apply (shape_note_hm src Hss i j Hi Hj). }
      split; [|split; [|split; [|split; [|split]]]].
      + apply shape_upd_note; [done|]. intros h Hh. by apply Hcopy.
      + by apply (core_erase d).
      + done.
      + intros r c Hr Hc Hd. apply HD' in Hd as [Hd|[-> ->]]; [by apply Hin|].
        rewrite Hz. by apply Hout.
      + intros r c Hr Hc Hd. apply Hout; [done..|]. rewrite HD' in Hd. tauto.
      + intros r c v Hr Hc Hv Hd. unfold note at 1. simpl.
        rewrite (get2_upd2 _ _ _ _ _ _ (b_size d));
          [|apply Hs|by apply shape_notes_len|by apply Hidx..|apply Hr|apply Hc].
        case_decide as Heq.
        * destruct Heq as [<- <-]. apply Hcopy.
          -- apply shape_note_hm; [done|by apply Hidx..].
          -- by apply Hisval.
        * apply Hnote; [done..|]. apply HD' in Hd as [Hd|[-> ->]]; [done|tauto].
    - (* a filled cell of src: its value is inserted *)
      assert (is_val src (cell src i j)) as Hv by (by apply wf_cell_val).
      destruct (src_used i j Hi Hj Hnz) as (Hru & Hcu & Hbu).
      destruct (inv_used _ Hcore) as (Hrows & Hcols & Hboxs).
      (* a cell of dest that holds the value is a copied cell of src *)
      assert (∀ r c, idx src r → idx src c → cell d r c = cell src i j →
                D r c ∧ cell src r c = cell src i j) as Hcopied.
      { intros r c Hr Hc Hcell. destruct (Hdec r c) as [Hd|Hd].
        - split; [done|]. by rewrite <- Hin.
        - rewrite Hout in Hcell by done. congruence. }
      assert (∀ r c, idx src r → idx src c → cell d r c = cell src i j →
                ¬ (r = i ∨ c = j ∨ box_of src r c = box_of src i j)) as Hfree.
      { intros r c Hr Hc Hcell Hunit.
        destruct (Hcopied r c Hr Hc Hcell) as [Hd Heq].
        destruct (inv_distinct _ Hscore r c i j Hr Hc Hi Hj) as [-> ->];
          [congruence|done|done|done]. }
      assert (idx d (i + 1 - 1) ∧ idx d (j + 1 - 1) ∧ is_val d (cell src i j))
        as (Hi' & Hj' & Hv').
      { replace (i + 1 - 1) with i by lia. replace (j + 1 - 1) with j by lia.
        split; [by apply Hidx|]. split; [by apply Hidx|by apply Hisval]. }
      assert (cell d (i + 1 - 1) (j + 1 - 1) = 0 ∧
              row_used d (i + 1 - 1) (cell src i j) = false ∧
              col_used d (j + 1 - 1) (cell src i j) = false ∧
              box_used d (box_of d (i + 1 - 1) (j + 1 - 1)) (cell src i j) = false)
        as (Hz' & Hru' & Hcu' & Hbu').
      { replace (i + 1 - 1) with i by lia. replace (j + 1 - 1) with j by lia.
        split; [by apply Hout|]. split; [|split].
        - destruct (row_used d i (cell src i j)) eqn:Hu; [|done]. exfalso.
          apply Hrows in Hu as (c & Hc & Hcell); [|by apply Hidx|by apply Hisval].
          apply (Hfree i c); [done|by apply Hidx|done|auto].
        - destruct (col_used d j (cell src i j)) eqn:Hu; [|done]. exfalso.
          apply Hcols in Hu as (r & Hr & Hcell); [|by apply Hidx|by apply Hisval].
          apply (Hfree r j); [by apply Hidx|done|done|auto].
        - destruct (box_used d (box_of d i j) (cell src i j)) eqn:Hu; [|done]. exfalso.
          apply Hboxs in Hu as (r & c & Hr & Hc & Hbox & Hcell);
            [|apply Hidx; rewrite Hboxof; by apply box_of_idx|by apply Hisval].
          apply (Hfree r c); [by apply Hidx..|done|]. rewrite <- !Hboxof. auto. }
      unfold insert_.
      rewrite (board_insert_ok d (i + 1) (j + 1) (cell src i j) Hi' Hj' Hv' Hz' Hru' Hcu' Hbu').
      simpl. split; [done|].
      split; [by apply insert_commit_shape|].
      split; [by apply insert_commit_core|].
      split; [rewrite <- Hsz; by apply insert_commit_fields|].
      split; [|split].
      + intros r c Hr Hc Hd. rewrite insert_commit_cell; [|done..|apply Hr|apply Hc].
        case_decide as Heq.
        * destruct Heq as [<- <-]. f_equal; lia.
        * apply HD' in Hd as [Hd|[-> ->]]; [by apply Hin|]. exfalso. apply Heq. lia.
      + intros r c Hr Hc Hd. rewrite insert_commit_cell; [|done..|apply Hr|apply Hc].
        rewrite HD' in Hd. case_decide as Heq.
        * exfalso. apply Hd. right. lia.
        * apply Hout; [done..|]. tauto.
      + intros r c v Hr Hc Hw Hd. apply bool_eq_iff.
        rewrite insert_commit_note; [|done..|by apply Hidx|by apply Hidx|by apply Hisval].
        unfold retracted. replace (i + 1 - 1) with i by lia.
        replace (j + 1 - 1) with j by lia. rewrite !Hboxof.
        apply HD' in Hd as [Hd|[-> ->]].
        * rewrite Hnote by done. split; [tauto|]. intros Hn. split; [done|].
          intros [[-> ->]|[-> Hunit]]; [done|].
          destruct (Hsnotes r c (cell src i j) Hr Hc Hv Hn) as (_ & Hr0 & Hc0 & Hb0).
          destruct Hunit as [->|[->|Hbx]]; [congruence..|].
          rewrite Hbx in Hb0. congruence.
        * split; [tauto|]. intros Hn. exfalso.
          destruct (Hsnotes i j v Hi Hj Hw Hn) as (Hcell & _). done.
  Qed.

Local Lemma filled_to_equiv (D D' : Z → Z → Prop) d :
    (∀ r c, idx src r → idx src c → (D r c ↔ D' r c)) →
    filled_to D d → filled_to D' d.
  Proof.
    intros HD (? & ? & ? & Hin & Hout & Hnote). do 3 (split; [done|]).
    split; [|split].
    - intros r c Hr Hc Hd. apply Hin; [done..|]. by apply HD.
    - intros r c Hr Hc Hd. apply Hout; [done..|]. by rewrite HD.
    - intros r c v Hr Hc Hv Hd. apply Hnote; [done..|]. by apply HD.
  Qed.

Lemma copy_fill_spec d :
    shape d → core d → b_size d = n →
    (∀ r c, idx src r → idx src c → cell d r c = 0) →
    copy_fill d src n = Next src.
  Proof using Hsrc.
    intros Hs Hcore Hsz Hzero.
    pose proof Hsrc as (Hss & Hscore & Hsnotes).
    pose proof (shape_pos _ Hss) as Hpos. fold n in Hpos.
    assert (res_next (filled_to (λ r c, r < n)) (copy_fill d src n)) as Hres.
    { unfold copy_fill.
      apply (for_range_next (λ i, filled_to (λ r c, r < i))); [lia| |].
      - split; [done|]. split; [done|]. split; [done|]. split; [|split].
        + intros r c Hr Hc Hd. unfold idx in *. lia.
        + intros r c Hr Hc Hd. by apply Hzero.
        + intros r c v Hr Hc Hv Hd. unfold idx in *. lia.
      - intros i d' Hi Hd'.
        assert (res_next (filled_to (λ r c, r < i ∨ (r = i ∧ c < n)))
                  (for_range 0 n (body i) d')) as Hinner.
        { apply (for_range_next (λ j, filled_to (λ r c, r < i ∨ (r = i ∧ c < j))));
            [lia| |].
          - apply (filled_to_equiv (λ r c, r < i)); [|done].
            intros r c Hr Hc. unfold idx in *. lia.
          - intros j d0 Hj Hd0. apply (copy_fill_step _ _ d0 i j Hd0).
            + unfold idx. fold n. lia.
            + unfold idx. fold n. lia.
            + lia.
            + intros r c. lia.
            + intros r c. lia. }
        change (res_next (λ bs, bs.1 = false ∧ filled_to (λ r c, r < i + 1) bs.2)
                  (for_range 0 n (body i) d' ≫= continue)).
        destruct (for_range 0 n (body i) d') as [d''| |]; simpl in *; try done.
        split; [done|]. apply (filled_to_equiv (λ r c, r < i ∨ (r = i ∧ c < n))); [|done].
        intros r c Hr Hc. unfold idx in *. fold n in Hc. lia. }
    destruct (copy_fill d src n) as [d'| |]; simpl in Hres; try done.
    destruct Hres as (Hs' & Hc' & Hsz' & Hin & Hout & Hnote).
    f_equal. apply board_ext; try done.
    - unfold idx. rewrite Hsz'. intros r c Hr Hc. apply Hin; [done..|].
      unfold idx in Hr. fold n in Hr. lia.
    - unfold idx, is_val. rewrite Hsz'. intros r c v Hr Hc Hv. apply Hnote; [done..|].
      unfold idx in Hr. fold n in Hr. lia.
  Qed.
End copy_fill.

(** [board_copy] makes [dest] equal to [src]. *)
Lemma board_copy_eq dest src :
  shape dest → wf src → b_size dest = b_size src → board_copy dest src = Some src.
Proof.
  intros Hd Hsrc Hsz. unfold board_copy, board_get_size.
  rewrite (proj2 (Z.eqb_eq _ _) Hsz). simpl.
  destruct (copy_clear_spec dest Hd) as (Hs1 & Hsz1 & _ & Htot & Hcell & Hused & Happ).
  rewrite Hsz in *.
  rewrite (copy_fill_spec src Hsrc); [done|done| |done|].
  - apply empty_core; try done.
    + unfold idx in *. rewrite Hsz1. intros. apply Hcell; unfold idx; lia.
    + unfold idx, is_val in *. rewrite Hsz1. intros. apply Hused; unfold idx, is_val; lia.
    + unfold idx in *. rewrite Hsz1. intros. apply Happ; unfold idx; lia.
  - intros r c Hr Hc. apply Hcell; unfold idx in *; lia.
Qed.

(** ** Boards reached by insertions *)

Lemma reach_trans b1 b2 b3 : reach b1 b2 → reach b2 b3 → reach b1 b3.
Proof.
  induction 1 as [|b row col val st b' b'' Hins _ IH]; [done|].
  intros H3. eapply reach_insert; [done|]. by apply IH.
Qed.

Lemma reach_snoc b0 b row col val st b' :
  reach b0 b → board_insert b row col val = Some (st, b') → reach b0 b'.
Proof.
  intros Hr Hins. eapply reach_trans; [done|].
  eapply reach_insert; [done|]. apply reach_refl.
Qed.

(** What is kept along insertions. *)
Lemma reach_ind_pres (P : board → Prop) b b' :
  (∀ b row col val st b', P b → board_insert b row col val = Some (st, b') → P b') →
  reach b b' → P b → P b'.
Proof. intros Hstep. induction 1; eauto. Qed.

Lemma reach_shape b b' : reach b b' → shape b → shape b'.
Proof. apply reach_ind_pres. intros. by eapply board_insert_shape. Qed.

Lemma reach_wf b b' : reach b b' → wf b → wf b'.
Proof. apply reach_ind_pres. intros. by eapply board_insert_wf. Qed.

Lemma reach_size b b' : reach b b' → shape b → b_size b' = b_size b.
Proof.
  induction 1 as [|b row col val st b' b'' Hins _ IH]; [done|]. intros Hs.
  rewrite IH by by eapply board_insert_shape. by eapply board_insert_size.
Qed.

Lemma notes_le_refl b : notes_le b b.
Proof. by intros ???????. Qed.

Lemma notes_le_trans b1 b2 b3 :
  b_size b2 = b_size b3 → notes_le b1 b2 → notes_le b2 b3 → notes_le b1 b3.
Proof.
  intros Hsz H12 H23 r c v Hr Hc Hv Hn. unfold idx, is_val in *.
  apply H23; [done..|]. apply H12; unfold idx, is_val; rewrite ?Hsz; done.
Qed.

Lemma reach_notes_le b b' : reach b b' → shape b → notes_le b' b.
Proof.
  induction 1 as [|b row col val st b' b'' Hins _ IH]; intros Hs.
  - apply notes_le_refl.
  - apply (notes_le_trans _ b').
    + by eapply board_insert_size.
    + apply IH. by eapply board_insert_shape.
    + by eapply board_insert_notes_le.
Qed.

(** ** The rules of a round only insert *)

Section rules_reach.
  Context (b0 : board) (Q : Z → board → Prop).

Lemma insert_sat b row col val :
    reach b0 b → res_sat (reach b0) Q (insert_ b row col val).
  Proof.
    intros Hb. unfold insert_.
    destruct (board_insert b row col val) as [[st b']|] eqn:Hins; simpl; [|done].
    by eapply reach_snoc.
  Qed.

Lemma rule_value_sat i b : reach b0 b → res_sat (reach b0) Q (rule_value i b).
  Proof.
    intros Hb. unfold rule_value. case_match; [|done].
    eapply res_sat_bind.
    - apply (for_range_sat (λ st, reach b0 st.1.1)); [done|].
      intros j [[b' row] col] Hj Hb'. simpl in *. case_match; [|done].
      eapply res_sat_bind; [by apply insert_sat|]. by intros b'' Hb''.
    - by intros [[b' ?] ?] Hb'.
  Qed.

Lemma rule_row_sat i b : reach b0 b → res_sat (reach b0) Q (rule_row i b).
  Proof.
    intros Hb. unfold rule_row. case_match; [|done].
    eapply res_sat_bind.
    - apply (for_range_sat (λ st, reach b0 st.1.1)); [done|].
      intros j [[b' col] val] Hj Hb'. simpl in *. case_match; [|done].
      eapply res_sat_bind; [by apply insert_sat|]. by intros b'' Hb''.
    - by intros [[b' ?] ?] Hb'.
  Qed.

Lemma rule_col_sat i b : reach b0 b → res_sat (reach b0) Q (rule_col i b).
  Proof.
    intros Hb. unfold rule_col. case_match; [|done].
    eapply res_sat_bind.
    - apply (for_range_sat (λ st, reach b0 st.1.1)); [done|].
      intros j [[b' row] val] Hj Hb'. simpl in *. case_match; [|done].
      eapply res_sat_bind; [by apply insert_sat|]. by intros b'' Hb''.
    - by intros [[b' ?] ?] Hb'.
  Qed.

Lemma rule_box_sat i b : reach b0 b → res_sat (reach b0) Q (rule_box i b).
  Proof.
    intros Hb. unfold rule_box. case_match; [|done].
    apply for_range_sat; [done|]. intros r b' Hr Hb'.
    eapply res_sat_bind.
    - apply (for_range_sat (reach b0)); [done|]. intros c b'' Hc Hb''.
      case_match; [|done].
      eapply res_sat_bind; [by apply insert_sat|]. by intros b3 Hb3.
    - by intros b'' Hb''.
  Qed.

Lemma hidden_row_sat val i b : reach b0 b → res_sat (reach b0) Q (hidden_row val i b).
  Proof.
    intros Hb. unfold hidden_row. case_match; [|done].
    eapply (res_sat_bind (λ _, True)).
    - apply for_range_sat; [done|]. intros j [row_count col] Hj _. simpl.
      repeat case_match; done.
    - intros [row_count col] _. case_match; [by apply insert_sat|done].
  Qed.

Lemma hidden_col_sat val i b : reach b0 b → res_sat (reach b0) Q (hidden_col val i b).
  Proof.
    intros Hb. unfold hidden_col. case_match; [|done].
    eapply (res_sat_bind (λ _, True)).
    - apply for_range_sat; [done|]. intros j [col_count row] Hj _. simpl.
      repeat case_match; done.
    - intros [col_count row] _. case_match; [by apply insert_sat|done].
  Qed.

Lemma hidden_box_sat val i b : reach b0 b → res_sat (reach b0) Q (hidden_box val i b).
  Proof.
    intros Hb. unfold hidden_box. case_match; [|done].
    eapply (res_sat_bind (λ _, True)).
    - apply for_range_sat; [done|]. intros j st Hj _.
      eapply (res_sat_bind (λ _, True)).
      + apply for_range_sat; [done|]. intros k [[box_count row] col] Hk _. simpl.
        repeat case_match; done.
      + intros [[box_count row] col] _. repeat case_match; done.
    - intros [[box_count row] col] _. case_match; [by apply insert_sat|done].
  Qed.

Lemma rule_hidden_sat b : reach b0 b → res_sat (reach b0) Q (rule_hidden b).
  Proof.
    intros Hb. unfold rule_hidden.
    apply for_range_sat; [done|]. intros val b' Hval Hb'.
    apply (res_sat_bind (reach b0)); [|by intros b'' Hb''].
    apply (for_range_sat (reach b0)); [done|]. intros i b1 Hi Hb1.
    eapply res_sat_bind; [by apply hidden_row_sat|]. intros b2 Hb2.
    eapply res_sat_bind; [by apply hidden_col_sat|]. intros b3 Hb3.
    eapply res_sat_bind; [by apply hidden_box_sat|]. by intros b4 Hb4.
  Qed.
End rules_reach.

Lemma rule_cells_sat b0 i b :
  0 ≤ i < b_size b → b_size b = b_size b0 → shape b →
  reach b0 b → res_sat (reach b0) (gives_up b0) (rule_cells i b).
Proof.
  intros Hi Hsz Hs Hb. unfold rule_cells, board_get_size.
  apply (for_range_sat (λ b', reach b0 b')); [done|].
  intros j b' Hj Hb'. simpl.
  destruct (h_count (get2 (b_notes b') i j) =? 1).
  - apply (res_sat_bind (reach b0)); [|by intros b'' Hb''].
    apply (for_range_sat (reach b0)); [done|]. intros val b'' Hval Hb''.
    case_match; [|done].
    eapply res_sat_bind; [by apply insert_sat|]. by intros b3 Hb3.
  - destruct (_ && _) eqn:Hcond; [|done]. simpl.
    rewrite andb_true_iff, !Z.eqb_eq in Hcond. destruct Hcond as [Hc Hz].
    split; [done|]. split; [done|]. exists i, j. unfold cell. repeat split; lia.
Qed.

Lemma round_sat b0 b :
  b_size b = b_size b0 → shape b0 → reach b0 b →
  res_sat (reach b0) (gives_up b0) (round b).
Proof.
  intros Hsz Hs0 Hb. unfold round, board_get_size.
  apply (for_range_sat (reach b0)); [done|]. intros i b' Hi Hb'.
  eapply res_sat_bind; [by apply rule_value_sat|]. intros b1 Hb1.
  eapply res_sat_bind; [by apply rule_row_sat|]. intros b2 Hb2.
  eapply res_sat_bind; [by apply rule_col_sat|]. intros b3 Hb3.
  eapply res_sat_bind; [by apply rule_box_sat|]. intros b4 Hb4.
  eapply res_sat_bind.
  { apply rule_cells_sat; [|by apply reach_size|by eapply reach_shape|done].
    rewrite (reach_size b0 b4) by done. lia. }
  intros b5 Hb5.
  eapply res_sat_bind; [by apply rule_hidden_sat|]. by intros b6 Hb6.
Qed.

(** ** The loop of rounds *)

Lemma rounds_sat b0 k b old c :
  shape b0 → reach b0 b → rounds k b old = Some c →
  res_sat (reach b0) (gives_up b0) c.
Proof.
  intros Hs0. revert b old. induction k as [|k IH]; intros b old Hb; simpl.
  - destruct (_ && _); [done|]. by intros [= <-].
  - destruct (_ && _); [|by intros [= <-]].
    pose proof (round_sat b0 b (reach_size _ _ Hb Hs0) Hs0 Hb) as Hround.
    destruct (round b) as [b'| |]; simpl in Hround.
    + by apply IH.
    + by intros [= <-].
    + by intros [= <-].
Qed.

(** The loop of rounds is never cut short: the total grows from round to
    round and stays below [size * size]. *)
Lemma rounds_total b0 k b old :
  shape b0 → reach b0 b →
  b_size b0 * b_size b0 - b_total_appearances b ≤ Z.of_nat k →
  rounds k b old ≠ None.
Proof.
  intros Hs0. revert b old. induction k as [|k IH]; intros b old Hb Hk; simpl.
  - unfold board_get_size. rewrite (reach_size b0 b) by done.
    destruct (_ && _) eqn:Hcond; [|done].
    rewrite andb_true_iff, !Z.ltb_lt in Hcond. lia.
  - unfold board_get_size. rewrite (reach_size b0 b) by done.
    destruct (_ && _) eqn:Hcond; [|done].
    rewrite andb_true_iff, !Z.ltb_lt in Hcond.
    pose proof (round_sat b0 b (reach_size _ _ Hb Hs0) Hs0 Hb) as Hround.
    destruct (round b) as [b'| |] eqn:Hrb; simpl in Hround; [|done..].
    destruct (decide (b_total_appearances b < b_total_appearances b')) as [Hlt|Hge].
    + apply IH; [done|lia].
    + destruct k as [|k']; simpl.
      * unfold board_get_size. rewrite (reach_size b0 b') by done.
        destruct (_ && _) eqn:Hcond'; [|done].
        rewrite andb_true_iff, !Z.ltb_lt in Hcond'. lia.
      * unfold board_get_size. rewrite (reach_size b0 b') by done.
        destruct (_ && _) eqn:Hcond'; [|done].
        rewrite andb_true_iff, !Z.ltb_lt in Hcond'. lia.
Qed.

Lemma propagate_sat b c :
  shape b → propagate b = Some c → res_sat (reach b) (gives_up b) c.
Proof. intros Hs. apply rounds_sat; [done|apply reach_refl]. Qed.

Lemma propagate_total b : shape b → propagate b ≠ None.
Proof.
  intros Hs. unfold propagate, board_get_size.
  apply (rounds_total b); [done|apply reach_refl|lia].
Qed.

(** ** The scan for a guess *)

(** Invariant rule for a loop with [break]: [I] holds while the loop runs,
    [P] when it is left. *)
Lemma for_list_sat_break {St : Type} (I P : St → Prop) Q
    (body : Z → St → res (bool * St)) l s :
  I s → (∀ s, I s → P s) →
  (∀ i s, i ∈ l → I s →
     res_sat (λ bs : bool * St, if bs.1 then P bs.2 else I bs.2) Q (body i s)) →
  res_sat P Q (for_list body l s).
Proof.
  intros Hs HIP. revert s Hs. induction l as [|i l IH]; intros s Hs Hbody; simpl.
  - by apply HIP.
  - pose proof (Hbody i s ltac:(left) Hs) as Hi.
    destruct (body i s) as [[[] s']| |]; simpl in *; auto.
    apply IH; [done|]. intros. apply Hbody; [by right|done].
Qed.

Lemma for_range_sat_break {St : Type} (I P : St → Prop) Q lo hi
    (body : Z → St → res (bool * St)) s :
  I s → (∀ s, I s → P s) →
  (∀ i s, lo ≤ i < hi → I s →
     res_sat (λ bs : bool * St, if bs.1 then P bs.2 else I bs.2) Q (body i s)) →
  res_sat P Q (for_range lo hi body s).
Proof.
  intros Hs HIP Hbody. apply (for_list_sat_break I); [done..|].
  intros i s' Hi. apply Hbody. apply elem_of_seqZ in Hi. lia.
Qed.

Lemma find_guess_sat b new_b :
  b_size new_b = b_size b →
  res_sat (λ g, no_guess new_b g ∨ guessed new_b g)
          (λ r b', r = UNSOLVABLE ∧ b' = b ∧
                   ∃ i j, idx new_b i ∧ idx new_b j ∧ cell new_b i j = 0 ∧
                          h_count (get2 (b_notes new_b) i j) = 0)
          (find_guess b new_b).
Proof.
  intros Hsz. unfold find_guess, board_get_size.
  set (P := λ g, no_guess new_b g ∨ guessed new_b g).
  assert (∀ g, P g → g_updated g = false → no_guess new_b g) as Hnot.
  { intros g [Hg|(Hu & _)] Hf; [done|congruence]. }
  assert (∀ g, no_guess new_b g → P g) as HIP by (intros; by left).
  apply (for_range_sat_break (no_guess new_b) P); [done|done|].
  intros num_possible g Hnum Hg.
  apply (res_sat_bind P); last first.
  { intros g' Hg'. destruct (g_updated g') eqn:Hu; simpl; [apply Hg'|by apply Hnot]. }
  apply (for_range_sat_break (no_guess new_b) P); [done|done|].
  intros i g1 Hi Hg1.
  apply (res_sat_bind P); last first.
  { intros g' Hg'. destruct (g_updated g') eqn:Hu; simpl; [apply Hg'|by apply Hnot]. }
  apply (for_range_sat_break (no_guess new_b) P); [done|done|].
  intros j g2 Hj Hg2.
  apply (res_sat_bind P); last first.
  { intros g' Hg'. destruct (g_updated g') eqn:Hu; simpl; [apply Hg'|by apply Hnot]. }
  unfold no_guess in Hg2. subst g2. simpl.
  destruct (h_count (get2 (b_notes new_b) i j) =? num_possible).
  - apply (for_range_sat_break (no_guess new_b) P); [done|done|].
    intros k g3 Hk Hg3. unfold no_guess in Hg3. subst g3. simpl.
    destruct (heatmap_check (get2 (b_notes new_b) i j) k) eqn:Hchk; [|done].
    unfold insert_, mbind, res_bind.
    destruct (board_insert new_b (i + 1) (j + 1) k) as [[st nb]|] eqn:Hins; simpl; [|done].
    right. unfold guessed. simpl. unfold idx, is_val. rewrite Hsz.
    split; [done|]. do 3 (split; [lia|]). split; [done|]. by exists st.
  - destruct (_ && _) eqn:Hcond; simpl; [|by left].
    rewrite andb_true_iff, !Z.eqb_eq in Hcond. destruct Hcond as [Hz Hc].
    split; [done|]. split; [done|]. exists i, j. unfold idx. rewrite Hsz.
    repeat split; try done; lia.
Qed.

(** ** Filled boards *)

Lemma wf_total_bound b : wf b → 0 ≤ b_total_appearances b ≤ b_size b * b_size b.
Proof.
  intros (Hs & Hcore & _). destruct (inv_count _ Hcore) as [_ ->].
  pose proof (count_grid_bounds (λ x, negb (x =? 0)) _ _ (shape_data_rows _ Hs)) as Hb.
  rewrite (shape_data _ Hs) in Hb. pose proof (shape_pos _ Hs). lia.
Qed.

Lemma filled_cells b r c : wf b → filled b → idx b r → idx b c → cell b r c ≠ 0.
Proof.
  intros (Hs & Hcore & _) Hf Hr Hc. unfold filled in Hf.
  destruct (inv_count _ Hcore) as [_ Htot]. rewrite Htot in Hf.
  pose proof (shape_pos _ Hs) as Hpos.
  assert (count_grid (λ x, negb (x =? 0)) (b_data b) =
          Z.of_nat (length (b_data b)) * Z.of_nat (Z.to_nat (b_size b))) as Hfull.
  { rewrite (shape_data _ Hs). lia. }
  apply count_grid_full in Hfull; [|apply Hs].
  unfold idx in *.
  assert (Forall (λ x, negb (x =? 0) = true) (get (b_data b) r)) as Hrow.
  { apply (Forall_get (Forall (λ x, negb (x =? 0) = true))); [done|].
    rewrite (shape_data _ Hs). lia. }
  assert (negb (cell b r c =? 0) = true) as Hcell.
  { unfold cell, get2. apply (Forall_get (λ x, negb (x =? 0) = true)); [done|].
    rewrite (shape_data_row b Hs r) by done. lia. }
  apply negb_true_iff, Z.eqb_neq in Hcell. done.
Qed.

Lemma filled_no_notes b r c v :
  wf b → filled b → idx b r → idx b c → is_val b v → note b r c v = false.
Proof.
  intros Hwf Hf Hr Hc Hv.
  destruct (wf_invariant1 b Hwf r c Hr Hc) as (_ & _ & _ & _ & Hn); [|by apply Hn].
  by apply filled_cells.
Qed.

Lemma dead_end_not_filled b : wf b → dead_end b → ¬ filled b.
Proof.
  intros Hwf (r & c & Hr & Hc & Hz & _) Hf. by apply (filled_cells b r c).
Qed.

(** ** The guessing loop and the solver *)

Lemma solve_post_weaken b0 b o :
  b_size b = b_size b0 → notes_le b b0 → solve_post b o → solve_post b0 o.
Proof.
  intros Hsz Hle. destruct o as [r b'| |]; simpl; [|done..].
  intros (Hwf & Hsz' & Hst & Hn). split; [done|]. split; [congruence|].
  split; [done|]. by apply (notes_le_trans _ b).
Qed.

Section guess_loop.
  Context (rec : board → Z → list event * outcome).
  Hypothesis Hrec : ∀ b n, wf b → solve_post (board_make_notes b) (rec b n).2.

Lemma guess_loop_post k b new_b n :
    wf b → shape new_b → b_size new_b = b_size b →
    solve_post b (guess_loop k rec b new_b n).2.
  Proof using Hrec.
    revert b new_b. induction k as [|k IH]; intros b new_b Hwf Hnb Hsz; simpl; [done|].
    rewrite (board_copy_eq new_b b) by done.
    pose proof (find_guess_sat b b eq_refl) as Hfind.
    destruct (find_guess b b) as [g|r b'|]; simpl in Hfind; [| |done].
    2:{ destruct Hfind as (-> & -> & i & j & Hi & Hj & Hz & Hc). simpl.
        split; [done|]. split; [done|]. split; [|apply notes_le_refl].
        right. split; [done|]. by exists i, j. }
    (* the board handed to the recursive call is well-formed *)
    assert (wf (g_board g) ∧ b_size (g_board g) = b_size b) as [Hwfg Hszg].
    { destruct Hfind as [->|(_ & _ & _ & _ & _ & st & Hins)]; [done|].
      split; [by eapply board_insert_wf|]. eapply board_insert_size; [apply Hwf|done]. }
    specialize (Hrec (g_board g) (incr n) Hwfg).
    destruct (rec (g_board g) (incr n)) as [tr o]. simpl in Hrec.
    destruct o as [guess_ret new_b3| |]; simpl; [|done..].
    destruct Hrec as (Hwf3 & Hsz3 & Hst & _).
    rewrite board_make_notes_size in Hsz3 by apply Hwfg.
    destruct Hst as [[-> Hfilled]|[-> Hdead]]; simpl.
    - (* the guess led to a solution: it is copied back *)
      rewrite (board_copy_eq b new_b3); [|apply Hwf|done|congruence]. simpl.
      split; [done|]. split; [congruence|]. split; [by left|].
      intros r c v Hr Hc Hv Hn. rewrite filled_no_notes in Hn; [done..| | |].
      + unfold idx in *. by rewrite Hsz3, Hszg.
      + unfold idx in *. by rewrite Hsz3, Hszg.
      + unfold is_val in *. by rewrite Hsz3, Hszg.
    - (* the guess failed: its note is turned off *)
      destruct ((g_row g <? 0) || (g_col g <? 0)) eqn:Hneg; simpl; [done|].
      destruct Hfind as [->|(_ & Hr & Hc & Hv & _)]; [done|].
      assert (wf (note_off b (g_row g) (g_col g) (g_val g))) as Hwf'
        by by apply note_off_wf.
      specialize (IH (note_off b (g_row g) (g_col g) (g_val g)) new_b3 Hwf'
                     (proj1 Hwf3) ltac:(simpl; congruence)).
      destruct (guess_loop k rec _ new_b3 n) as [tr' o']. simpl in *.
      apply (solve_post_weaken _ (note_off b (g_row g) (g_col g) (g_val g)));
        [done| |done].
      apply note_off_notes_le; [apply Hwf|done..].
  Qed.
End guess_loop.

Theorem board_solve_post fuel b n :
  wf b → solve_post (board_make_notes b) (board_solve fuel b n).2.
Proof.
  revert b n. induction fuel as [|fuel IH]; intros b n Hwf; simpl; [done|].
  pose proof (board_make_notes_wf b Hwf) as Hwf1.
  pose proof (board_make_notes_size b (proj1 Hwf)) as Hsz1.
  set (b1 := board_make_notes b) in *.
  pose proof (propagate_sat b1) as Hprop.
  destruct (propagate b1) as [[b2|r b2|]|]; simpl; [| |done..].
  - (* the rounds fell through *)
    specialize (Hprop _ (proj1 Hwf1) eq_refl). simpl in Hprop.
    pose proof (reach_wf _ _ Hprop Hwf1) as Hwf2.
    pose proof (reach_size _ _ Hprop (proj1 Hwf1)) as Hsz2.
    pose proof (reach_notes_le _ _ Hprop (proj1 Hwf1)) as Hle2.
    unfold board_get_size.
    destruct (Z.leb_spec (b_size b * b_size b) (b_total_appearances b2)) as [Hfull|Hnot].
    + simpl. split; [done|]. split; [done|]. split; [|done]. left. split; [done|].
      pose proof (wf_total_bound b2 Hwf2). unfold filled. rewrite Hsz2, Hsz1 in *. lia.
    + destruct (board_create (b_size b)) as [new_b|] eqn:Hcreate; simpl; [|done].
      pose proof (guess_loop_post (board_solve fuel) IH fuel b2 new_b n Hwf2) as Hloop.
      destruct (guess_loop fuel (board_solve fuel) b2 new_b n) as [tr o]. simpl in *.
      apply (solve_post_weaken _ b2); [done|done|]. apply Hloop.
      * eapply board_create_shape; [done|]. apply (shape_int _ (proj1 Hwf)).
      * apply board_create_spec in Hcreate. destruct Hcreate as (_ & _ & -> & _).
        congruence.
  - (* a round gave up *)
    specialize (Hprop _ (proj1 Hwf1) eq_refl). simpl in Hprop.
    destruct Hprop as (-> & Hreach & i & j & Hi & Hj & Hz & Hc).
    pose proof (reach_wf _ _ Hreach Hwf1) as Hwf2.
    pose proof (reach_size _ _ Hreach (proj1 Hwf1)) as Hsz2.
    split; [done|]. split; [done|]. split; [|by apply reach_notes_le; [|apply Hwf1]].
    right. split; [done|]. exists i, j. unfold idx. rewrite Hsz2. done.
Qed.

(** ** A filled board is a solved grid *)

Lemma perm_of_nodup_range (l : list Z) n :
  NoDup l → length l = Z.to_nat n → (∀ x, x ∈ l → 1 ≤ x ≤ n) → l ≡ₚ seqZ 1 n.
Proof.
  intros Hnd Hlen Hrange. apply submseteq_length_Permutation.
  - apply NoDup_submseteq; [done|]. intros x Hx. apply elem_of_seqZ.
    specialize (Hrange x Hx). lia.
  - rewrite length_seqZ. lia.
Qed.

Lemma length_bind_const {A B : Type} (f : A → list B) (l : list A) (k : nat) :
  (∀ x, x ∈ l → length (f x) = k) → length (l ≫= f) = (length l * k)%nat.
Proof.
  induction l as [|x l IH]; intros Hf; [done|].
  rewrite bind_cons, length_app, IH, (Hf x); [done|by left|]. intros. apply Hf. by right.
Qed.

Section complete.
  Context (b : board) (Hwf : wf b) (Hfilled : filled b).

Let Hs : shape b := proj1 Hwf.

Local Lemma cell_is_val r c : idx b r → idx b c → 1 ≤ cell b r c ≤ b_size b.
  Proof using Hwf Hfilled.
    intros Hr Hc. apply (wf_cell_val b r c Hwf Hr Hc). by apply filled_cells.
  Qed.

Local Lemma cell_inj r c r' c' :
    idx b r → idx b c → idx b r' → idx b c' → cell b r c = cell b r' c' →
    (r = r' ∨ c = c' ∨ box_of b r c = box_of b r' c') → r = r' ∧ c = c'.
  Proof using Hwf Hfilled.
    intros Hr Hc Hr' Hc' Heq Hunit. pose proof Hwf as (_ & Hcore & _).
    apply (inv_distinct _ Hcore); try done. by apply filled_cells.
  Qed.

Lemma row_complete r : idx b r → row_list b r ≡ₚ seqZ 1 (b_size b).
  Proof using Hwf Hfilled.
    intros Hr. unfold row_list. apply perm_of_nodup_range.
    - apply NoDup_fmap_2_strong; [|apply NoDup_seqZ].
      intros c c' Hc%elem_of_seqZ Hc'%elem_of_seqZ Heq.
      apply (cell_inj r c r c'); unfold idx; auto with lia.
    - by rewrite length_fmap, length_seqZ.
    - intros x (c & -> & Hc%elem_of_seqZ)%list_elem_of_fmap.
      apply cell_is_val; unfold idx; auto with lia.
  Qed.

Lemma col_complete c : idx b c → col_list b c ≡ₚ seqZ 1 (b_size b).
  Proof using Hwf Hfilled.
    intros Hc. unfold col_list. apply perm_of_nodup_range.
    - apply NoDup_fmap_2_strong; [|apply NoDup_seqZ].
      intros r r' Hr%elem_of_seqZ Hr'%elem_of_seqZ Heq.
      apply (cell_inj r c r' c); unfold idx; auto with lia.
    - by rewrite length_fmap, length_seqZ.
    - intros x (r & -> & Hr%elem_of_seqZ)%list_elem_of_fmap.
      apply cell_is_val; unfold idx; auto with lia.
  Qed.

Lemma box_complete k : idx b k → box_list b k ≡ₚ seqZ 1 (b_size b).
  Proof using Hwf Hfilled.
    intros Hk. unfold box_list.
    pose proof (box_corner b Hs k Hk) as Hcorner.
    pose proof (box_range_iff b Hs k) as Hrange.
    pose proof (shape_root_pos b Hs) as Hroot.
    pose proof (shape_root _ Hs) as Hsq.
    cbv zeta in Hcorner, Hrange.
    set (root := isqrt (b_size b)) in *.
    set (br := root * (k `quot` root)) in *. set (bc := root * (k `rem` root)) in *.
    assert (∀ r c, r ∈ seqZ br root → c ∈ seqZ bc root →
              idx b r ∧ idx b c ∧ box_of b r c = k) as Hin.
    { intros r c Hr%elem_of_seqZ Hc%elem_of_seqZ.
      assert (idx b r ∧ idx b c) as [Hir Hic] by (unfold idx; lia).
      split; [done|]. split; [done|]. apply Hrange; [done..|]. lia. }
    apply perm_of_nodup_range.
    - apply NoDup_bind; [| |apply NoDup_seqZ].
      + intros r r' x Hr Hr' (c & -> & Hc)%list_elem_of_fmap
               (c' & Heq & Hc')%list_elem_of_fmap.
        destruct (Hin r c Hr Hc) as (? & ? & Hb1).
        destruct (Hin r' c' Hr' Hc') as (? & ? & Hb2).
        apply (cell_inj r c r' c'); try done. right. right. congruence.
      + intros r Hr. apply NoDup_fmap_2_strong; [|apply NoDup_seqZ].
        intros c c' Hc Hc' Heq.
        destruct (Hin r c Hr Hc) as (? & ? & Hb1).
        destruct (Hin r c' Hr Hc') as (? & ? & Hb2).
        apply (cell_inj r c r c'); auto.
    - rewrite (length_bind_const _ _ (Z.to_nat root)).
      + rewrite length_seqZ. nia.
      + intros r _. by rewrite length_fmap, length_seqZ.
    - intros x (r & (c & -> & Hc)%list_elem_of_fmap & Hr)%list_elem_of_bind.
      destruct (Hin r c Hr Hc) as (? & ? & _). by apply cell_is_val.
  Qed.

Lemma filled_complete : units_complete b.
  Proof using Hwf Hfilled.
    intros i Hi. split; [by apply row_complete|].
    split; [by apply col_complete|by apply box_complete].
  Qed.
End complete.

(** ** The depth counter [n] is dead *)

Lemma guess_loop_n_irrelevant k rec b new_b n m :
  (∀ b n m, rec b n = rec b m) →
  guess_loop k rec b new_b n = guess_loop k rec b new_b m.
Proof.
  intros Hrec. revert b new_b. induction k as [|k IH]; intros b new_b; simpl; [done|].
  destruct (board_copy new_b b) as [nb|]; [|done].
  destruct (find_guess b nb) as [g| |]; [|done..].
  rewrite (Hrec (g_board g) (incr n) (incr m)).
  destruct (rec (g_board g) (incr m)) as [tr [guess_ret nb3| |]]; [|done..].
  repeat case_match; try done; simplify_eq.
  all: try (rewrite IH in *; congruence).
Qed.

Lemma board_solve_n_irrelevant fuel b n m : board_solve fuel b n = board_solve fuel b m.
Proof.
  revert b n m. induction fuel as [|fuel IH]; intros b n m; simpl; [done|].
  repeat case_match; try done; simplify_eq.
  all: rewrite (guess_loop_n_irrelevant _ _ _ _ n m) in * by done; congruence.
Qed.

(** ** Counting calls in a trace *)

Lemma make_notes_runs_cons e tr :
  make_notes_runs (e :: tr) =
    ((if decide (e = EvMakeNotes) then 1 else 0) + make_notes_runs tr)%nat.
Proof. unfold make_notes_runs. rewrite filter_cons. by case_decide. Qed.

Lemma make_notes_runs_app tr tr' :
  make_notes_runs (tr ++ tr') = (make_notes_runs tr + make_notes_runs tr')%nat.
Proof. unfold make_notes_runs. by rewrite filter_app, length_app. Qed.

Lemma recursive_calls_cons e tr :
  recursive_calls (e :: tr) =
    ((if decide (e = EvCall) then 1 else 0) + recursive_calls tr)%nat.
Proof. unfold recursive_calls. rewrite filter_cons. by case_decide. Qed.

Lemma recursive_calls_app tr tr' :
  recursive_calls (tr ++ tr') = (recursive_calls tr + recursive_calls tr')%nat.
Proof. unfold recursive_calls. by rewrite filter_app, length_app. Qed.

Lemma guess_loop_runs k rec b new_b n tr r b' :
  (∀ b n tr r b', rec b n = (tr, Returned r b') →
     make_notes_runs tr = S (recursive_calls tr)) →
  guess_loop k rec b new_b n = (tr, Returned r b') →
  make_notes_runs tr = recursive_calls tr.
Proof.
  intros Hrec. revert b new_b tr. induction k as [|k IH]; intros b new_b tr; simpl; [done|].
  destruct (board_copy new_b b) as [nb|]; [|done].
  destruct (find_guess b nb) as [g|r0 b0|]; [|by intros [= <- _ _]|done].
  destruct (rec (g_board g) (incr n)) as [tr1 [guess_ret nb3| |]] eqn:Hcall; [|done..].
  specialize (Hrec _ _ _ _ _ Hcall).
  assert (make_notes_runs (EvCall :: tr1 ++ [EvRet]) =
          recursive_calls (EvCall :: tr1 ++ [EvRet])) as Hone.
  { rewrite make_notes_runs_cons, recursive_calls_cons,
      make_notes_runs_app, recursive_calls_app, Hrec.
    change (make_notes_runs [EvRet]) with 0%nat.
    change (recursive_calls [EvRet]) with 0%nat. simpl. lia. }
  destruct (guess_ret =? 0).
  { destruct (board_copy b nb3); intros [= <- _ _]; done. }
  destruct (_ || _); [done|].
  destruct (guess_ret =? 1); [|done].
  destruct (guess_loop k rec _ nb3 n) as [tr' o'] eqn:Hloop.
  intros [= <- ->]. specialize (IH _ _ _ Hloop).
  replace (EvCall :: tr1 ++ EvRet :: tr') with ((EvCall :: tr1 ++ [EvRet]) ++ tr')
    by (simpl; by rewrite <- app_assoc).
  rewrite make_notes_runs_app, recursive_calls_app. lia.
Qed.

Lemma board_solve_runs fuel b n tr r b' :
  board_solve fuel b n = (tr, Returned r b') →
  make_notes_runs tr = S (recursive_calls tr) ∧ head tr = Some EvMakeNotes.
Proof.
  revert b n tr r b'. induction fuel as [|fuel IH]; intros b n tr r b'; simpl; [done|].
  destruct (propagate (board_make_notes b)) as [[b2|r2 b2|]|]; [| |done..].
  - destruct (_ <=? _); [by intros [= <- _ _]|].
    destruct (board_create _) as [new_b|]; [|done].
    destruct (guess_loop fuel (board_solve fuel) b2 new_b n) as [tr' o'] eqn:Hloop.
    intros [= <- ->]. split; [|done].
    rewrite make_notes_runs_cons, recursive_calls_cons. simpl. f_equal.
    eapply guess_loop_runs; [|done]. intros b0 n0 tr0 r0 b0' H0. by apply (IH _ _ _ _ _ H0).
  - by intros [= <- _ _].
Qed.

(** ** The solver on the empty 4×4 board *)

Lemma empty4_create : board_create 4 = Some empty4.
Proof. vm_compute. reflexivity. Qed.

Lemma empty4_make_notes : board_make_notes empty4 = empty4_notes.
Proof. vm_compute. reflexivity. Qed.

Lemma empty4_notes_make_notes : board_make_notes empty4_notes = empty4_notes.
Proof. vm_compute. reflexivity. Qed.

Lemma empty4_notes_propagate : propagate empty4_notes = Some (Next empty4_notes).
Proof. vm_compute. reflexivity. Qed.

Lemma empty4_notes_copy : board_copy empty4 empty4_notes = Some empty4_notes.
Proof. vm_compute. reflexivity. Qed.

Lemma empty4_notes_find_guess :
  find_guess empty4_notes empty4_notes = Next (Guess empty4_notes (-1) (-1) (-1) false).
Proof. vm_compute. reflexivity. Qed.

(** When the scan finds no guess, the recursive call gets the board it was
    called on; if that call does not return, neither does the loop. *)
Lemma guess_loop_no_guess k rec b new_b nb n :
  board_copy new_b b = Some nb →
  find_guess b nb = Next (Guess nb (-1) (-1) (-1) false) →
  (rec nb (incr n)).2 = OutOfFuel →
  (guess_loop (S k) rec b new_b n).2 = OutOfFuel.
Proof.
  intros Hcopy Hfind Hrec. simpl. rewrite Hcopy, Hfind. simpl.
  destruct (rec nb (incr n)) as [tr o]. simpl in Hrec. by subst o.
Qed.

Lemma board_solve_stalled fuel b b1 new_b n :
  propagate (board_make_notes b) = Some (Next b1) →
  (board_get_size b * board_get_size b <=? b_total_appearances b1) = false →
  board_create (board_get_size b) = Some new_b →
  (guess_loop fuel (board_solve fuel) b1 new_b n).2 = OutOfFuel →
  (board_solve (S fuel) b n).2 = OutOfFuel.
Proof.
  intros Hprop Hfull Hcreate Hloop. simpl. rewrite Hprop, Hfull, Hcreate.
  destruct (guess_loop fuel (board_solve fuel) b1 new_b n) as [tr o].
  simpl in Hloop. by subst o.
Qed.

Lemma empty4_notes_diverges fuel n : solve fuel empty4_notes n = OutOfFuel.
Proof.
  unfold solve. revert n. induction fuel as [|fuel IH]; intros n; [done|].
  apply (board_solve_stalled _ _ empty4_notes empty4).
  - rewrite empty4_notes_make_notes. apply empty4_notes_propagate.
  - vm_compute. reflexivity.
  - apply empty4_create.
  - destruct fuel as [|k]; [done|].
    apply (guess_loop_no_guess _ _ _ _ empty4_notes).
    + apply empty4_notes_copy.
    + apply empty4_notes_find_guess.
    + apply IH.
Qed.

(** ** The heap: commands stay within their region *)

Module HeapFacts.
Import Heap.

Lemma bind_inv {A B : Type} (m : M A) (k : A → M B) h b h' :
  bind m k h = Some (b, h') → ∃ a h1, m h = Some (a, h1) ∧ k a h1 = Some (b, h').
Proof.
  unfold bind. destruct (m h) as [[a h1]|]; [|done]. intros Hk. by exists a, h1.
Qed.

Lemma load_inv a h v h' : load a h = Some (v, h') → h' = h ∧ cells h !! a = Some v.
Proof. unfold load. destruct (cells h !! a); [|done]. by intros [= -> ->]. Qed.

Lemma load_int_inv a h z h' :
  load_int a h = Some (z, h') → h' = h ∧ cells h !! a = Some (VInt z).
Proof.
  intros (v & h1 & Hl & Hk)%bind_inv. apply load_inv in Hl as [-> Hl].
  destruct v; try done. by injection Hk as -> ->.
Qed.

Lemma load_bool_inv a h x h' :
  load_bool a h = Some (x, h') → h' = h ∧ cells h !! a = Some (VBool x).
Proof.
  intros (v & h1 & Hl & Hk)%bind_inv. apply load_inv in Hl as [-> Hl].
  destruct v; try done. by injection Hk as -> ->.
Qed.

Lemma load_ptr_inv a h p h' :
  load_ptr a h = Some (p, h') → h' = h ∧ cells h !! a = Some (VPtr p).
Proof.
  intros (v & h1 & Hl & Hk)%bind_inv. apply load_inv in Hl as [-> Hl].
  destruct v; try done. by injection Hk as -> ->.
Qed.

Lemma store_inv a v h u h' :
  store a v h = Some (u, h') →
  is_Some (cells h !! a) ∧ h' = Mem (<[a := v]> (cells h)) (next h).
Proof. unfold store. destruct (cells h !! a); [|done]. by intros [= <- <-]. Qed.

Lemma lookup_fresh (c : gmap addr val) (nb : block) (l : list Z) b off :
  foldr (λ k m, <[(nb, k) := VUndef]> m) c l !! (b, off) =
    if decide (b = nb ∧ off ∈ l) then Some VUndef else c !! (b, off).
Proof.
  induction l as [|k l IH]; simpl.
  - case_decide as Hd; [|done]. destruct Hd as [_ Hd]. by apply elem_of_nil in Hd.
  - destruct (decide ((nb, k) = (b, off))) as [[= -> ->]|Hne].
    + rewrite lookup_insert_eq. rewrite decide_True; [done|]. split; [done|left].
    + rewrite lookup_insert_ne by done. rewrite IH.
      apply decide_ext. rewrite elem_of_cons. split; [tauto|].
      intros [-> [->|?]]; done.
Qed.

Lemma lookup_alloc h n b off :
  cells (alloc h n) !! (b, off) =
    if decide (b = next h ∧ 0 ≤ off < n) then Some VUndef else cells h !! (b, off).
Proof.
  unfold alloc. simpl. rewrite lookup_fresh. apply decide_ext.
  rewrite elem_of_seqZ. intuition lia.
Qed.

Lemma malloc_inv n h p h' :
  malloc n h = Some (p, h') →
  p = (next h, 0) ∧ next h' = S (next h) ∧
  ∀ b off, cells h' !! (b, off) =
    if decide (b = next h ∧ 0 ≤ off < n) then Some VUndef else cells h !! (b, off).
Proof.
  unfold malloc. intros [= <- <-]. split; [done|]. split; [done|].
  intros b off. apply lookup_alloc.
Qed.

(** *** Commands that only read *)

Lemma readonly_ret {A : Type} (a : A) : readonly (ret a).
Proof. by intros h a' h' [= _ ->]. Qed.

Lemma readonly_fail {A : Type} : readonly (@fail A).
Proof. by intros h a' h'. Qed.

Lemma readonly_bind {A B : Type} (m : M A) (k : A → M B) :
  readonly m → (∀ a, readonly (k a)) → readonly (bind m k).
Proof.
  intros Hm Hk h b h' (a & h1 & H1 & H2)%bind_inv.
  apply Hm in H1 as ->. by apply Hk in H2.
Qed.

Lemma readonly_assert b : readonly (assert_ b).
Proof. destruct b; [apply readonly_ret|apply readonly_fail]. Qed.

Lemma readonly_load a : readonly (load a).
Proof. intros h v h' Hl. by apply load_inv in Hl as [-> _]. Qed.

Lemma readonly_load_int a : readonly (load_int a).
Proof. intros h v h' Hl. by apply load_int_inv in Hl as [-> _]. Qed.

Lemma readonly_load_bool a : readonly (load_bool a).
Proof. intros h v h' Hl. by apply load_bool_inv in Hl as [-> _]. Qed.

Lemma readonly_load_ptr a : readonly (load_ptr a).
Proof. intros h v h' Hl. by apply load_ptr_inv in Hl as [-> _]. Qed.

Lemma readonly_check_val p v : readonly (check_val p v).
Proof.
  apply readonly_bind; [apply readonly_assert|intros _].
  apply readonly_bind; [apply readonly_load_int|intros len]. apply readonly_assert.
Qed.

Lemma readonly_heatmap_check p v : readonly (heatmap_check p v).
Proof.
  apply readonly_bind; [apply readonly_check_val|intros _].
  apply readonly_bind; [apply readonly_load_ptr|intros m]. apply readonly_load_bool.
Qed.

Lemma readonly_elem b f i : readonly (elem b f i).
Proof. apply readonly_bind; [apply readonly_load_ptr|intros m]. apply readonly_load_ptr. Qed.

Lemma readonly_note_at b i j : readonly (note_at b i j).
Proof. apply readonly_bind; [apply readonly_elem|intros m]. apply readonly_load_ptr. Qed.

Lemma readonly_board_get_size b : readonly (board_get_size b).
Proof. apply readonly_load_int. Qed.

(** *** The rules of [safe] *)

Section frame.
  Context (R : region) (h0 : mem).

Lemma safe_ret {A : Type} (P : A → Prop) a : P a → safe R h0 P (ret a).
  Proof. intros HP h a' h' Hw [= <- <-]. done. Qed.

Lemma safe_bind {A B : Type} (Q : A → Prop) (P : B → Prop) (m : M A) (k : A → M B) :
    safe R h0 Q m → (∀ a, Q a → safe R h0 P (k a)) → safe R h0 P (bind m k).
  Proof.
    intros Hm Hk h b h' Hw (a & h1 & H1 & H2)%bind_inv.
    destruct (Hm _ _ _ Hw H1) as [Hw1 HQ]. by apply (Hk a HQ h1).
  Qed.

Lemma safe_weaken {A : Type} (Q P : A → Prop) (m : M A) :
    safe R h0 Q m → (∀ a, Q a → P a) → safe R h0 P m.
  Proof. intros Hm HQP h a h' Hw Hr. destruct (Hm _ _ _ Hw Hr). auto. Qed.

Lemma safe_readonly {A : Type} (m : M A) : readonly m → safe R h0 (λ _, True) m.
  Proof. intros Hm h a h' Hw Hr. by apply Hm in Hr as ->. Qed.

Lemma safe_assert b : safe R h0 (λ _, True) (assert_ b).
  Proof. apply safe_readonly, readonly_assert. Qed.

  (** A pointer loaded from an owned block points to an owned block. *)
Lemma safe_load_ptr a : owned R h0 a.1 → safe R h0 (λ p, owned R h0 p.1) (load_ptr a).
  Proof.
    intros Ha h p h' Hw Hl. apply load_ptr_inv in Hl as [-> Hl]. split; [done|].
    destruct Hw as (_ & _ & Hc & _). destruct a as [b off]. by apply (Hc b off).
  Qed.

  (** A store into an owned block, of a value that is no pointer out of the
      owned blocks. *)
Lemma safe_store a v :
    owned R h0 a.1 → (∀ p, v = VPtr p → owned R h0 p.1) →
    safe R h0 (λ _, True) (store a v).
  Proof.
    intros Ha Hv h u h' (Hok & Hn & Hc & Hf) Hs.
    apply store_inv in Hs as [Hsome ->]. split; [|done].
    split; [|split; [done|split]]; simpl.
    - intros b off Hb. simpl in *. destruct (decide (a = (b, off))) as [->|Hne].
      + destruct Hsome as [x Hx]. exfalso.
        assert (Some x = None) as E; [|done]. rewrite <- Hx. exact (Hok b off Hb).
      + rewrite lookup_insert_ne by done. by apply Hok.
    - intros b off p Hb. simpl. destruct (decide (a = (b, off))) as [->|Hne].
      + rewrite lookup_insert_eq. intros [= ->]. by apply Hv.
      + rewrite lookup_insert_ne by done. by apply Hc.
    - intros b off Hb. simpl. destruct (decide (a = (b, off))) as [->|Hne]; [done|].
      rewrite lookup_insert_ne by done. by apply Hf.
  Qed.

Lemma safe_store_int a z : owned R h0 a.1 → safe R h0 (λ _, True) (store a (VInt z)).
  Proof. intros Ha. by apply safe_store. Qed.

Lemma safe_store_bool a x : owned R h0 a.1 → safe R h0 (λ _, True) (store a (VBool x)).
  Proof. intros Ha. by apply safe_store. Qed.

Lemma safe_store_ptr a p :
    owned R h0 a.1 → owned R h0 p.1 → safe R h0 (λ _, True) (store a (VPtr p)).
  Proof. intros Ha Hp. apply safe_store; [done|]. by intros ? [= <-]. Qed.

  (** A fresh block is owned. *)
Lemma safe_malloc n : safe R h0 (λ p, owned R h0 p.1) (malloc n).
  Proof.
    intros h p h' (Hok & Hn & Hc & Hf) Hm.
    apply malloc_inv in Hm as (-> & Hnext & Hcells).
    split; [|right; simpl; lia].
    split; [|split; [lia|split]].
    - intros b off Hb. rewrite Hcells. rewrite decide_False by lia. apply Hok. lia.
    - intros b off p Hb. rewrite Hcells. case_decide as Hd; [done|]. by apply Hc.
    - intros b off Hb. rewrite Hcells. case_decide as Hd; [|by apply Hf].
      destruct Hd as [-> _]. exfalso. apply Hb. right. lia.
  Qed.

Lemma safe_for_list body l :
    (∀ i, safe R h0 (λ _, True) (body i)) → safe R h0 (λ _, True) (for_list body l).
  Proof.
    intros Hb. induction l as [|i l IH]; simpl.
    - by apply safe_ret.
    - apply (safe_bind (λ _, True)); [apply Hb|]. intros _ _. apply IH.
  Qed.

Lemma safe_for lo hi body :
    (∀ i, safe R h0 (λ _, True) (body i)) → safe R h0 (λ _, True) (for_ lo hi body).
  Proof. apply safe_for_list. Qed.
End frame.

(** A state is within its own region. *)
Lemma within_refl R h : mem_ok h → closed R h → within R h h.
Proof.
  intros Hok Hc. split; [done|]. split; [done|]. split; [|done].
  intros b off a [Hb|Hb] Hl.
  - left. by apply (Hc b off).
  - exfalso. assert (Some (VPtr a) = None) as E; [|done].
    rewrite <- Hl. exact (Hok b off Hb).
Qed.

Lemma safe_run {A : Type} R h (P : A → Prop) (m : M A) a h' :
  mem_ok h → closed R h → safe R h P m → m h = Some (a, h') →
  within R h h' ∧ P a.
Proof. intros Hok Hc Hs Hm. apply (Hs h); [by apply within_refl|done]. Qed.

(** *** The functions of the module stay within the region of their board *)

Create HintDb ro discriminated.
#[global] Hint Resolve readonly_ret readonly_fail readonly_assert readonly_load_int
  readonly_load_bool readonly_load_ptr readonly_check_val readonly_heatmap_check
  readonly_elem readonly_note_at readonly_board_get_size : ro.

Create HintDb safe discriminated.

Ltac own_tac := simpl; assumption.

Ltac safe_atom :=
  first
    [ apply safe_load_ptr; own_tac
    | apply safe_store_int; own_tac
    | apply safe_store_bool; own_tac
    | apply safe_store_ptr; own_tac
    | apply safe_malloc
    | solve [eauto 2 with safe]
    | apply safe_readonly; solve [eauto 2 with ro] ].

Ltac safe_go :=
  lazymatch goal with
  | |- safe _ _ _ (bind _ _) => eapply safe_bind; [safe_cmd | intros ? ?; safe_go]
  | |- safe _ _ _ (ret _) => apply safe_ret; simpl; auto
  | |- safe _ _ _ (if ?x then _ else _) => destruct x; safe_go
  | |- safe _ _ _ (for_ _ _ _) => apply safe_for; intros ?; safe_go
  | |- safe _ _ _ _ => eapply safe_weaken; [safe_atom | simpl; auto]
  end
with safe_cmd :=
  lazymatch goal with
  | |- safe ?R ?h0 _ (bind _ _) => refine (_ : safe R h0 (λ _, True) _); safe_go
  | |- safe ?R ?h0 _ (if _ then _ else _) => refine (_ : safe R h0 (λ _, True) _); safe_go
  | |- safe _ _ _ (for_ _ _ _) => apply safe_for; intros ?; safe_go
  | |- safe _ _ _ _ => safe_atom
  end.

Section frame_funs.
  Context (R : region) (h0 : mem).

Lemma heatmap_create_safe len :
    safe R h0 (λ p, owned R h0 p.1) (heatmap_create len).
  Proof. unfold heatmap_create. safe_go. Qed.

Lemma heatmap_flip_safe p v :
    owned R h0 p.1 → safe R h0 (λ _, True) (heatmap_flip p v).
  Proof. intros Hp. unfold heatmap_flip. safe_go. Qed.

Lemma heatmap_on_safe p v :
    owned R h0 p.1 → safe R h0 (λ _, True) (heatmap_on p v).
  Proof. intros Hp. unfold heatmap_on. safe_go. Qed.

Lemma heatmap_off_safe p v :
    owned R h0 p.1 → safe R h0 (λ _, True) (heatmap_off p v).
  Proof. intros Hp. unfold heatmap_off. safe_go. Qed.

  Hint Resolve heatmap_create_safe heatmap_flip_safe heatmap_on_safe heatmap_off_safe : safe.

  (** The source heatmap is only read: it may lie anywhere. *)
Lemma heatmap_copy_safe dest src :
    owned R h0 dest.1 → safe R h0 (λ _, True) (heatmap_copy dest src).
  Proof. intros Hp. unfold heatmap_copy. safe_go. Qed.

Lemma elem_safe b f i :
    owned R h0 b.1 → safe R h0 (λ p, owned R h0 p.1) (elem b f i).
  Proof. intros Hp. unfold elem. safe_go. Qed.

  Hint Resolve heatmap_copy_safe elem_safe : safe.

Lemma note_at_safe b i j :
    owned R h0 b.1 → safe R h0 (λ p, owned R h0 p.1) (note_at b i j).
  Proof. intros Hp. unfold note_at. safe_go. Qed.

Lemma heatmaps_create_safe n len :
    safe R h0 (λ p, owned R h0 p.1) (heatmaps_create n len).
  Proof. unfold heatmaps_create. safe_go. Qed.

  Hint Resolve note_at_safe heatmaps_create_safe : safe.

Lemma board_create_safe size :
    safe R h0 (λ p, owned R h0 p.1) (board_create size).
  Proof. unfold board_create. safe_go. Qed.

Lemma board_insert_safe b row col val :
    owned R h0 b.1 → safe R h0 (λ _, True) (board_insert b row col val).
  Proof. intros Hp. unfold board_insert. safe_go. Qed.

  Hint Resolve board_insert_safe : safe.

  (** [board_copy] writes to what hangs off [dest] and to the heatmap it
      allocates; [src] is only read. *)
Lemma board_copy_safe dest src :
    owned R h0 dest.1 → safe R h0 (λ _, True) (board_copy dest src).
  Proof. intros Hp. unfold board_copy. safe_go. Qed.
End frame_funs.

End HeapFacts.

(** ** The heap: the functions on the heap do what the functions on values do *)

Module HeapSim.

(* The functions on values, by name, where the heap's take their names. *)
Local Abbreviation v_heatmap_create := heatmap_create.
Local Abbreviation v_heatmap_check := heatmap_check.
Local Abbreviation v_heatmap_flip := heatmap_flip.
Local Abbreviation v_heatmap_on := heatmap_on.
Local Abbreviation v_heatmap_off := heatmap_off.
Local Abbreviation v_heatmap_copy := heatmap_copy.
Local Abbreviation v_board_insert := board_insert.
Local Abbreviation v_board_copy := board_copy.
Local Abbreviation v_for_list := for_list.

Import Heap.

(** *** Running a command *)

Lemma bind_run {A B : Type} (m : M A) (k : A → M B) h a h1 :
  m h = Some (a, h1) → bind m k h = k a h1.
Proof. unfold bind. by intros ->. Qed.

Lemma bind_assoc {A B C : Type} (m : M A) (k1 : A → M B) (k2 : B → M C) h :
  bind (bind m k1) k2 h = bind m (λ x, bind (k1 x) k2) h.
Proof. unfold bind. by destruct (m h) as [[a h1]|]. Qed.

Lemma run_load_int a h z : cells h !! a = Some (VInt z) → load_int a h = Some (z, h).
Proof. intros Ha. unfold load_int, bind, load. by rewrite Ha. Qed.

Lemma run_load_bool a h x : cells h !! a = Some (VBool x) → load_bool a h = Some (x, h).
Proof. intros Ha. unfold load_bool, bind, load. by rewrite Ha. Qed.

Lemma run_load_ptr a h q : cells h !! a = Some (VPtr q) → load_ptr a h = Some (q, h).
Proof. intros Ha. unfold load_ptr, bind, load. by rewrite Ha. Qed.

Lemma run_store a v h w : cells h !! a = Some w → store a v h = Some (tt, put h a v).
Proof. intros Ha. unfold store. by rewrite Ha. Qed.

Lemma run_assert b h : b = true → assert_ b h = Some (tt, h).
Proof. by intros ->. Qed.

Lemma lookup_put h a v a' :
  cells (put h a v) !! a' = if decide (a = a') then Some v else cells h !! a'.
Proof.
  unfold put. simpl. case_decide as Hd.
  - subst a'. apply lookup_insert_eq.
  - by apply lookup_insert_ne.
Qed.

Lemma lookup_put_block h blk off v blk' off' :
  blk ≠ blk' → cells (put h (blk, off) v) !! (blk', off') = cells h !! (blk', off').
Proof. intros Hne. rewrite lookup_put. rewrite decide_False; [done|]. congruence. Qed.

(** *** Frames *)

Lemma only_refl S h : only S h h.
Proof. by split. Qed.

Lemma only_trans S h1 h2 h3 : only S h1 h2 → only S h2 h3 → only S h1 h3.
Proof.
  intros [Hn1 H1] [Hn2 H2]. split; [congruence|].
  intros blk off Hb. rewrite H2 by done. by apply H1.
Qed.

Lemma only_mono (S S' : region) h h' : (∀ blk, S blk → S' blk) → only S h h' → only S' h h'.
Proof. intros HS [Hn H]. split; [done|]. intros blk off Hb. apply H. auto. Qed.

Lemma only_put (S : region) h blk off v : S blk → only S h (put h (blk, off) v).
Proof.
  intros Hs. split; [done|]. intros blk' off' Hb.
  apply lookup_put_block. by intros ->.
Qed.

Lemma frame_refl S h : frame S h h.
Proof. by split. Qed.

Lemma frame_trans S h1 h2 h3 : frame S h1 h2 → frame S h2 h3 → frame S h1 h3.
Proof.
  intros [Hn1 H1] [Hn2 H2]. split; [lia|].
  intros blk off Hb Hlt. rewrite H2; [by apply H1|done|lia].
Qed.

Lemma only_frame S h h' : only S h h' → frame S h h'.
Proof. intros [Hn H]. split; [lia|]. intros blk off Hb _. by apply H. Qed.

Lemma frame_mono (S S' : region) h h' : (∀ blk, S blk → S' blk) → frame S h h' → frame S' h h'.
Proof. intros HS [Hn H]. split; [done|]. intros blk off Hb. apply H. auto. Qed.

(** *** Heatmaps *)

Lemma hm_repr_only h h' s m hm (S : region) :
  hm_repr h s m hm → only S h h' → ¬ S s → ¬ S m → hm_repr h' s m hm.
Proof.
  intros (H1 & H2 & H3 & H4) [_ Ho] Hs Hm.
  split; [|split; [|split]]; try (rewrite Ho by done; done).
  intros k Hk. rewrite Ho by done. by apply H4.
Qed.

Lemma hm_put_count h s m hm c :
  hm_repr h s m hm → s ≠ m →
  hm_repr (put h (s, f_count) (VInt c)) s m (Heatmap (h_len hm) c (h_map hm)).
Proof.
  intros (H1 & H2 & H3 & H4) Hne. unfold hm_repr. cbn [h_len h_count h_map].
  rewrite !lookup_put. rewrite decide_False by done.
  rewrite decide_True by done. rewrite decide_False by done.
  split; [done|]. split; [done|]. split; [done|].
  intros k Hk. rewrite lookup_put_block by done. by apply H4.
Qed.

Lemma hm_put_bit h s m hm k x :
  hm_repr h s m hm → s ≠ m → length (h_map hm) = Z.to_nat (h_len hm) →
  0 ≤ k < h_len hm →
  hm_repr (put h (m, k) (VBool x)) s m
          (Heatmap (h_len hm) (h_count hm) (upd (h_map hm) k (λ _, x))).
Proof.
  intros (H1 & H2 & H3 & H4) Hne Hlen Hk. unfold hm_repr. cbn [h_len h_count h_map].
  rewrite !lookup_put_block by done.
  split; [done|]. split; [done|]. split; [done|].
  intros k' Hk'. rewrite lookup_put. rewrite get_upd by lia.
  destruct (decide (k = k')) as [->|Hd].
  - by rewrite decide_True.
  - rewrite decide_False by congruence. by apply H4.
Qed.

Section heatmap_sim.
  Context (h : mem) (s m : block) (hm : heatmap) (val : Z).
  Hypothesis Hrepr : hm_repr h s m hm.
  Hypothesis Hne : s ≠ m.
  Hypothesis Hlen : length (h_map hm) = Z.to_nat (h_len hm).
  Hypothesis Hval : 0 < val ≤ h_len hm.

Lemma run_check_val : check_val (s, 0) val h = Some (tt, h).
  Proof using Hrepr Hval.
    clear Hne Hlen. destruct Hrepr as (H1 & _). unfold check_val.
    rewrite (bind_run _ _ _ tt h); [|apply run_assert; lia].
    rewrite (bind_run _ _ _ (h_len hm) h); [|by apply run_load_int].
    apply run_assert. lia.
  Qed.

Lemma heatmap_check_sim :
    Heap.heatmap_check (s, 0) val h = Some (v_heatmap_check hm val, h).
  Proof using Hrepr Hval.
    clear Hne Hlen. unfold Heap.heatmap_check. rewrite (bind_run _ _ _ _ _ run_check_val).
    destruct Hrepr as (H1 & H2 & H3 & H4).
    rewrite (bind_run _ _ _ (m, 0) h); [|by apply run_load_ptr].
    apply run_load_bool. unfold shift. simpl. apply H4. lia.
  Qed.

Lemma heatmap_flip_sim :
    ∃ h', Heap.heatmap_flip (s, 0) val h = Some ((v_heatmap_flip hm val).1, h') ∧
          hm_repr h' s m (v_heatmap_flip hm val).2 ∧ only (two s m) h h'.
  Proof using All.
    unfold Heap.heatmap_flip. rewrite (bind_run _ _ _ _ _ run_check_val).
    pose proof Hrepr as (H1 & H2 & H3 & H4).
    rewrite (bind_run _ _ _ (m, 0) h); [|by apply run_load_ptr].
    rewrite (bind_run _ _ _ (get (h_map hm) (val - 1)) h);
      [|apply run_load_bool; unfold shift; simpl; apply H4; lia].
    rewrite (bind_run _ _ _ (h_count hm) h); [|by apply run_load_int].
    unfold v_heatmap_flip.
    destruct (get (h_map hm) (val - 1)).
    - rewrite (bind_run _ _ _ tt _ (run_store _ _ _ _ H2)).
      pose proof (hm_put_count h s m hm (decr (h_count hm)) Hrepr Hne) as Hr1.
      destruct Hr1 as (H1' & H2' & H3' & H4').
      rewrite (bind_run _ _ _ tt _ (run_store _ _ _ _ (H4' (val - 1) ltac:(simpl; lia)))).
      eexists. split; [reflexivity|]. split.
      + apply (hm_put_bit _ s m (Heatmap (h_len hm) (decr (h_count hm)) (h_map hm)));
          [done|done|done|simpl; lia].
      + eapply only_trans; apply only_put; [by left|by right].
    - rewrite (bind_run _ _ _ tt _ (run_store _ _ _ _ H2)).
      pose proof (hm_put_count h s m hm (incr (h_count hm)) Hrepr Hne) as Hr1.
      destruct Hr1 as (H1' & H2' & H3' & H4').
      rewrite (bind_run _ _ _ tt _ (run_store _ _ _ _ (H4' (val - 1) ltac:(simpl; lia)))).
      eexists. split; [reflexivity|]. split.
      + apply (hm_put_bit _ s m (Heatmap (h_len hm) (incr (h_count hm)) (h_map hm)));
          [done|done|done|simpl; lia].
      + eapply only_trans; apply only_put; [by left|by right].
  Qed.

Lemma heatmap_off_sim :
    ∃ h', Heap.heatmap_off (s, 0) val h = Some (tt, h') ∧
          hm_repr h' s m (v_heatmap_off hm val) ∧ only (two s m) h h'.
  Proof using All.
    unfold Heap.heatmap_off. rewrite (bind_run _ _ _ _ _ run_check_val).
    pose proof Hrepr as (H1 & H2 & H3 & H4).
    rewrite (bind_run _ _ _ (m, 0) h); [|by apply run_load_ptr].
    rewrite (bind_run _ _ _ (get (h_map hm) (val - 1)) h);
      [|apply run_load_bool; unfold shift; simpl; apply H4; lia].
    unfold v_heatmap_off.
    destruct (get (h_map hm) (val - 1)).
    - rewrite bind_assoc.
      rewrite (bind_run _ _ _ (h_count hm) h); [|by apply run_load_int].
      rewrite (bind_run _ _ _ tt _ (run_store _ _ _ _ H2)).
      pose proof (hm_put_count h s m hm (decr (h_count hm)) Hrepr Hne) as Hr1.
      destruct Hr1 as (H1' & H2' & H3' & H4').
      rewrite (run_store _ _ _ _ (H4' (val - 1) ltac:(simpl; lia))).
      eexists. split; [reflexivity|]. split.
      + apply (hm_put_bit _ s m (Heatmap (h_len hm) (decr (h_count hm)) (h_map hm)));
          [done|done|done|simpl; lia].
      + eapply only_trans; apply only_put; [by left|by right].
    - rewrite (bind_run _ _ _ tt h eq_refl).
      rewrite (run_store _ _ _ _ (H4 (val - 1) ltac:(lia))).
      eexists. split; [reflexivity|]. split.
      + apply hm_put_bit; [done|done|done|lia].
      + apply only_put. by right.
  Qed.

Lemma heatmap_on_sim :
    ∃ h', Heap.heatmap_on (s, 0) val h = Some (tt, h') ∧
          hm_repr h' s m (v_heatmap_on hm val) ∧ only (two s m) h h'.
  Proof using All.
    unfold Heap.heatmap_on. rewrite (bind_run _ _ _ _ _ run_check_val).
    pose proof Hrepr as (H1 & H2 & H3 & H4).
    rewrite (bind_run _ _ _ (m, 0) h); [|by apply run_load_ptr].
    rewrite (bind_run _ _ _ (get (h_map hm) (val - 1)) h);
      [|apply run_load_bool; unfold shift; simpl; apply H4; lia].
    unfold v_heatmap_on.
    destruct (get (h_map hm) (val - 1)); cbn [negb].
    - rewrite (bind_run _ _ _ tt h eq_refl).
      rewrite (run_store _ _ _ _ (H4 (val - 1) ltac:(lia))).
      eexists. split; [reflexivity|]. split.
      + apply hm_put_bit; [done|done|done|lia].
      + apply only_put. by right.
    - rewrite bind_assoc.
      rewrite (bind_run _ _ _ (h_count hm) h); [|by apply run_load_int].
      rewrite (bind_run _ _ _ tt _ (run_store _ _ _ _ H2)).
      pose proof (hm_put_count h s m hm (incr (h_count hm)) Hrepr Hne) as Hr1.
      destruct Hr1 as (H1' & H2' & H3' & H4').
      rewrite (run_store _ _ _ _ (H4' (val - 1) ltac:(simpl; lia))).
      eexists. split; [reflexivity|]. split.
      + apply (hm_put_bit _ s m (Heatmap (h_len hm) (incr (h_count hm)) (h_map hm)));
          [done|done|done|simpl; lia].
      + eapply only_trans; apply only_put; [by left|by right].
  Qed.
End heatmap_sim.

(** *** Loops *)

Lemma for_list_sim {St : Type} (J : St → mem → Prop) hbody (vbody : Z → St → St) l s h :
  J s h →
  (∀ i s h, i ∈ l → J s h → ∃ h', hbody i h = Some (tt, h') ∧ J (vbody i s) h') →
  ∃ h', Heap.for_list hbody l h = Some (tt, h') ∧ J (foldl (λ s i, vbody i s) s l) h'.
Proof.
  revert s h. induction l as [|i l IH]; intros s h HJ Hbody; simpl.
  - by exists h.
  - destruct (Hbody i s h ltac:(left) HJ) as (h1 & Hrun & HJ1).
    rewrite (bind_run _ _ _ _ _ Hrun). apply IH; [done|].
    intros. apply Hbody; [by right|done].
Qed.

(** A [for] loop on the heap against [for_each] on values. *)
Lemma for_sim {St : Type} (J : St → mem → Prop) lo hi hbody (vbody : Z → St → St) s h :
  J s h →
  (∀ i s h, lo ≤ i < hi → J s h → ∃ h', hbody i h = Some (tt, h') ∧ J (vbody i s) h') →
  ∃ h', for_ lo hi hbody h = Some (tt, h') ∧ J (for_each lo hi vbody s) h'.
Proof.
  intros HJ Hbody. apply for_list_sim; [done|].
  intros i s' h' Hi. apply Hbody. apply elem_of_seqZ in Hi. lia.
Qed.

(** A [for] loop with an invariant in the loop variable. *)
Lemma for_ind (J : Z → mem → Prop) lo hi hbody h :
  lo ≤ hi → J lo h →
  (∀ i h, lo ≤ i < hi → J i h → ∃ h', hbody i h = Some (tt, h') ∧ J (i + 1) h') →
  ∃ h', for_ lo hi hbody h = Some (tt, h') ∧ J hi h'.
Proof.
  intros Hle HJ Hbody. unfold for_.
  remember (Z.to_nat (hi - lo)) as k eqn:Hk.
  revert lo h Hle HJ Hbody Hk. induction k as [|k IH]; intros lo h Hle HJ Hbody Hk.
  - replace hi with lo in * by lia. rewrite Z.sub_diag. by exists h.
  - rewrite (seqZ_cons lo) by lia. simpl.
    destruct (Hbody lo h ltac:(lia) HJ) as (h1 & Hrun & HJ1).
    rewrite (bind_run _ _ _ _ _ Hrun).
    replace (Z.succ lo) with (lo + 1) by lia.
    replace (Z.pred (hi - lo)) with (hi - (lo + 1)) by lia.
    apply IH; [lia|done| |lia].
    intros i h2 Hi. apply Hbody. lia.
Qed.

(** *** [heatmap_copy] and [heatmap_create] *)

Lemma heatmap_copy_sim h s m hd s' m' hs :
  hm_repr h s m hd → hm_repr h s' m' hs →
  s ≠ m → ¬ two s m s' → ¬ two s m m' →
  length (h_map hd) = Z.to_nat (h_len hd) → h_len hd = h_len hs →
  ∃ h', Heap.heatmap_copy (s, 0) (s', 0) h = Some (tt, h') ∧
        hm_repr h' s m (v_heatmap_copy hd hs) ∧ only (two s m) h h'.
Proof.
  intros Hd Hs Hne Hs' Hm' Hlen Heq.
  unfold Heap.heatmap_copy.
  rewrite (bind_run _ _ _ (h_len hd) h); [|apply run_load_int, Hd].
  rewrite (bind_run _ _ _ (h_len hs) h); [|apply run_load_int, Hs].
  rewrite (bind_run _ _ _ tt h); [|apply run_assert; lia].
  unfold v_heatmap_copy.
  pose (J := λ (d : heatmap) (h' : mem),
          hm_repr h' s m d ∧ h_len d = h_len hd ∧
          length (h_map d) = Z.to_nat (h_len hd) ∧ only (two s m) h h').
  destruct (for_sim J 1 (h_len hd + 1)
              (λ i, bind (Heap.heatmap_off (s, 0) i)
                      (λ _, bind (Heap.heatmap_check (s', 0) i)
                         (λ x, if x then bind (Heap.heatmap_flip (s, 0) i) (λ _, ret tt)
                               else ret tt)))
              (λ i dest, let dest := v_heatmap_off dest i in
                         if v_heatmap_check hs i then (v_heatmap_flip dest i).2 else dest)
              hd h) as (h' & Hrun & HJ & _ & _ & Ho).
  { split; [done|]. split; [done|]. split; [done|]. apply only_refl. }
  { intros i d h1 Hi (Hd1 & Hl1 & Hm1 & Ho1).
    destruct (heatmap_off_sim h1 s m d i Hd1 Hne) as (h2 & Hrun2 & Hd2 & Ho2);
      [congruence|lia|].
    rewrite (bind_run _ _ _ _ _ Hrun2).
    assert (hm_repr h2 s' m' hs) as Hs2.
    { apply (hm_repr_only h _ s' m' hs (two s m)); [done| |done|done].
      by apply (only_trans _ _ h1). }
    rewrite (bind_run _ _ _ _ _ (heatmap_check_sim h2 s' m' hs i Hs2 ltac:(lia))).
    cbv zeta.
    assert (h_len (v_heatmap_off d i) = h_len hd) as Hl2 by done.
    assert (length (h_map (v_heatmap_off d i)) = Z.to_nat (h_len hd)) as Hm2.
    { simpl. by rewrite length_upd. }
    destruct (v_heatmap_check hs i).
    - destruct (heatmap_flip_sim h2 s m (v_heatmap_off d i) i Hd2 Hne)
        as (h3 & Hrun3 & Hd3 & Ho3); [congruence|lia|].
      rewrite (bind_run _ _ _ _ _ Hrun3). eexists. split; [reflexivity|].
      split; [done|]. split; [|split].
      + unfold v_heatmap_flip. by destruct (get _ _).
      + unfold v_heatmap_flip. destruct (get _ _); simpl; by rewrite !length_upd.
      + apply (only_trans _ _ h1); [done|]. by apply (only_trans _ _ h2).
    - eexists. split; [reflexivity|]. split; [done|]. split; [done|]. split; [done|].
      by apply (only_trans _ _ h1). }
  by exists h'.
Qed.

Lemma heatmap_create_sim h len :
  mem_ok h → 0 < len →
  ∃ h', Heap.heatmap_create len h = Some ((next h, 0), h') ∧
        hm_repr h' (next h) (S (next h)) (v_heatmap_create len) ∧
        next h' = S (S (next h)) ∧
        ∀ blk off, (blk < next h)%nat → cells h' !! (blk, off) = cells h !! (blk, off).
Proof.
  intros Hok Hlen. unfold Heap.heatmap_create.
  rewrite (bind_run _ _ _ tt h); [|apply run_assert; lia].
  rewrite (bind_run _ _ _ (next h, 0) (alloc h 3) eq_refl).
  set (nb := next h). set (h1 := alloc h 3).
  assert (∀ off, 0 ≤ off < 3 → cells h1 !! (nb, off) = Some VUndef) as H1.
  { intros off Hoff. unfold h1. rewrite HeapFacts.lookup_alloc. by rewrite decide_True. }
  unfold shift. cbn [fst snd Z.add f_len f_count f_map].
  rewrite (bind_run _ _ _ tt _ (run_store _ (VInt len) _ _ (H1 0 ltac:(lia)))).
  set (h2 := put h1 (nb, 0) (VInt len)).
  assert (cells h2 !! (nb, 1) = Some VUndef) as H2.
  { unfold h2. rewrite lookup_put. rewrite decide_False by done. apply H1. lia. }
  rewrite (bind_run _ _ _ tt _ (run_store _ (VInt 0) _ _ H2)).
  set (h3 := put h2 (nb, 1) (VInt 0)).
  rewrite (bind_run (malloc len) _ h3 (S nb, 0) (alloc h3 len) eq_refl).
  set (h4 := alloc h3 len).
  assert (∀ blk off, cells h4 !! (blk, off) =
            if decide (blk = S nb ∧ 0 ≤ off < len) then Some VUndef
            else cells h3 !! (blk, off)) as H4.
  { intros blk off. unfold h4. by rewrite HeapFacts.lookup_alloc. }
  assert (cells h4 !! (nb, 2) = Some VUndef) as H4'.
  { rewrite H4. rewrite decide_False by lia. unfold h3, h2.
    rewrite !lookup_put. rewrite !decide_False by done. apply H1. lia. }
  cbn [fst snd]. change (0 + f_map) with 2.
  rewrite (bind_run _ _ _ tt _ (run_store _ (VPtr (S nb, 0)) _ _ H4')).
  set (h5 := put h4 (nb, 2) (VPtr (S nb, 0))).
  pose (J := λ (i : Z) (h' : mem),
          (∀ k, 0 ≤ k < i → cells h' !! (S nb, k) = Some (VBool false)) ∧
          (∀ k, i ≤ k < len → cells h' !! (S nb, k) = Some VUndef) ∧
          only (eq (S nb)) h5 h').
  destruct (for_ind J 0 len (λ i, store (S nb, 0 + i) (VBool false)) h5)
    as (h6 & Hrun & Hdone & _ & Hn6 & Ho6).
  { lia. }
  { split; [intros; lia|]. split; [|apply only_refl].
    intros k Hk. unfold h5. rewrite lookup_put_block by lia. rewrite H4.
    by rewrite decide_True. }
  { intros i h' Hi (Hlo & Hhi & Ho).
    rewrite (run_store _ _ _ _ (Hhi i ltac:(lia))). eexists. split; [done|].
    split; [|split].
    - intros k Hk. rewrite lookup_put. case_decide as Hd; [done|].
      apply Hlo. assert (k ≠ i) by congruence. lia.
    - intros k Hk. rewrite lookup_put. rewrite decide_False by (intros [= ?]; lia).
      apply Hhi. lia.
    - apply (only_trans _ _ h'); [done|]. by apply only_put. }
  rewrite (bind_run _ _ _ _ _ Hrun). eexists. split; [reflexivity|].
  assert (∀ off, cells h6 !! (nb, off) = cells h5 !! (nb, off)) as Hnb.
  { intros off. apply Ho6. lia. }
  split; [|split].
  - unfold hm_repr. cbn [v_heatmap_create h_len h_count h_map f_len f_count f_map].
    rewrite !Hnb. unfold h5. rewrite !lookup_put. rewrite !decide_False by done.
    rewrite decide_True by done. rewrite !H4. rewrite !decide_False by lia.
    unfold h3. rewrite !lookup_put. rewrite decide_False by done.
    rewrite decide_True by done. unfold h2. rewrite lookup_put.
    rewrite decide_True by done.
    split; [done|]. split; [done|]. split; [done|].
    intros k Hk. rewrite get_replicate by lia. by apply Hdone.
  - by rewrite Hn6.
  - intros blk off Hblk. rewrite Ho6 by (unfold nb; lia).
    unfold h5. rewrite lookup_put_block by (unfold nb; lia).
    rewrite H4. rewrite decide_False by (unfold nb; lia).
    unfold h3, h2. rewrite !lookup_put_block by (unfold nb; lia).
    unfold h1. rewrite HeapFacts.lookup_alloc. rewrite decide_False by lia. done.
Qed.

End HeapSim.

(** ** The heap: boards *)

Module HeapBoard.

Local Abbreviation v_heatmap_check := heatmap_check.
Local Abbreviation v_heatmap_flip := heatmap_flip.
Local Abbreviation v_heatmap_off := heatmap_off.
Local Abbreviation v_heatmap_copy := heatmap_copy.
Local Abbreviation v_heatmap_create := heatmap_create.
Local Abbreviation v_board_insert := board_insert.
Local Abbreviation v_board_get_size := board_get_size.
Local Abbreviation v_board_copy := board_copy.
Local Abbreviation v_for_list := for_list.

Import Heap.
Import HeapSim.

Lemma in_range_spec n i : in_range n i = true ↔ 0 ≤ i < n.
Proof. unfold in_range. rewrite andb_true_iff, Z.leb_le, Z.ltb_lt. done. Qed.

Lemma in_range_true n i : 0 ≤ i < n → in_range n i = true.
Proof. apply in_range_spec. Qed.

Lemma hm_set_size b pl f : b_size (hm_set b pl f) = b_size b.
Proof. by destruct pl. Qed.

Lemma shape_hm_at b pl :
  shape b → valid_place (b_size b) pl = true → hm_ok (b_size b) (hm_at b pl).
Proof.
  intros Hs Hpl. destruct pl as [i|i|i|i j]; simpl in *.
  - apply in_range_spec in Hpl.
    apply (Forall_get (hm_ok (b_size b))); [apply Hs|]. rewrite (shape_rows _ Hs). lia.
  - apply in_range_spec in Hpl.
    apply (Forall_get (hm_ok (b_size b))); [apply Hs|]. rewrite (shape_cols _ Hs). lia.
  - apply in_range_spec in Hpl.
    apply (Forall_get (hm_ok (b_size b))); [apply Hs|]. rewrite (shape_boxs _ Hs). lia.
  - apply andb_true_iff in Hpl as [Hi%in_range_spec Hj%in_range_spec].
    unfold get2.
    pose proof (Forall_get _ _ i (shape_notes_rows _ Hs)) as Hrow. simpl in Hrow.
    destruct Hrow as [Hlen Hall]; [rewrite (shape_notes _ Hs); lia|].
    apply (Forall_get (hm_ok (b_size b))); [done|]. rewrite Hlen. lia.
Qed.

Lemma shape_hm_set b pl f :
  shape b → (∀ h, hm_ok (b_size b) h → hm_ok (b_size b) (f h)) → shape (hm_set b pl f).
Proof.
  intros Hs Hf. destruct pl; simpl.
  - by apply shape_set_rows.
  - by apply shape_set_cols.
  - by apply shape_set_boxs.
  - by apply shape_upd_note.
Qed.

Lemma hm_at_set_eq b pl f :
  shape b → valid_place (b_size b) pl = true → hm_at (hm_set b pl f) pl = f (hm_at b pl).
Proof.
  intros Hs Hpl. destruct pl as [i|i|i|i j]; simpl in *.
  - apply in_range_spec in Hpl. apply get_upd_eq. rewrite (shape_rows _ Hs). lia.
  - apply in_range_spec in Hpl. apply get_upd_eq. rewrite (shape_cols _ Hs). lia.
  - apply in_range_spec in Hpl. apply get_upd_eq. rewrite (shape_boxs _ Hs). lia.
  - apply andb_true_iff in Hpl as [Hi%in_range_spec Hj%in_range_spec].
    rewrite (get2_upd2 _ _ _ _ _ _ (b_size b));
      [|apply Hs|by apply shape_notes_len|lia..].
    by rewrite decide_True.
Qed.

Lemma hm_at_set_ne b pl pl' f :
  shape b → valid_place (b_size b) pl = true → valid_place (b_size b) pl' = true →
  pl ≠ pl' → hm_at (hm_set b pl f) pl' = hm_at b pl'.
Proof.
  intros Hs Hpl Hpl' Hne.
  destruct pl as [i|i|i|i j], pl' as [i'|i'|i'|i' j']; simpl in *; try done.
  - apply in_range_spec in Hpl, Hpl'. apply get_upd_ne; [lia..|congruence].
  - apply in_range_spec in Hpl, Hpl'. apply get_upd_ne; [lia..|congruence].
  - apply in_range_spec in Hpl, Hpl'. apply get_upd_ne; [lia..|congruence].
  - apply andb_true_iff in Hpl as [Hi%in_range_spec Hj%in_range_spec].
    apply andb_true_iff in Hpl' as [Hi'%in_range_spec Hj'%in_range_spec].
    rewrite (get2_upd2 _ _ _ _ _ _ (b_size b));
      [|apply Hs|by apply shape_notes_len|lia..].
    rewrite decide_False; [done|]. intros [-> ->]. done.
Qed.

Lemma content_hm_set L b pl f c off :
  shape b → valid_place (b_size b) pl = true → valid (b_size b) c = true →
  c ≠ CHm pl → c ≠ CMap pl →
  content L (hm_set b pl f) c off = content L b c off.
Proof.
  intros Hs Hpl Hc H1 H2.
  destruct c as [| |i| | | | | |i|pl'|pl']; try (by destruct pl).
  - unfold content. rewrite hm_at_set_ne; [done..|congruence].
  - unfold content. rewrite hm_at_set_ne; [done..|congruence].
Qed.

Section board_sim.
  Context (L : layout) (n : Z) (p : addr).
  Hypothesis HL : layout_ok L n.

Lemma repr_hm h b pl :
    repr L h p b → b_size b = n → valid_place n pl = true →
    hm_repr h (L (CHm pl)) (L (CMap pl)) (hm_at b pl) ∧ L (CHm pl) ≠ L (CMap pl).
  Proof using HL.
    intros [_ Hr] Hn Hpl. subst n. split.
    - split; [|split; [|split]].
      + by apply Hr.
      + by apply Hr.
      + by apply Hr.
      + intros k Hk. apply Hr; [done|]. simpl. by rewrite in_range_true.
    - intros Heq. by apply HL in Heq.
  Qed.

  (** A store into a cell of the board. *)
Lemma repr_put h b b' c0 off0 v' :
    repr L h p b → b_size b = n → b_size b' = n → valid n c0 = true →
    content L b' c0 off0 = Some v' →
    (∀ c off, valid n c = true → (c, off) ≠ (c0, off0) →
              content L b' c off = content L b c off) →
    repr L (put h (L c0, off0) v') p b'.
  Proof using HL.
    intros [Hp Hr] Hn Hn' Hc0 Hnew Hold. split; [done|].
    rewrite Hn'. intros c off v Hc Hcont. rewrite lookup_put.
    case_decide as Hd.
    - injection Hd as Heq ->. apply HL in Heq; [|done..]. subst c. congruence.
    - rewrite Hold in Hcont; [|done|congruence]. apply Hr; [by rewrite Hn|done].
  Qed.

  (** An update of one heatmap of the board. *)
Lemma repr_hm_set h b pl f h' :
    repr L h p b → b_size b = n → shape b → valid_place n pl = true →
    hm_repr h' (L (CHm pl)) (L (CMap pl)) (f (hm_at b pl)) →
    only (two (L (CHm pl)) (L (CMap pl))) h h' →
    repr L h' p (hm_set b pl f).
  Proof using HL.
    intros [Hp Hr] Hn Hs Hpl (H1 & H2 & H3 & H4) [_ Ho]. subst n. split; [done|].
    rewrite hm_set_size. intros c off v Hc Hcont.
    destruct (decide (c = CHm pl)) as [->|Hne1].
    { unfold content in Hcont. rewrite hm_at_set_eq in Hcont by done.
      destruct (off =? f_len) eqn:E1; [apply Z.eqb_eq in E1 as ->; congruence|].
      destruct (off =? f_count) eqn:E2; [apply Z.eqb_eq in E2 as ->; congruence|].
      destruct (off =? f_map) eqn:E3; [apply Z.eqb_eq in E3 as ->; congruence|]. done. }
    destruct (decide (c = CMap pl)) as [->|Hne2].
    { unfold content in Hcont. rewrite hm_at_set_eq in Hcont by done.
      destruct (in_range _ off) eqn:E; [|done]. apply in_range_spec in E.
      rewrite (H4 off E). done. }
    rewrite content_hm_set in Hcont by done.
    rewrite Ho; [by apply Hr|].
    intros [Heq|Heq]; apply HL in Heq; done.
  Qed.

Lemma blocks_of_valid c : valid n c = true → blocks_of L n (L c).
  Proof. intros Hc. by exists c. Qed.

Lemma holds_hm_set h0 b h pl f h' :
    holds L n p h0 b h → valid_place n pl = true →
    (∀ hm, hm_ok n hm → hm_ok n (f hm)) →
    hm_repr h' (L (CHm pl)) (L (CMap pl)) (f (hm_at b pl)) →
    only (two (L (CHm pl)) (L (CMap pl))) h h' →
    holds L n p h0 (hm_set b pl f) h'.
  Proof using HL.
    intros (Hr & Hn & Hs & Ho) Hpl Hf Hr' Ho'. split; [|split; [|split]].
    - by apply (repr_hm_set h).
    - by rewrite hm_set_size.
    - apply shape_hm_set; [done|]. by rewrite Hn.
    - apply (only_trans _ _ h); [done|]. eapply only_mono; [|done].
      intros blk [->| ->]; by apply blocks_of_valid.
  Qed.

  Section steps.
    Context (h0 : mem) (b : board) (h : mem).
    Hypothesis HJ : holds L n p h0 b h.

Lemma holds_cell c off v :
      valid n c = true → content L b c off = Some v → cells h !! (L c, off) = Some v.
    Proof using HJ HL.
      destruct HJ as ([_ Hr] & Hn & _). intros Hc. apply Hr. by rewrite Hn.
    Qed.

Lemma holds_p : p = (L CBoard, 0).
    Proof using HJ. apply HJ. Qed.

Lemma run_size : board_get_size p h = Some (n, h).
    Proof using HJ HL.
      rewrite holds_p. apply run_load_int. apply holds_cell; [done|].
      destruct HJ as (_ & <- & _). done.
    Qed.

Lemma run_elem f i c (ci : Z → comp) :
      content L b CBoard f = Some (VPtr (L c, 0)) → valid n c = true →
      0 ≤ i < n → content L b c i = Some (VPtr (L (ci i), 0)) →
      elem p f i h = Some ((L (ci i), 0), h).
    Proof using HJ HL.
      intros Hf Hc Hi Hci. unfold elem. rewrite holds_p.
      rewrite (bind_run _ _ _ (L c, 0) h); [|by apply run_load_ptr, holds_cell].
      apply run_load_ptr. by apply holds_cell.
    Qed.

Lemma size_n : b_size b = n.
    Proof using HJ. apply HJ. Qed.

Lemma run_elem_data i :
      0 ≤ i < n → elem p f_data i h = Some ((L (CDataRow i), 0), h).
    Proof using HJ HL.
      intros Hi. apply (run_elem f_data i CData CDataRow); [done..|].
      simpl. by rewrite size_n, in_range_true.
    Qed.

Lemma run_elem_rows i :
      0 ≤ i < n → elem p f_rows i h = Some ((L (CHm (PRow i)), 0), h).
    Proof using HJ HL.
      intros Hi. apply (run_elem f_rows i CRows (λ i, CHm (PRow i))); [done..|].
      simpl. by rewrite size_n, in_range_true.
    Qed.

Lemma run_elem_cols i :
      0 ≤ i < n → elem p f_cols i h = Some ((L (CHm (PCol i)), 0), h).
    Proof using HJ HL.
      intros Hi. apply (run_elem f_cols i CCols (λ i, CHm (PCol i))); [done..|].
      simpl. by rewrite size_n, in_range_true.
    Qed.

Lemma run_elem_boxs i :
      0 ≤ i < n → elem p f_boxs i h = Some ((L (CHm (PBox i)), 0), h).
    Proof using HJ HL.
      intros Hi. apply (run_elem f_boxs i CBoxs (λ i, CHm (PBox i))); [done..|].
      simpl. by rewrite size_n, in_range_true.
    Qed.

Lemma run_note_at i j :
      0 ≤ i < n → 0 ≤ j < n → note_at p i j h = Some ((L (CHm (PNote i j)), 0), h).
    Proof using HJ HL.
      intros Hi Hj. unfold note_at.
      rewrite (bind_run _ _ _ (L (CNotesRow i), 0) h).
      - apply run_load_ptr. apply holds_cell; [simpl; by apply in_range_true|].
        simpl. by rewrite size_n, in_range_true.
      - apply (run_elem f_notes i CNotes CNotesRow); [done..|].
        simpl. by rewrite size_n, in_range_true.
    Qed.

Lemma run_load_cell i j :
      0 ≤ i < n → 0 ≤ j < n →
      load_int (shift (L (CDataRow i), 0) j) h = Some (get2 (b_data b) i j, h).
    Proof using HJ HL.
      intros Hi Hj. apply run_load_int. apply holds_cell; [simpl; by apply in_range_true|].
      simpl. by rewrite size_n, in_range_true.
    Qed.

Lemma holds_hm pl :
      valid_place n pl = true →
      hm_repr h (L (CHm pl)) (L (CMap pl)) (hm_at b pl) ∧ L (CHm pl) ≠ L (CMap pl) ∧
      hm_ok n (hm_at b pl).
    Proof using HJ HL.
      intros Hpl. destruct HJ as (Hr & Hn & Hs & _).
      destruct (repr_hm h b pl Hr Hn Hpl) as [H1 H2]. split; [done|]. split; [done|].
      rewrite <- Hn. apply shape_hm_at; [done|]. by rewrite Hn.
    Qed.

Lemma run_check pl val :
      valid_place n pl = true → 0 < val ≤ n →
      Heap.heatmap_check (L (CHm pl), 0) val h = Some (v_heatmap_check (hm_at b pl) val, h).
    Proof using HJ HL.
      intros Hpl Hval. destruct (holds_hm pl Hpl) as (Hr & Hne & Hok).
      apply (heatmap_check_sim h _ (L (CMap pl))); [done|].
      destruct Hok as (-> & _). done.
    Qed.

Lemma step_flip pl val :
      valid_place n pl = true → 0 < val ≤ n →
      ∃ h', Heap.heatmap_flip (L (CHm pl), 0) val h =
              Some ((v_heatmap_flip (hm_at b pl) val).1, h') ∧
            holds L n p h0 (hm_set b pl (λ hm, (v_heatmap_flip hm val).2)) h'.
    Proof using HJ HL.
      intros Hpl Hval. destruct (holds_hm pl Hpl) as (Hr & Hne & Hok).
      pose proof Hok as (Hlen & _ & Hmap & _).
      destruct (heatmap_flip_sim h _ _ _ val Hr Hne) as (h' & Hrun & Hr' & Ho');
        [congruence|lia|].
      exists h'. split; [done|]. apply (holds_hm_set h0 b h); try done.
      intros hm Hhm. apply hm_ok_flip; [done|lia].
    Qed.

Lemma step_off pl val :
      valid_place n pl = true → 0 < val ≤ n →
      ∃ h', Heap.heatmap_off (L (CHm pl), 0) val h = Some (tt, h') ∧
            holds L n p h0 (hm_set b pl (λ hm, v_heatmap_off hm val)) h'.
    Proof using HJ HL.
      intros Hpl Hval. destruct (holds_hm pl Hpl) as (Hr & Hne & Hok).
      pose proof Hok as (Hlen & _ & Hmap & _).
      destruct (heatmap_off_sim h _ _ _ val Hr Hne) as (h' & Hrun & Hr' & Ho');
        [congruence|lia|].
      exists h'. split; [done|]. apply (holds_hm_set h0 b h); try done.
      intros hm Hhm. apply hm_ok_off; [done|lia].
    Qed.

Lemma step_note_off i j val :
      0 ≤ i < n → 0 ≤ j < n → 0 < val ≤ n →
      ∃ h', bind (note_at p i j) (λ hp, Heap.heatmap_off hp val) h = Some (tt, h') ∧
            holds L n p h0 (note_off b i j val) h'.
    Proof using HJ HL.
      intros Hi Hj Hval. rewrite (bind_run _ _ _ _ _ (run_note_at i j Hi Hj)).
      apply (step_off (PNote i j)); [|done].
      simpl. by rewrite !in_range_true.
    Qed.

Lemma step_data i j v :
      0 ≤ i < n → 0 ≤ j < n →
      ∃ h', store (shift (L (CDataRow i), 0) j) (VInt v) h = Some (tt, h') ∧
            holds L n p h0 (set_data b (upd2 (b_data b) i j (λ _, v))) h'.
    Proof using HJ HL.
      intros Hi Hj. pose proof HJ as (Hr & Hn & Hs & Ho).
      assert (valid n (CDataRow i) = true) as Hv by (simpl; by apply in_range_true).
      eexists. split.
      { eapply run_store. apply (holds_cell (CDataRow i) j); [done|].
        simpl. by rewrite size_n, in_range_true. }
      split; [|split; [|split]].
      - apply (repr_put h b); [done..| |].
        + simpl. rewrite size_n, in_range_true by done.
          rewrite (get2_upd2 _ _ _ _ _ _ n); [|rewrite <- Hn; apply Hs|rewrite <- Hn; apply Hs|lia..].
          by rewrite decide_True.
        + intros c off Hc Hne.
          destruct c as [| |i'| | | | | |i'|pl'|pl']; try done.
          simpl. destruct (in_range (b_size b) off) eqn:E; [|done].
          rewrite size_n in E. apply in_range_spec in E.
          simpl in Hc. apply in_range_spec in Hc.
          rewrite (get2_upd2 _ _ _ _ _ _ n); [|rewrite <- Hn; apply Hs|rewrite <- Hn; apply Hs|lia..].
          rewrite decide_False; [done|]. intros [-> ->]. done.
      - done.
      - by apply shape_set_data.
      - apply (only_trans _ _ h); [done|]. apply only_put. by apply blocks_of_valid.
    Qed.

Lemma run_app_ptr : load_ptr (shift p f_appearances) h = Some ((L CApp, 0), h).
    Proof using HJ HL.
      rewrite holds_p. apply run_load_ptr. by apply holds_cell.
    Qed.

Lemma run_load_app i :
      0 ≤ i < n → load_int (shift (L CApp, 0) i) h = Some (get (b_appearances b) i, h).
    Proof using HJ HL.
      intros Hi. apply run_load_int. apply holds_cell; [done|].
      simpl. by rewrite size_n, in_range_true.
    Qed.

Lemma step_app i f :
      0 ≤ i < n →
      ∃ h', store (shift (L CApp, 0) i) (VInt (f (get (b_appearances b) i))) h =
              Some (tt, h') ∧
            holds L n p h0 (set_appearances b (upd (b_appearances b) i f)) h'.
    Proof using HJ HL.
      intros Hi. pose proof HJ as (Hr & Hn & Hs & Ho).
      eexists. split.
      { eapply run_store. apply (holds_cell CApp i); [done|].
        simpl. by rewrite size_n, in_range_true. }
      split; [|split; [|split]].
      - apply (repr_put h b); [done..| |].
        + simpl. rewrite size_n, in_range_true by done.
          rewrite get_upd_eq; [done|]. rewrite (shape_appearances _ Hs). lia.
        + intros c off Hc Hne.
          destruct c as [| |i'| | | | | |i'|pl'|pl']; try done.
          simpl. destruct (in_range (b_size b) off) eqn:E; [|done].
          rewrite size_n in E. apply in_range_spec in E.
          rewrite get_upd_ne; [done|lia..|]. intros ->. done.
      - done.
      - by apply shape_set_appearances.
      - apply (only_trans _ _ h); [done|]. apply only_put. by apply blocks_of_valid.
    Qed.

Lemma run_load_total :
      load_int (shift p f_total_appearances) h = Some (b_total_appearances b, h).
    Proof using HJ HL.
      rewrite holds_p. apply run_load_int. by apply holds_cell.
    Qed.

Lemma step_total t :
      ∃ h', store (shift p f_total_appearances) (VInt t) h = Some (tt, h') ∧
            holds L n p h0 (set_total_appearances b t) h'.
    Proof using HJ HL.
      pose proof HJ as (Hr & Hn & Hs & Ho).
      exists (put h (L CBoard, f_total_appearances) (VInt t)). split.
      { rewrite holds_p. eapply run_store. by apply (holds_cell CBoard f_total_appearances). }
      split; [|split; [|split]].
      - apply (repr_put h b); [done..|].
        intros c off Hc Hne.
        destruct c as [| |i'| | | | | |i'|pl'|pl']; try done.
        simpl. repeat (case_match; [done|]).
        destruct (off =? f_total_appearances) eqn:E; [|done].
        apply Z.eqb_eq in E. subst off. done.
      - done.
      - by apply shape_set_total.
      - apply (only_trans _ _ h); [done|]. apply only_put. by apply blocks_of_valid.
    Qed.
  End steps.

  (** [board_insert] on the heap does what [board_insert] does on values. *)
Lemma board_insert_sim h0 b h row col val :
    holds L n p h0 b h → insert_args_ok b row col val = true →
    ∃ st b' h', v_board_insert b row col val = Some (st, b') ∧
                Heap.board_insert p row col val h = Some (st, h') ∧
                holds L n p h0 b' h'.
  Proof using HL.
    intros HJ Hargs. pose proof HJ as (Hr & Hn & Hs & Ho).
    pose proof Hargs as (Hrow & Hcol & Hval)%insert_args_ok_spec.
    unfold idx, is_val in Hrow, Hcol, Hval. rewrite Hn in Hrow, Hcol, Hval.
    assert (0 < val ≤ n) as Hval' by lia. clear Hval. rename Hval' into Hval.
    unfold v_board_insert, Heap.board_insert. rewrite Hargs. cbn [negb].
    rewrite (bind_run _ _ _ _ _ (run_size h0 b h HJ)).
    unfold insert_args_ok, v_board_get_size in Hargs. rewrite Hn in Hargs.
    rewrite (bind_run _ _ _ tt h (run_assert _ _ Hargs)).
    rewrite (bind_run _ _ _ _ _ (run_elem_data h0 b h HJ (row - 1) Hrow)).
    rewrite (bind_run _ _ _ _ _ (run_load_cell h0 b h HJ (row - 1) (col - 1) Hrow Hcol)).
    destruct (negb (get2 (b_data b) (row - 1) (col - 1) =? 0)).
    { by exists ALREADY_FILLED, b, h. }
    rewrite (bind_run _ _ _ _ _ (run_elem_rows h0 b h HJ (row - 1) Hrow)).
    rewrite (bind_run _ _ _ _ _ (run_check h0 b h HJ (PRow (row - 1)) val
                                   (in_range_true _ _ Hrow) Hval)).
    cbn [hm_at]. destruct (v_heatmap_check (get (b_rows b) (row - 1)) val).
    { by exists CONFLICT, b, h. }
    rewrite (bind_run _ _ _ _ _ (run_elem_cols h0 b h HJ (col - 1) Hcol)).
    rewrite (bind_run _ _ _ _ _ (run_check h0 b h HJ (PCol (col - 1)) val
                                   (in_range_true _ _ Hcol) Hval)).
    cbn [hm_at]. destruct (v_heatmap_check (get (b_cols b) (col - 1)) val).
    { by exists CONFLICT, b, h. }
    cbv zeta. unfold v_board_get_size. rewrite Hn.
    set (box := box_finder (row - 1) (col - 1) n).
    assert (0 ≤ box < n) as Hbox.
    { pose proof (box_of_idx b Hs (row - 1) (col - 1)) as Hb.
      unfold idx, box_of, v_board_get_size in Hb. rewrite Hn in Hb. by apply Hb. }
    rewrite (bind_run _ _ _ _ _ (run_elem_boxs h0 b h HJ box Hbox)).
    rewrite (bind_run _ _ _ _ _ (run_check h0 b h HJ (PBox box) val
                                   (in_range_true _ _ Hbox) Hval)).
    cbn [hm_at]. destruct (v_heatmap_check (get (b_boxs b) box) val).
    { by exists CONFLICT, b, h. }
    (* the stores *)
    destruct (step_data h0 b h HJ (row - 1) (col - 1) val Hrow Hcol) as (h1 & Hrun1 & HJ1).
    rewrite (bind_run _ _ _ _ _ Hrun1).
    set (b1 := set_data b (upd2 (b_data b) (row - 1) (col - 1) (λ _, val))) in *.
    rewrite (bind_run _ _ _ _ _ (run_app_ptr h0 b1 h1 HJ1)).
    rewrite (bind_run _ _ _ _ _ (run_load_app h0 b1 h1 HJ1 (val - 1) ltac:(lia))).
    destruct (step_app h0 b1 h1 HJ1 (val - 1) incr ltac:(lia)) as (h2 & Hrun2 & HJ2).
    rewrite (bind_run _ _ _ _ _ Hrun2).
    set (b2 := set_appearances b1 (upd (b_appearances b1) (val - 1) incr)) in *.
    destruct (step_flip h0 b2 h2 HJ2 (PRow (row - 1)) val (in_range_true _ _ Hrow) Hval)
      as (h3 & Hrun3 & HJ3).
    rewrite bind_assoc, (bind_run _ _ _ _ _ Hrun3), (bind_run _ _ _ tt h3 eq_refl).
    set (b3 := hm_set b2 (PRow (row - 1)) (λ hm, (v_heatmap_flip hm val).2)) in *.
    destruct (step_flip h0 b3 h3 HJ3 (PCol (col - 1)) val (in_range_true _ _ Hcol) Hval)
      as (h4 & Hrun4 & HJ4).
    rewrite bind_assoc, (bind_run _ _ _ _ _ Hrun4), (bind_run _ _ _ tt h4 eq_refl).
    set (b4 := hm_set b3 (PCol (col - 1)) (λ hm, (v_heatmap_flip hm val).2)) in *.
    destruct (step_flip h0 b4 h4 HJ4 (PBox box) val (in_range_true _ _ Hbox) Hval)
      as (h5 & Hrun5 & HJ5).
    rewrite bind_assoc, (bind_run _ _ _ _ _ Hrun5), (bind_run _ _ _ tt h5 eq_refl).
    set (b5 := hm_set b4 (PBox box) (λ hm, (v_heatmap_flip hm val).2)) in *.
    (* the notes of the square, its row and its column *)
    destruct (for_sim (holds L n p h0) 0 n
                (λ i, bind (bind (note_at p (row - 1) (col - 1))
                              (λ hp, Heap.heatmap_off hp (i + 1)))
                        (λ _, bind (bind (note_at p i (col - 1))
                                      (λ hp, Heap.heatmap_off hp val))
                                (λ _, bind (note_at p (row - 1) i)
                                        (λ hp, Heap.heatmap_off hp val))))
                (λ i b, note_off (note_off (note_off b (row - 1) (col - 1) (i + 1))
                                           i (col - 1) val)
                                 (row - 1) i val)
                b5 h5 HJ5) as (h6 & Hrun6 & HJ6).
    { intros i s hs Hi HJs.
      destruct (step_note_off h0 s hs HJs (row - 1) (col - 1) (i + 1)) as (ha & Hra & HJa);
        [lia..|].
      rewrite (bind_run _ _ _ _ _ Hra).
      destruct (step_note_off h0 _ ha HJa i (col - 1) val) as (hb & Hrb & HJb); [lia..|].
      rewrite (bind_run _ _ _ _ _ Hrb).
      by apply step_note_off. }
    rewrite (bind_run _ _ _ _ _ Hrun6).
    set (b6 := for_each 0 n _ b5) in *.
    (* the notes of the box *)
    set (root := isqrt n).
    pose proof (box_corner b Hs box) as Hcorner. unfold idx in Hcorner.
    rewrite Hn in Hcorner.
    specialize (Hcorner Hbox). cbv zeta in Hcorner. fold root in Hcorner.
    pose proof (shape_root_pos b Hs) as Hroot. rewrite Hn in Hroot. fold root in Hroot.
    destruct (for_sim (holds L n p h0)
                (root * (box `quot` root)) (root * (box `quot` root) + root)
                (λ i, for_ (root * (box `rem` root)) (root * (box `rem` root) + root)
                        (λ j, bind (note_at p i j) (λ hp, Heap.heatmap_off hp val)))
                (λ i b, for_each (root * (box `rem` root)) (root * (box `rem` root) + root)
                          (λ j b, note_off b i j val) b)
                b6 h6 HJ6) as (h7 & Hrun7 & HJ7).
    { intros i s hs Hi HJs. apply (for_sim (holds L n p h0)); [done|].
      intros j s' hs' Hj HJs'. apply step_note_off; [done|lia..]. }
    rewrite (bind_run _ _ _ _ _ Hrun7).
    set (b7 := for_each _ _ _ b6) in *.
    rewrite (bind_run _ _ _ _ _ (run_load_total h0 b7 h7 HJ7)).
    destruct (step_total h0 b7 h7 HJ7 (incr (b_total_appearances b7))) as (h8 & Hrun8 & HJ8).
    rewrite (bind_run _ _ _ _ _ Hrun8).
    exists INSERT_OK, (insert_commit b row col val box), h8.
    split; [done|]. split; [done|].
    assert (b_size b5 = n) as Hn5 by apply HJ5.
    unfold insert_commit. cbv zeta. unfold v_board_get_size.
    change (b_size (set_boxs _ _)) with (b_size b5). rewrite Hn5.
    assert (b_size b6 = n) as Hn6 by apply HJ6.
    change (b_size (for_each 0 n _ _)) with (b_size b6). rewrite Hn6.
    exact HJ8.
  Qed.
End board_sim.

End HeapBoard.

(** ** The heap: [board_copy] *)

Module HeapCopy.

Local Abbreviation v_heatmap_copy := heatmap_copy.
Local Abbreviation v_heatmap_create := heatmap_create.
Local Abbreviation v_board_insert := board_insert.
Local Abbreviation v_board_copy := board_copy.
Local Abbreviation v_board_get_size := board_get_size.
Local Abbreviation v_for_list := for_list.
Local Abbreviation v_for_range := for_range.

Import Heap.
Import HeapSim.
Import HeapBoard.

(** A loop on the heap against a loop on values that may fail. *)
Lemma for_res_sim {St : Type} (J : St → mem → Prop) hbody
    (vbody : Z → St → res (bool * St)) l s h s' :
  J s h → v_for_list vbody l s = Next s' →
  (∀ i s h bs, i ∈ l → J s h → vbody i s = Next bs →
     bs.1 = false ∧ ∃ h', hbody i h = Some (tt, h') ∧ J bs.2 h') →
  ∃ h', Heap.for_list hbody l h = Some (tt, h') ∧ J s' h'.
Proof.
  revert s h. induction l as [|i l IH]; intros s h HJ Hrun Hbody; simpl in *.
  - injection Hrun as <-. by exists h.
  - destruct (vbody i s) as [[brk s1]| |] eqn:Hi; try done.
    destruct (Hbody i s h (brk, s1) ltac:(left) HJ Hi) as (Hbrk & h1 & Hrun1 & HJ1).
    simpl in Hbrk. subst brk. simpl in HJ1.
    rewrite (bind_run _ _ _ _ _ Hrun1). apply (IH s1 h1); [done|done|].
    intros i' s2 h2 bs Hin HJ2 Hv. apply (Hbody i' s2); [by right|done..].
Qed.

Lemma repr_only L h h' p b (S : region) :
  repr L h p b → only S h h' → (∀ c, valid (b_size b) c = true → ¬ S (L c)) →
  repr L h' p b.
Proof.
  intros [Hp Hr] [_ Ho] HS. split; [done|]. intros c off v Hc Hcont.
  rewrite Ho by auto. by apply Hr.
Qed.

Lemma holds_refl L n p b h : repr L h p b → b_size b = n → shape b → holds L n p h b h.
Proof. intros Hr Hn Hs. split; [done|]. split; [done|]. split; [done|]. apply only_refl. Qed.

(** The blocks of a board are allocated. *)
Lemma repr_alloc L h p b c :
  mem_ok h → repr L h p b → shape b → valid (b_size b) c = true → (L c < next h)%nat.
Proof.
  intros Hok [_ Hr] Hs Hc.
  assert (∃ v, content L b c 0 = Some v) as [v Hv].
  { pose proof (shape_pos _ Hs) as Hpos.
    assert (in_range (b_size b) 0 = true) as Hin by (apply in_range_true; lia).
    destruct c as [| |i| | | | | |i|pl|pl]; simpl; rewrite ?Hin; eauto.
    pose proof (shape_hm_at b pl Hs Hc) as (-> & _). rewrite Hin. eauto. }
  specialize (Hr c 0 v Hc Hv).
  destruct (decide (L c < next h)%nat) as [|Hge]; [done|].
  exfalso. assert (Some v = None) as E; [|done].
  rewrite <- Hr. apply (Hok (L c) 0). lia.
Qed.

Lemma step_copy L n p h0 b h pl s' m' hs :
  layout_ok L n → holds L n p h0 b h → valid_place n pl = true →
  hm_repr h s' m' hs → hm_ok n hs →
  ¬ blocks_of L n s' → ¬ blocks_of L n m' →
  ∃ h', Heap.heatmap_copy (L (CHm pl), 0) (s', 0) h = Some (tt, h') ∧
        holds L n p h0 (hm_set b pl (λ hm, v_heatmap_copy hm hs)) h'.
Proof.
  intros HL HJ Hpl Hs (Hlen & _ & Hmap & _) Hs' Hm'.
  destruct (holds_hm L n p HL h0 b h HJ pl Hpl) as (Hr & Hne & Hok).
  pose proof Hok as (Hlen' & _ & Hmap' & _).
  assert (∀ blk, two (L (CHm pl)) (L (CMap pl)) blk → blocks_of L n blk) as Hsub.
  { intros blk [->| ->]; by apply blocks_of_valid. }
  destruct (heatmap_copy_sim h _ _ _ s' m' hs Hr Hs Hne) as (h' & Hrun & Hr' & Ho');
    [by intros ?%Hsub|by intros ?%Hsub|congruence|congruence|].
  exists h'. split; [done|]. apply (holds_hm_set L n p HL h0 b h); try done.
  intros hm Hhm. apply heatmap_copy_spec; [done|congruence].
Qed.

Section copy_sim.
  Context (Ld Ls : layout) (n : Z) (pd ps : addr).
  Hypothesis HLd : layout_ok Ld n.
  Hypothesis HLs : layout_ok Ls n.
  Hypothesis Hdisj : disjoint (blocks_of Ld n) (blocks_of Ls n).

  (** [board_copy] on the heap does what [board_copy] does on values, and
      leaves the blocks of [src] as they are. *)
Lemma board_copy_sim h d s d' :
    mem_ok h → repr Ld h pd d → repr Ls h ps s →
    b_size d = n → b_size s = n → shape d → shape s →
    v_board_copy d s = Some d' →
    ∃ h', Heap.board_copy pd ps h = Some (tt, h') ∧
          repr Ld h' pd d' ∧ repr Ls h' ps s ∧ shape d' ∧ b_size d' = n ∧
          frame (blocks_of Ld n) h h'.
  Proof using All.
    intros Hok Hrd Hrs Hnd Hns Hsd Hss Hcopy.
    pose proof (shape_pos _ Hss) as Hpos. rewrite Hns in Hpos.
    pose proof (shape_size_int _ Hss) as Hint. rewrite Hns in Hint.
    unfold v_board_copy, v_board_get_size in Hcopy. rewrite Hnd, Hns in Hcopy.
    rewrite Z.eqb_refl in Hcopy. cbn [negb] in Hcopy.
    destruct (copy_fill (copy_clear d n) s n) as [d''| |] eqn:Hfill; try done.
    injection Hcopy as ->.
    unfold Heap.board_copy.
    rewrite (bind_run _ _ _ _ _ (run_size Ld n pd HLd h d h (holds_refl _ _ _ _ _ Hrd Hnd Hsd))).
    rewrite (bind_run _ _ _ _ _ (run_size Ls n ps HLs h s h (holds_refl _ _ _ _ _ Hrs Hns Hss))).
    rewrite (bind_run _ _ _ tt h); [|apply run_assert, Z.eqb_refl].
    destruct (heatmap_create_sim h n Hok Hpos) as (h1 & Hrun1 & Hre & Hnext1 & Hold1).
    rewrite (bind_run _ _ _ _ _ Hrun1).
    set (e := next h) in *. set (em := S e) in *.
    (* the boards after the allocation *)
    assert (∀ L p b, repr L h p b → shape b → b_size b = n → repr L h1 p b) as Hkeep.
    { intros L p b [Hp Hr] Hs Hn. split; [done|]. intros c off v Hc Hcont.
      rewrite Hold1; [by apply Hr|]. by apply (repr_alloc L h p b). }
    assert (∀ L p b, repr L h p b → shape b → b_size b = n →
              ¬ blocks_of L n e ∧ ¬ blocks_of L n em) as Hfresh.
    { intros L p b Hr Hs Hn.
      split; intros (c & Hc & Heq); rewrite <- Hn in Hc;
        pose proof (repr_alloc L h p b c Hok Hr Hs Hc); unfold em, e in *; lia. }
    destruct (Hfresh Ld pd d Hrd Hsd Hnd) as [He Hem].
    assert (holds Ld n pd h1 d h1) as HJ1.
    { apply holds_refl; [|done..]. by apply Hkeep. }
    assert (hm_ok n (v_heatmap_create n)) as Hoke by (apply hm_ok_create; lia).
    (* first half: empty dest's data *)
    destruct (step_total Ld n pd HLd h1 d h1 HJ1 0) as (h2 & Hrun2 & HJ2).
    rewrite (bind_run _ _ _ _ _ Hrun2).
    destruct (for_sim (holds Ld n pd h1) 0 n
      (λ i, bind (bind (elem pd f_rows i) (λ hp, Heap.heatmap_copy hp (e, 0)))
           (λ _, bind (bind (elem pd f_cols i) (λ hp, Heap.heatmap_copy hp (e, 0)))
           (λ _, bind (bind (elem pd f_boxs i) (λ hp, Heap.heatmap_copy hp (e, 0)))
           (λ _, bind (bind (load_ptr (shift pd f_appearances))
                         (λ app, store (shift app i) (VInt 0)))
           (λ _, for_ 0 n (λ j, bind (elem pd f_data i)
                                  (λ drow, store (shift drow j) (VInt 0))))))))
      (λ i dest,
         let dest := set_rows dest (upd (b_rows dest) i
                       (λ hm, v_heatmap_copy hm (v_heatmap_create n))) in
         let dest := set_cols dest (upd (b_cols dest) i
                       (λ hm, v_heatmap_copy hm (v_heatmap_create n))) in
         let dest := set_boxs dest (upd (b_boxs dest) i
                       (λ hm, v_heatmap_copy hm (v_heatmap_create n))) in
         let dest := set_appearances dest (upd (b_appearances dest) i (λ _, 0)) in
         for_each 0 n (λ j dest, set_data dest (upd2 (b_data dest) i j (λ _, 0))) dest)
      (set_total_appearances d 0) h2 HJ2) as (h3 & Hrun3 & HJ3).
    { intros i b hb Hi HJb. cbv zeta.
      assert (∀ b' h', holds Ld n pd h1 b' h' → hm_repr h' e em (v_heatmap_create n)) as Hempty.
      { intros b' h' (_ & _ & _ & Ho'). by apply (hm_repr_only h1 _ _ _ _ (blocks_of Ld n)). }
      rewrite bind_assoc.
      rewrite (bind_run _ _ _ _ _ (run_elem_rows Ld n pd HLd h1 b hb HJb i Hi)).
      destruct (step_copy Ld n pd h1 b hb (PRow i) e em (v_heatmap_create n))
        as (ha & Hra & HJa); [done|done|by apply in_range_true|by apply (Hempty b)|done..|].
      rewrite (bind_run _ _ _ _ _ Hra). cbn [hm_set] in HJa.
      rewrite bind_assoc.
      rewrite (bind_run _ _ _ _ _ (run_elem_cols Ld n pd HLd h1 _ ha HJa i Hi)).
      destruct (step_copy Ld n pd h1 _ ha (PCol i) e em (v_heatmap_create n) HLd HJa)
        as (hc & Hrc & HJc); [by apply in_range_true|by eapply Hempty|done..|].
      rewrite (bind_run _ _ _ _ _ Hrc). cbn [hm_set] in HJc.
      rewrite bind_assoc.
      rewrite (bind_run _ _ _ _ _ (run_elem_boxs Ld n pd HLd h1 _ hc HJc i Hi)).
      destruct (step_copy Ld n pd h1 _ hc (PBox i) e em (v_heatmap_create n) HLd HJc)
        as (hx & Hrx & HJx); [by apply in_range_true|by eapply Hempty|done..|].
      rewrite (bind_run _ _ _ _ _ Hrx). cbn [hm_set] in HJx.
      rewrite bind_assoc.
      rewrite (bind_run _ _ _ _ _ (run_app_ptr Ld n pd HLd h1 _ hx HJx)).
      destruct (step_app Ld n pd HLd h1 _ hx HJx i (λ _, 0) Hi) as (hy & Hry & HJy).
      rewrite (bind_run _ _ _ _ _ Hry).
      apply (for_sim (holds Ld n pd h1)); [done|].
      intros j b' hb' Hj HJb'.
      rewrite (bind_run _ _ _ _ _ (run_elem_data Ld n pd HLd h1 b' hb' HJb' i Hi)).
      by apply step_data. }
    rewrite (bind_run _ _ _ _ _ Hrun3).
    change (for_each 0 n _ (set_total_appearances d 0)) with (copy_clear d n) in HJ3.
    (* second half: fill dest with src *)
    assert (repr Ls h1 ps s) as Hrs1 by (by apply Hkeep).
    assert (∀ b' h', holds Ld n pd h1 b' h' → holds Ls n ps h' s h') as Hsrc.
    { intros b' h' (_ & _ & _ & Ho'). apply holds_refl; [|done..].
      apply (repr_only Ls h1 h' ps s (blocks_of Ld n)); [done..|].
      intros c Hc Hblk. rewrite Hns in Hc. apply (Hdisj (Ls c)); [done|].
      by apply blocks_of_valid. }
    unfold copy_fill, v_for_range in Hfill.
    destruct (for_res_sim (holds Ld n pd h1)
      (λ i, for_ 0 n
         (λ j, bind (elem ps f_data i)
            (λ srow, bind (load_int (shift srow j))
               (λ x, if negb (x =? 0)
                     then bind (Heap.board_insert pd (i + 1) (j + 1) x) (λ _, ret tt)
                     else bind (note_at pd i j)
                            (λ hd, bind (note_at ps i j)
                               (λ hs, Heap.heatmap_copy hd hs))))))
      _ _ _ h3 _ HJ3 Hfill) as (h4 & Hrun4 & HJ4).
    { intros i b hb [brk b1] Hi HJb Hbody. apply elem_of_seqZ in Hi.
      destruct (v_for_list _ _ b) as [b2| |] eqn:Hinner; try done.
      injection Hbody as <- <-. split; [done|]. cbn [snd].
      apply (for_res_sim (holds Ld n pd h1) _ _ _ b hb b2 HJb Hinner).
      intros j b' hb' [brk' b1'] Hj HJb' Hbody'. apply elem_of_seqZ in Hj.
      pose proof (Hsrc _ _ HJb') as HJs.
      rewrite (bind_run _ _ _ _ _ (run_elem_data Ls n ps HLs hb' s hb' HJs i ltac:(lia))).
      rewrite (bind_run _ _ _ _ _
                 (run_load_cell Ls n ps HLs hb' s hb' HJs i j ltac:(lia) ltac:(lia))).
      destruct (negb (get2 (b_data s) i j =? 0)).
      - unfold insert_ in Hbody'.
        destruct (v_board_insert b' (i + 1) (j + 1) (get2 (b_data s) i j))
          as [[st b3]|] eqn:Hins; [|done].
        injection Hbody' as <- <-. split; [done|]. cbn [snd].
        assert (insert_args_ok b' (i + 1) (j + 1) (get2 (b_data s) i j) = true) as Hargs.
        { unfold v_board_insert in Hins.
          by destruct (insert_args_ok b' (i + 1) (j + 1) (get2 (b_data s) i j)). }
        destruct (board_insert_sim Ld n pd HLd h1 b' hb' _ _ _ HJb' Hargs)
          as (st' & b4 & h5 & Hv & Hrun5 & HJ5).
        rewrite Hins in Hv. injection Hv as <- <-.
        rewrite (bind_run _ _ _ _ _ Hrun5). by exists h5.
      - injection Hbody' as <- <-. split; [done|]. cbn [snd].
        rewrite (bind_run _ _ _ _ _
                   (run_note_at Ld n pd HLd h1 b' hb' HJb' i j ltac:(lia) ltac:(lia))).
        rewrite (bind_run _ _ _ _ _
                   (run_note_at Ls n ps HLs hb' s hb' HJs i j ltac:(lia) ltac:(lia))).
        assert (valid_place n (PNote i j) = true) as Hpl.
        { simpl. rewrite !in_range_true by lia. done. }
        destruct (holds_hm Ls n ps HLs hb' s hb' HJs (PNote i j) Hpl) as (Hr & _ & Hoks).
        apply (step_copy Ld n pd h1 b' hb' (PNote i j) _ (Ls (CMap (PNote i j)))
                 (get2 (b_notes s) i j)); try done.
        + intros Hblk. apply (Hdisj _ Hblk). by apply blocks_of_valid.
        + intros Hblk. apply (Hdisj _ Hblk). by apply blocks_of_valid. }
    exists h4. split; [exact Hrun4|].
    destruct HJ4 as (Hr4 & Hn4 & Hs4 & Ho4).
    split; [done|]. split.
    { apply (repr_only Ls h1 h4 ps s (blocks_of Ld n)); [done..|].
      intros c Hc Hblk. rewrite Hns in Hc. apply (Hdisj (Ls c)); [done|].
      by apply blocks_of_valid. }
    split; [done|]. split; [done|].
    destruct Ho4 as [Hn Ho4]. split; [rewrite Hn, Hnext1; lia|].
    intros blk off Hblk Hlt. rewrite Ho4 by done. by apply Hold1.
  Qed.
End copy_sim.

(** A call of [board_insert] on the heap that returns has done what
    [board_insert] does on values, within the blocks of its board. *)
Lemma board_insert_frame L n p h b row col val st h2 :
  layout_ok L n → repr L h p b → b_size b = n → shape b →
  Heap.board_insert p row col val h = Some (st, h2) →
  ∃ b', v_board_insert b row col val = Some (st, b') ∧
        repr L h2 p b' ∧ shape b' ∧ b_size b' = n ∧ only (blocks_of L n) h h2.
Proof.
  intros HL Hr Hn Hs Hrun.
  pose proof (holds_refl L n p b h Hr Hn Hs) as HJ.
  destruct (insert_args_ok b row col val) eqn:Hargs.
  - destruct (board_insert_sim L n p HL h b h row col val HJ Hargs)
      as (st' & b' & h' & Hv & Hrun' & Hr' & Hn' & Hs' & Ho').
    rewrite Hrun in Hrun'. injection Hrun' as <- <-. by exists b'.
  - exfalso. unfold Heap.board_insert in Hrun.
    rewrite (bind_run _ _ _ _ _ (run_size L n p HL h b h HJ)) in Hrun.
    unfold insert_args_ok, v_board_get_size in Hargs. rewrite Hn in Hargs.
    rewrite Hargs in Hrun. done.
Qed.

(** After [board_copy] the two boards hold the same value in separate
    blocks, and [board_insert] on either leaves the other. *)
Lemma board_copy_separate Ld Ls n pd ps h d s :
  layout_ok Ld n → layout_ok Ls n → disjoint (blocks_of Ld n) (blocks_of Ls n) →
  mem_ok h → repr Ld h pd d → repr Ls h ps s →
  b_size d = n → b_size s = n → shape d → wf s →
  ∃ h1, Heap.board_copy pd ps h = Some (tt, h1) ∧
        repr Ld h1 pd s ∧ repr Ls h1 ps s ∧
        (∀ row col val st h2,
           Heap.board_insert pd row col val h1 = Some (st, h2) →
           ∃ s', v_board_insert s row col val = Some (st, s') ∧
                 repr Ld h2 pd s' ∧ repr Ls h2 ps s) ∧
        (∀ row col val st h2,
           Heap.board_insert ps row col val h1 = Some (st, h2) →
           ∃ s', v_board_insert s row col val = Some (st, s') ∧
                 repr Ls h2 ps s' ∧ repr Ld h2 pd s).
Proof.
  intros HLd HLs Hdisj Hok Hrd Hrs Hnd Hns Hsd Hwf.
  pose proof (proj1 Hwf) as Hss.
  assert (v_board_copy d s = Some s) as Hcopy.
  { apply board_copy_eq; [done..|congruence]. }
  destruct (board_copy_sim Ld Ls n pd ps HLd HLs Hdisj h d s s Hok Hrd Hrs Hnd Hns Hsd Hss Hcopy)
    as (h1 & Hrun & Hrd1 & Hrs1 & _ & _ & _).
  exists h1. split; [done|]. split; [done|]. split; [done|]. split.
  - intros row col val st h2 Hins.
    destruct (board_insert_frame Ld n pd h1 s row col val st h2 HLd Hrd1 Hns Hss Hins)
      as (s' & Hv & Hr' & _ & _ & Ho).
    exists s'. split; [done|]. split; [done|].
    apply (repr_only Ls h1 h2 ps s (blocks_of Ld n)); [done..|].
    intros c Hc Hblk. rewrite Hns in Hc. apply (Hdisj (Ls c)); [done|].
    by apply blocks_of_valid.
  - intros row col val st h2 Hins.
    destruct (board_insert_frame Ls n ps h1 s row col val st h2 HLs Hrs1 Hns Hss Hins)
      as (s' & Hv & Hr' & _ & _ & Ho).
    exists s'. split; [done|]. split; [done|].
    apply (repr_only Ld h1 h2 pd s (blocks_of Ls n)); [done..|].
    intros c Hc Hblk. rewrite Hns in Hc. apply (Hdisj (Ld c)); [|done].
    by apply blocks_of_valid.
Qed.

End HeapCopy.

(** ** Sample boards are well-formed *)

Lemma insert_clues_wf b clues b' :
  wf b → insert_clues b clues = Some b' → wf b'.
Proof.
  unfold insert_clues. revert b. induction clues as [|[[val row] col] clues IH]; intros b Hwf.
  - by intros [= <-].
  - simpl. destruct (board_insert b row col val) as [[st b1]|] eqn:Hins; simpl.
    + apply IH. by eapply board_insert_wf.
    + clear. induction clues as [|[[v r] c] clues IH]; [done|]. apply IH.
Qed.

Lemma empty4_wf : wf empty4.
Proof. apply (board_create_wf 4); [apply empty4_create|unfold int_max; lia]. Qed.

Lemma sample4_wf : wf sample4.
Proof.
  apply (insert_clues_wf empty4 sample4_clues); [apply empty4_wf|].
  vm_compute. reflexivity.
Qed.

Lemma stuck4_clued_wf : wf stuck4_clued.
Proof.
  apply (insert_clues_wf empty4 stuck4_clues); [apply empty4_wf|].
  vm_compute. reflexivity.
Qed.

Lemma stuck4_make_notes : board_make_notes stuck4_clued = stuck4.
Proof. vm_compute. reflexivity. Qed.

Lemma stuck4_wf : wf stuck4.
Proof. rewrite <- stuck4_make_notes. apply board_make_notes_wf, stuck4_clued_wf. Qed.

(** ** Solutions *)

Lemma NoDup_fmap_inj_on {A B : Type} (f : A → B) (l : list A) x y :
  NoDup (f <$> l) → x ∈ l → y ∈ l → f x = f y → x = y.
Proof.
  induction l as [|a l IH]; simpl; intros Hnd Hx Hy Heq.
  - by apply elem_of_nil in Hx.
  - apply NoDup_cons in Hnd as [Ha Hnd].
    apply elem_of_cons in Hx as [->|Hx], Hy as [->|Hy]; [done| | |by apply IH].
    + exfalso. apply Ha. rewrite Heq. by apply list_elem_of_fmap_2.
    + exfalso. apply Ha. rewrite <- Heq. by apply list_elem_of_fmap_2.
Qed.

Lemma NoDup_grid_inj (g : Z → Z → Z) (lr lc : list Z) r c r' c' :
  NoDup (x ← lr; g x <$> lc) → r ∈ lr → c ∈ lc → r' ∈ lr → c' ∈ lc →
  g r c = g r' c' → r = r' ∧ c = c'.
Proof.
  induction lr as [|a lr IH]; intros Hnd Hr Hc Hr' Hc' Heq.
  - by apply elem_of_nil in Hr.
  - rewrite bind_cons in Hnd. apply NoDup_app in Hnd as (Hfirst & Hdisj & Hrest).
    assert (∀ x y, x ∈ lr → y ∈ lc → g x y ∈ (x ← lr; g x <$> lc)) as Hin.
    { intros x y Hx Hy. apply list_elem_of_bind. exists x. split; [|done].
      by apply list_elem_of_fmap_2. }
    apply elem_of_cons in Hr as [->|Hr], Hr' as [->|Hr'].
    + split; [done|]. by apply (NoDup_fmap_inj_on (g a) lc).
    + exfalso. apply (Hdisj (g a c)); [by apply list_elem_of_fmap_2|].
      rewrite Heq. by apply Hin.
    + exfalso. apply (Hdisj (g a c')); [by apply list_elem_of_fmap_2|].
      rewrite <- Heq. by apply Hin.
    + by apply IH.
Qed.

Section solution_facts.
  Context (s b : board).
  Hypothesis Hsol : solution s b.
  Hypothesis Hs : shape b.

Let n := b_size b.

Local Lemma sol_size : b_size s = n.
  Proof using Hsol. apply Hsol. Qed.

Local Lemma sol_complete i :
    0 ≤ i < n →
    row_list s i ≡ₚ seqZ 1 n ∧ col_list s i ≡ₚ seqZ 1 n ∧ box_list s i ≡ₚ seqZ 1 n.
  Proof using Hsol.
    intros Hi. destruct Hsol as (Hsz & Hc & _). unfold n in *. rewrite <- Hsz.
    apply Hc. unfold idx. by rewrite Hsz.
  Qed.

Lemma sol_range r c : idx b r → idx b c → 1 ≤ cell s r c ≤ b_size b.
  Proof using Hsol.
    intros Hr Hc. destruct (sol_complete r Hr) as (Hrow & _).
    assert (cell s r c ∈ row_list s r) as Hin.
    { unfold row_list. apply (list_elem_of_fmap_2 (λ c, cell s r c)).
      rewrite sol_size. apply elem_of_seqZ. unfold idx in Hc. lia. }
    rewrite Hrow in Hin. apply elem_of_seqZ in Hin. fold n. lia.
  Qed.

Lemma sol_row_inj r c c' :
    idx b r → idx b c → idx b c' → cell s r c = cell s r c' → c = c'.
  Proof using Hsol.
    intros Hr Hc Hc' Heq. destruct (sol_complete r Hr) as (Hrow & _).
    apply (NoDup_fmap_inj_on (λ c, cell s r c) (seqZ 0 (b_size s))); [| | |done].
    - fold (row_list s r). rewrite Hrow. apply NoDup_seqZ.
    - rewrite sol_size. apply elem_of_seqZ. unfold idx in Hc. lia.
    - rewrite sol_size. apply elem_of_seqZ. unfold idx in Hc'. lia.
  Qed.

Lemma sol_col_inj c r r' :
    idx b c → idx b r → idx b r' → cell s r c = cell s r' c → r = r'.
  Proof using Hsol.
    intros Hc Hr Hr' Heq. destruct (sol_complete c Hc) as (_ & Hcol & _).
    apply (NoDup_fmap_inj_on (λ r, cell s r c) (seqZ 0 (b_size s))); [| | |done].
    - fold (col_list s c). rewrite Hcol. apply NoDup_seqZ.
    - rewrite sol_size. apply elem_of_seqZ. unfold idx in Hr. lia.
    - rewrite sol_size. apply elem_of_seqZ. unfold idx in Hr'. lia.
  Qed.

Local Lemma in_box k r c :
    idx b k → idx b r → idx b c → box_of b r c = k →
    r ∈ seqZ (isqrt n * (k `quot` isqrt n)) (isqrt n) ∧
    c ∈ seqZ (isqrt n * (k `rem` isqrt n)) (isqrt n).
  Proof using Hs.
    intros Hk Hr Hc Hbox. apply (box_range_iff b Hs k r c Hk Hr Hc) in Hbox.
    cbv zeta in Hbox. fold n in Hbox. rewrite !elem_of_seqZ. lia.
  Qed.

Local Lemma of_box k r c :
    idx b k →
    r ∈ seqZ (isqrt n * (k `quot` isqrt n)) (isqrt n) →
    c ∈ seqZ (isqrt n * (k `rem` isqrt n)) (isqrt n) →
    idx b r ∧ idx b c ∧ box_of b r c = k.
  Proof using Hs.
    intros Hk Hr Hc. rewrite !elem_of_seqZ in Hr, Hc.
    pose proof (box_corner b Hs k Hk) as Hcorner. cbv zeta in Hcorner. fold n in Hcorner.
    assert (idx b r ∧ idx b c) as [Hir Hic] by (unfold idx; fold n; lia).
    split; [done|]. split; [done|].
    apply (box_range_iff b Hs k r c Hk Hir Hic). cbv zeta. fold n. lia.
  Qed.

Lemma sol_box_inj r c r' c' :
    idx b r → idx b c → idx b r' → idx b c' →
    box_of b r c = box_of b r' c' → cell s r c = cell s r' c' → r = r' ∧ c = c'.
  Proof using Hsol Hs.
    intros Hr Hc Hr' Hc' Hbox Heq.
    set (k := box_of b r' c') in *.
    assert (idx b k) as Hk by (by apply box_of_idx).
    destruct (sol_complete k Hk) as (_ & _ & Hb).
    destruct (in_box k r c Hk Hr Hc Hbox) as [Hir Hic].
    destruct (in_box k r' c' Hk Hr' Hc' eq_refl) as [Hir' Hic'].
    unfold box_list in Hb. cbv zeta in Hb. rewrite sol_size in Hb.
    apply (NoDup_grid_inj (cell s) (seqZ (isqrt n * (k `quot` isqrt n)) (isqrt n))
             (seqZ (isqrt n * (k `rem` isqrt n)) (isqrt n)) r c r' c'); try done.
    rewrite Hb. apply NoDup_seqZ.
  Qed.

  (** No value twice in a unit of [s]. *)
Lemma sol_distinct r c r' c' :
    idx b r → idx b c → idx b r' → idx b c' →
    (r = r' ∨ c = c' ∨ box_of b r c = box_of b r' c') →
    cell s r c = cell s r' c' → r = r' ∧ c = c'.
  Proof using Hsol Hs.
    intros Hr Hc Hr' Hc' [->|[->|Hbox]] Heq.
    - split; [done|]. by apply (sol_row_inj r').
    - split; [|done]. by apply (sol_col_inj c').
    - by apply sol_box_inj.
  Qed.

  (** Every value in every unit of [s]. *)
Lemma sol_row_has r v :
    idx b r → is_val b v → ∃ c, idx b c ∧ cell s r c = v.
  Proof using Hsol.
    intros Hr Hv. destruct (sol_complete r Hr) as (Hrow & _).
    assert (v ∈ row_list s r) as Hin.
    { rewrite Hrow. apply elem_of_seqZ. unfold is_val in Hv. fold n in Hv. lia. }
    apply list_elem_of_fmap in Hin as (c & -> & Hc).
    rewrite sol_size in Hc. apply elem_of_seqZ in Hc. exists c. split; [|done].
    unfold idx. fold n. lia.
  Qed.

Lemma sol_col_has c v :
    idx b c → is_val b v → ∃ r, idx b r ∧ cell s r c = v.
  Proof using Hsol.
    intros Hc Hv. destruct (sol_complete c Hc) as (_ & Hcol & _).
    assert (v ∈ col_list s c) as Hin.
    { rewrite Hcol. apply elem_of_seqZ. unfold is_val in Hv. fold n in Hv. lia. }
    apply list_elem_of_fmap in Hin as (r & -> & Hr).
    rewrite sol_size in Hr. apply elem_of_seqZ in Hr. exists r. split; [|done].
    unfold idx. fold n. lia.
  Qed.

Lemma sol_box_has k v :
    idx b k → is_val b v → ∃ r c, idx b r ∧ idx b c ∧ box_of b r c = k ∧ cell s r c = v.
  Proof using Hsol Hs.
    intros Hk Hv. destruct (sol_complete k Hk) as (_ & _ & Hb).
    assert (v ∈ box_list s k) as Hin.
    { rewrite Hb. apply elem_of_seqZ. unfold is_val in Hv. fold n in Hv. lia. }
    unfold box_list in Hin. cbv zeta in Hin. rewrite sol_size in Hin.
    apply list_elem_of_bind in Hin as (r & Hin & Hr).
    apply list_elem_of_fmap in Hin as (c & -> & Hc).
    destruct (of_box k r c Hk Hr Hc) as (? & ? & ?). by exists r, c.
  Qed.
End solution_facts.

(** ** Counting arguments *)

(** At most one entry fails [p] when all but one satisfy it. *)
Lemma countb_two_false {A : Type} (p : A → bool) (l : list A) (i j : nat) x y :
  Z.of_nat (length l) - 1 ≤ countb p l →
  l !! i = Some x → p x = false → l !! j = Some y → p y = false → i = j.
Proof.
  revert i j. induction l as [|a l IH]; intros i j Hcount Hi Hx Hj Hy; [done|].
  simpl in Hcount. pose proof (countb_bounds p l) as Hb.
  assert (p a = false → Forall (λ z, p z = true) l) as Hfull.
  { intros Ha. apply countb_full. rewrite Ha in Hcount. simpl in Hcount. lia. }
  assert (∀ k z, p a = false → l !! k = Some z → p z = false → False) as Hno.
  { intros k z Ha Hk Hz. specialize (Hfull Ha).
    rewrite Forall_lookup in Hfull. specialize (Hfull k z Hk). congruence. }
  destruct i as [|i], j as [|j]; simpl in *; simplify_eq.
  - done.
  - exfalso. by apply (Hno j y).
  - exfalso. by apply (Hno i x).
  - f_equal. apply IH; try done. destruct (p a); simpl in *; lia.
Qed.

(** At most one entry satisfies [p] when the count is at most one. *)
Lemma countb_two_true {A : Type} (p : A → bool) (l : list A) (i j : nat) x y :
  countb p l ≤ 1 →
  l !! i = Some x → p x = true → l !! j = Some y → p y = true → i = j.
Proof.
  revert i j. induction l as [|a l IH]; intros i j Hcount Hi Hx Hj Hy; [done|].
  simpl in Hcount. pose proof (countb_bounds p l) as Hb.
  assert (∀ k z, p a = true → l !! k = Some z → p z = true → False) as Hno.
  { intros k z Ha Hk Hz. rewrite Ha in Hcount. simpl in Hcount.
    assert (countb p l = 0) as Hz0 by lia. apply countb_zero in Hz0.
    rewrite Forall_lookup in Hz0. specialize (Hz0 k z Hk). congruence. }
  destruct i as [|i], j as [|j]; simpl in *; simplify_eq.
  - done.
  - exfalso. by apply (Hno j y).
  - exfalso. by apply (Hno i x).
  - f_equal. apply IH; try done. destruct (p a); simpl in *; lia.
Qed.

Lemma countb_le_one {A : Type} (p : A → bool) (l : list A) :
  (∀ i j x y, l !! i = Some x → l !! j = Some y → p x = true → p y = true → i = j) →
  countb p l ≤ 1.
Proof.
  induction l as [|a l IH]; intros Huniq; simpl; [lia|].
  destruct (p a) eqn:Ha; simpl.
  - assert (countb p l = 0) as ->; [|lia]. apply countb_zero.
    apply Forall_lookup. intros k z Hk. destruct (p z) eqn:Hz; [|done].
    specialize (Huniq 0%nat (S k) a z eq_refl Hk Ha Hz). done.
  - apply IH. intros i j x y Hi Hj Hx Hy.
    specialize (Huniq (S i) (S j) x y Hi Hj Hx Hy). lia.
Qed.

(** At most one row has no entry that satisfies [p] when each row has at
    most one and the grid has one less than it has rows. *)
Lemma count_grid_two_zero p (m : list (list Z)) (i j : nat) r r' :
  Forall (λ r, countb p r ≤ 1) m →
  Z.of_nat (length m) - 1 ≤ count_grid p m →
  m !! i = Some r → countb p r = 0 → m !! j = Some r' → countb p r' = 0 → i = j.
Proof.
  intros Hall. revert i j.
  induction Hall as [|a m Ha Hall IH]; intros i j Hcount Hi Hr Hj Hr'; [done|].
  simpl in Hcount. pose proof (countb_bounds p a) as Hba.
  assert (count_grid p m ≤ Z.of_nat (length m)) as Hbm.
  { clear -Hall. induction Hall as [|x m Hx _ IH]; simpl; [lia|].
    pose proof (countb_bounds p x). lia. }
  assert (∀ k z, countb p a = 0 → m !! k = Some z → countb p z = 0 → False) as Hno.
  { intros k z Ha0 Hk Hz. rewrite Ha0 in Hcount.
    assert (count_grid p m = Z.of_nat (length m)) as Hfull by lia.
    clear -Hall Hfull Hk Hz. revert k Hk.
    induction Hall as [|x m Hx Hall IH]; intros k Hk; [done|]. simpl in Hfull.
    assert (count_grid p m ≤ Z.of_nat (length m)) as Hbm.
    { clear -Hall. induction Hall as [|x' m' Hx' _ IH']; simpl; [lia|].
      pose proof (countb_bounds p x'). lia. }
    pose proof (countb_bounds p x).
    destruct k as [|k]; simpl in Hk; simplify_eq; [lia|].
    apply (IH ltac:(lia) k Hk). }
  destruct i as [|i], j as [|j]; simpl in *; simplify_eq.
  - done.
  - exfalso. by apply (Hno j r').
  - exfalso. by apply (Hno i r).
  - f_equal. apply IH; try done. lia.
Qed.

(** A heatmap that lacks at most one value lacks no two. *)
Lemma hm_unique_missing n h v w :
  hm_ok n h → n - 1 ≤ h_count h → 1 ≤ v ≤ n → 1 ≤ w ≤ n →
  heatmap_check h v = false → heatmap_check h w = false → v = w.
Proof.
  intros (Hl & Hn & Hm & Hc) Hcount Hv Hw Hcv Hcw. unfold heatmap_check, get in *.
  destruct (lookup_lt_is_Some_2 (h_map h) (Z.to_nat (v - 1))) as [x Hx]; [lia|].
  destruct (lookup_lt_is_Some_2 (h_map h) (Z.to_nat (w - 1))) as [y Hy]; [lia|].
  rewrite (list_lookup_total_correct _ _ _ Hx) in Hcv.
  rewrite (list_lookup_total_correct _ _ _ Hy) in Hcw.
  assert (Z.to_nat (v - 1) = Z.to_nat (w - 1)) as Heq; [|lia].
  apply (countb_two_false id (h_map h) _ _ x y); try done. rewrite <- Hc. lia.
Qed.

(** A heatmap with one member has no two. *)
Lemma hm_single n h v w :
  hm_ok n h → h_count h ≤ 1 → 1 ≤ v ≤ n → 1 ≤ w ≤ n →
  heatmap_check h v = true → heatmap_check h w = true → v = w.
Proof.
  intros (Hl & Hn & Hm & Hc) Hcount Hv Hw Hcv Hcw. unfold heatmap_check, get in *.
  destruct (lookup_lt_is_Some_2 (h_map h) (Z.to_nat (v - 1))) as [x Hx]; [lia|].
  destruct (lookup_lt_is_Some_2 (h_map h) (Z.to_nat (w - 1))) as [y Hy]; [lia|].
  rewrite (list_lookup_total_correct _ _ _ Hx) in Hcv.
  rewrite (list_lookup_total_correct _ _ _ Hy) in Hcw.
  assert (Z.to_nat (v - 1) = Z.to_nat (w - 1)) as Heq; [|lia].
  apply (countb_two_true id (h_map h) _ _ x y); try done. by rewrite <- Hc.
Qed.

(** ** Insertions on the way to a solution *)

Lemma lookup_get {A : Type} `{!Inhabited A} (l : list A) (i : Z) :
  0 ≤ i < Z.of_nat (length l) → l !! Z.to_nat i = Some (get l i).
Proof.
  intros Hi. unfold get. apply list_lookup_lookup_total_lt. lia.
Qed.

Lemma get_lookup {A : Type} `{!Inhabited A} (l : list A) (k : nat) x :
  l !! k = Some x → get l (Z.of_nat k) = x.
Proof.
  intros Hk. unfold get. rewrite Nat2Z.id. by apply list_lookup_total_correct.
Qed.

Section track.
  Context (s b : board).
  Hypothesis Hwf : wf b.
  Hypothesis Hsol : solution s b.

Let Hs : shape b := proj1 Hwf.

  (** The value of the solution for an empty cell is not yet in the row,
      the column or the box of the cell. *)
Lemma sol_unused r c :
    idx b r → idx b c → cell b r c = 0 →
    row_used b r (cell s r c) = false ∧ col_used b c (cell s r c) = false ∧
    box_used b (box_of b r c) (cell s r c) = false.
  Proof using Hwf Hsol.
    intros Hr Hc Hz. pose proof Hwf as (_ & Hcore & _).
    destruct (inv_used _ Hcore) as (Hrows & Hcols & Hboxs).
    pose proof (sol_range s b Hsol r c Hr Hc) as Hv.
    destruct Hsol as (_ & _ & Hag).
    assert (∀ r' c', idx b r' → idx b c' → cell b r' c' = cell s r c →
              (r = r' ∨ c = c' ∨ box_of b r c = box_of b r' c') → False) as Hno.
    { intros r' c' Hr' Hc' Heq Hunit.
      assert (cell b r' c' ≠ 0) as Hne by lia.
      rewrite <- (Hag r' c' Hr' Hc' Hne) in Heq.
      destruct (sol_distinct s b Hsol Hs r c r' c' Hr Hc Hr' Hc' Hunit) as [-> ->];
        [done|]. done. }
    split; [|split].
    - destruct (row_used b r (cell s r c)) eqn:Hu; [|done]. exfalso.
      apply Hrows in Hu as (c' & Hc' & Heq); [|done..]. apply (Hno r c'); auto.
    - destruct (col_used b c (cell s r c)) eqn:Hu; [|done]. exfalso.
      apply Hcols in Hu as (r' & Hr' & Heq); [|done..]. apply (Hno r' c); auto.
    - destruct (box_used b (box_of b r c) (cell s r c)) eqn:Hu; [|done]. exfalso.
      apply Hboxs in Hu as (r' & c' & Hr' & Hc' & Hbox & Heq);
        [|by apply box_of_idx|done]. apply (Hno r' c'); auto.
  Qed.

  (** A value that a unit lacks has, in the solution, its place at an empty
      cell of the unit. *)
Lemma sol_place_row r v :
    idx b r → is_val b v → row_used b r v = false →
    ∃ c, idx b c ∧ cell s r c = v ∧ cell b r c = 0.
  Proof using Hwf Hsol.
    intros Hr Hv Hu. destruct (sol_row_has s b Hsol r v Hr Hv) as (c & Hc & Heq).
    exists c. split; [done|]. split; [done|].
    destruct (decide (cell b r c = 0)) as [|Hne]; [done|]. exfalso.
    pose proof Hwf as (_ & Hcore & _). destruct (inv_used _ Hcore) as (Hrows & _).
    destruct Hsol as (_ & _ & Hag). rewrite (Hag r c Hr Hc Hne) in Heq.
    assert (row_used b r v = true) as Ht; [|congruence]. apply Hrows; [done..|]. by exists c.
  Qed.

Lemma sol_place_col c v :
    idx b c → is_val b v → col_used b c v = false →
    ∃ r, idx b r ∧ cell s r c = v ∧ cell b r c = 0.
  Proof using Hwf Hsol.
    intros Hc Hv Hu. destruct (sol_col_has s b Hsol c v Hc Hv) as (r & Hr & Heq).
    exists r. split; [done|]. split; [done|].
    destruct (decide (cell b r c = 0)) as [|Hne]; [done|]. exfalso.
    pose proof Hwf as (_ & Hcore & _). destruct (inv_used _ Hcore) as (_ & Hcols & _).
    destruct Hsol as (_ & _ & Hag). rewrite (Hag r c Hr Hc Hne) in Heq.
    assert (col_used b c v = true) as Ht; [|congruence]. apply Hcols; [done..|]. by exists r.
  Qed.

Lemma sol_place_box k v :
    idx b k → is_val b v → box_used b k v = false →
    ∃ r c, idx b r ∧ idx b c ∧ box_of b r c = k ∧ cell s r c = v ∧ cell b r c = 0.
  Proof using Hwf Hsol.
    intros Hk Hv Hu.
    destruct (sol_box_has s b Hsol Hs k v Hk Hv) as (r & c & Hr & Hc & Hbox & Heq).
    exists r, c. do 4 (split; [done|]).
    destruct (decide (cell b r c = 0)) as [|Hne]; [done|]. exfalso.
    pose proof Hwf as (_ & Hcore & _). destruct (inv_used _ Hcore) as (_ & _ & Hboxs).
    destruct Hsol as (_ & _ & Hag). rewrite (Hag r c Hr Hc Hne) in Heq.
    assert (box_used b k v = true) as Ht; [|congruence].
    apply Hboxs; [done..|]. by exists r, c.
  Qed.

  (** When a value is placed all but once, one row lacks it. *)
Lemma one_row_lacks v r r' :
    is_val b v → b_size b - 1 ≤ get (b_appearances b) (v - 1) →
    idx b r → idx b r' → row_used b r v = false → row_used b r' v = false → r = r'.
  Proof using Hwf.
    intros Hv Happ Hr Hr' Hu Hu'. pose proof Hwf as (_ & Hcore & _).
    destruct (inv_used _ Hcore) as (Hrows & _).
    destruct (inv_count _ Hcore) as [Hcount _]. rewrite Hcount in Happ by done.
    pose proof (shape_data _ Hs) as Hlen. unfold idx in *.
    assert (∀ k row, b_data b !! k = Some row →
              0 ≤ Z.of_nat k < b_size b ∧ get (b_data b) (Z.of_nat k) = row ∧
              length row = Z.to_nat (b_size b)) as Hrow.
    { intros k row Hk. pose proof (lookup_lt_Some _ _ _ Hk).
      split; [lia|]. split; [by apply get_lookup|].
      pose proof (shape_data_rows _ Hs) as Hall. rewrite Forall_lookup in Hall.
      by apply (Hall k). }
    assert (∀ q, 0 ≤ q < b_size b → row_used b q v = false →
              countb (λ x, x =? v) (get (b_data b) q) = 0) as Hzero.
    { intros q Hq Hqu. apply countb_zero. apply Forall_lookup. intros k x Hk.
      apply Z.eqb_neq. intros ->.
      assert (row_used b q v = true) as Ht; [|congruence].
      apply Hrows; [done..|]. exists (Z.of_nat k).
      destruct (Hrow (Z.to_nat q) (get (b_data b) q)) as (_ & _ & Hl);
        [apply lookup_get; lia|].
      pose proof (lookup_lt_Some _ _ _ Hk). split; [unfold idx; lia|].
      unfold cell, get2. by apply get_lookup. }
    assert (Z.to_nat r = Z.to_nat r') as Heq; [|lia].
    apply (count_grid_two_zero (λ x, x =? v) (b_data b) _ _
             (get (b_data b) r) (get (b_data b) r')).
    - apply Forall_lookup. intros k row Hk. destruct (Hrow k row Hk) as (Hkr & Hget & Hl).
      apply countb_le_one. intros i j x y Hi Hj Hx Hy.
      apply Z.eqb_eq in Hx, Hy. subst x y.
      pose proof (lookup_lt_Some _ _ _ Hi). pose proof (lookup_lt_Some _ _ _ Hj).
      assert (cell b (Z.of_nat k) (Z.of_nat i) = v) as Hci.
      { unfold cell, get2. rewrite Hget. by apply get_lookup. }
      assert (cell b (Z.of_nat k) (Z.of_nat j) = v) as Hcj.
      { unfold cell, get2. rewrite Hget. by apply get_lookup. }
      destruct (inv_distinct _ Hcore (Z.of_nat k) (Z.of_nat i) (Z.of_nat k) (Z.of_nat j))
        as [_ Heq]; unfold idx, is_val in *; first [lia|auto].
    - rewrite Hlen. lia.
    - apply lookup_get. lia.
    - by apply Hzero.
    - apply lookup_get. lia.
    - by apply Hzero.
  Qed.
End track.

(** An insertion of the value that the solution has for the cell keeps the
    board on the way to the solution; so does an insertion that fails. *)
Lemma insert_forced s b row col val Q :
  on_track s b →
  (∀ b', board_insert b row col val = Some (INSERT_OK, b') →
         cell s (row - 1) (col - 1) = val) →
  res_sat (λ b', on_track s b' ∧
                 (b' = b ∨ board_insert b row col val = Some (INSERT_OK, b')))
          Q (insert_ b row col val).
Proof.
  intros (Hwf & Hsol & Hnoted) Hforced. unfold insert_.
  destruct (board_insert b row col val) as [[st b']|] eqn:Hins; simpl; [|done].
  pose proof (board_insert_wf _ _ _ _ _ _ Hwf Hins) as Hwf'.
  pose proof Hwf as (Hs & _).
  pose proof Hins as (Hr & Hc & Hv & Hcases)%board_insert_cases.
  destruct Hcases as [(_ & _ & ->)|[(_ & _ & _ & ->)|(-> & Hz & _ & _ & _ & Hb')]];
    [split; [done|by left]..|].
  specialize (Hforced _ eq_refl). split; [|by right].
  assert (b_size b' = b_size b) as Hsz.
  { subst b'. by apply insert_commit_fields. }
  assert (∀ i j, idx b i → idx b j →
            cell b' i j = if decide (row - 1 = i ∧ col - 1 = j) then val else cell b i j)
    as Hcell.
  { intros i j Hi Hj. subst b'. apply insert_commit_cell; unfold idx in *; (done || lia). }
  split; [done|]. split; [|].
  - destruct Hsol as (Hssz & Hcomp & Hag). split; [congruence|]. split; [done|].
    intros r c Hr' Hc' Hne. unfold idx in Hr', Hc'. rewrite Hsz in Hr', Hc'.
    rewrite Hcell in * by done. case_decide as Hd.
    + destruct Hd as [<- <-]. done.
    + by apply Hag.
  - intros r c Hr' Hc' Hz'. unfold idx in Hr', Hc'. rewrite Hsz in Hr', Hc'.
    rewrite Hcell in Hz' by done. case_decide as Hd.
    { unfold is_val in Hv. lia. }
    subst b'. apply (insert_commit_note b row col val); [done..| |].
    { unfold is_val. by apply (sol_range s b). }
    split; [by apply Hnoted|].
    intros [[-> ->]|[Heq Hunit]]; [tauto|].
    rewrite <- Hforced in Heq.
    destruct (sol_distinct s b Hsol Hs r c (row - 1) (col - 1)) as [-> ->]; try done.
    tauto.
Qed.

Lemma insert_forced_sat s b row col val (P : board → Prop) Q :
  on_track s b →
  (∀ b', board_insert b row col val = Some (INSERT_OK, b') →
         cell s (row - 1) (col - 1) = val) →
  (∀ b', on_track s b' →
         b' = b ∨ board_insert b row col val = Some (INSERT_OK, b') → P b') →
  res_sat P Q (insert_ b row col val).
Proof.
  intros Ht Hforced HP.
  eapply res_sat_impl; [by apply (insert_forced s b row col val Q)| |done].
  intros b' [Hb' Hor]. by apply HP.
Qed.

(** ** Loops with [break] and an invariant in the loop variable *)

Lemma for_range_ind_break {St : Type} (I : Z → St → Prop) (P : St → Prop) Q lo hi
    (body : Z → St → res (bool * St)) s :
  lo ≤ hi → I lo s → (∀ s, I hi s → P s) →
  (∀ i s, lo ≤ i < hi → I i s →
     res_sat (λ bs : bool * St, if bs.1 then P bs.2 else I (i + 1) bs.2) Q (body i s)) →
  res_sat P Q (for_range lo hi body s).
Proof.
  intros Hle H0 Hend Hstep. unfold for_range.
  remember (Z.to_nat (hi - lo)) as k eqn:Hk.
  revert lo s Hle H0 Hstep Hk. induction k as [|k IH]; intros lo s Hle H0 Hstep Hk.
  - rewrite seqZ_nil by lia. simpl. apply Hend. by replace hi with lo by lia.
  - rewrite seqZ_cons by lia. simpl.
    pose proof (Hstep lo s ltac:(lia) H0) as Hb.
    destruct (body lo s) as [[[] s']| |]; simpl in *; try done.
    replace (Z.pred (hi - lo)) with (hi - Z.succ lo) by lia.
    apply IH; [lia| |intros; apply Hstep; [lia|done] |lia].
    by replace (Z.succ lo) with (lo + 1) by lia.
Qed.

(** ** The rules of a round place what the solution has *)

(** What an insertion that signals OK found and did. *)
Lemma insert_ok_facts b row col val b' :
  wf b → board_insert b row col val = Some (INSERT_OK, b') →
  idx b (row - 1) ∧ idx b (col - 1) ∧ is_val b val ∧
  cell b (row - 1) (col - 1) = 0 ∧
  row_used b (row - 1) val = false ∧ col_used b (col - 1) val = false ∧
  box_used b (box_of b (row - 1) (col - 1)) val = false ∧
  b_size b' = b_size b ∧ cell b' (row - 1) (col - 1) = val.
Proof.
  intros Hwf Hins. pose proof Hwf as (Hs & _).
  apply board_insert_cases in Hins as (Hr & Hc & Hv & Hcases).
  destruct Hcases as [([=] & _)|[([=] & _)|(_ & Hz & Hru & Hcu & Hbu & ->)]].
  do 7 (split; [done|]). split; [by apply insert_commit_fields|].
  rewrite insert_commit_cell by (done || (unfold idx in *; lia)).
  by rewrite decide_True.
Qed.

Lemma track_size s b : on_track s b → b_size s = b_size b.
Proof. intros (_ & (Hsz & _) & _). done. Qed.

Section rules_forced.
  Context (s : board).

  Local Abbreviation never := (λ (_ : Z) (_ : board), False).

  (** checks for squares with only one possible number, and for squares
      with no possible numbers *)
Lemma rule_cells_forced i b :
    on_track s b → idx b i → res_sat (on_track s) never (rule_cells i b).
  Proof.
    intros Ht Hi. unfold rule_cells, board_get_size.
    pose proof (track_size s b Ht) as Hsz.
    apply (for_range_sat (on_track s)); [done|].
    intros j b1 Hj Ht1. pose proof Ht1 as (Hwf1 & Hsol1 & Hnoted1).
    pose proof (track_size s b1 Ht1) as Hsz1. pose proof Hwf1 as (Hs1 & _).
    assert (idx b1 i ∧ idx b1 j) as [Hi1 Hj1] by (unfold idx in *; split; lia).
    pose proof (shape_note_hm b1 Hs1 i j Hi1 Hj1) as Hhm.
    destruct (h_count (get2 (b_notes b1) i j) =? 1) eqn:Hone.
    - apply Z.eqb_eq in Hone.
      apply (res_sat_bind (λ b2, on_track s b2 ∧ (b2 = b1 ∨ cell b2 i j ≠ 0)));
        [|by intros b2 [Hb2 _]].
      apply for_range_sat; [split; [done|by left]|].
      intros val b2 Hval [Ht2 Hb2]. simpl.
      destruct (heatmap_check (get2 (b_notes b2) i j) val) eqn:Hchk; [|done].
      apply (res_sat_bind (λ b3, on_track s b3 ∧ (b3 = b1 ∨ cell b3 i j ≠ 0)));
        [|by intros b3 Hb3].
      apply (insert_forced_sat s b2 (i + 1) (j + 1) val); [done| |].
      + intros b3 Hins.
        apply insert_ok_facts in Hins as (_ & _ & Hv & Hz & _); [|apply Ht2].
        rewrite !Z.add_simpl_r in *.
        destruct Hb2 as [->|Hne]; [|done].
        apply (hm_single (b_size b1) (get2 (b_notes b1) i j)); try done.
        * lia.
        * by apply (sol_range s b1).
        * by apply Hnoted1.
      + intros b3 Ht3 [->|Hins]; [done|]. split; [done|]. right.
        apply insert_ok_facts in Hins as (_ & _ & Hv & _ & _ & _ & _ & _ & Hcell);
          [|apply Ht2].
        rewrite !Z.add_simpl_r in Hcell. rewrite Hcell. unfold is_val in Hv. lia.
    - destruct ((h_count (get2 (b_notes b1) i j) =? 0) && (get2 (b_data b1) i j =? 0))
        eqn:Hdead; [|done].
      simpl. apply andb_true_iff in Hdead as [Hc0%Z.eqb_eq Hz%Z.eqb_eq].
      pose proof (Hnoted1 i j Hi1 Hj1 Hz) as Hn.
      pose proof (hm_count_pos _ _ _ Hhm (sol_range s b1 Hsol1 i j Hi1 Hj1) Hn). lia.
  Qed.

  (** check for rows with size-1 entries *)
Lemma rule_row_forced i b :
    on_track s b → idx b i → res_sat (on_track s) never (rule_row i b).
  Proof.
    intros Ht Hi. unfold rule_row, board_get_size.
    pose proof Ht as (Hwf & Hsol & Hnoted). pose proof Hwf as (Hs & _).
    destruct (h_count (get (b_rows b) i) =? b_size b - 1) eqn:Hcount; [|done].
    apply Z.eqb_eq in Hcount.
    apply (res_sat_bind (λ st : board * Z * Z, on_track s st.1.1));
      [|by intros [[b' ?] ?] Hb'].
    apply (for_range_sat_break (λ st : board * Z * Z, st.1.1 = b)); [done|by intros ? ->|].
    intros j [[b' col] val] Hj Hb'. simpl in Hb'. subst b'. cbv zeta.
    destruct (_ && _); [|done].
    apply (res_sat_bind (on_track s)); [|by intros b3 Hb3].
    apply (insert_forced_sat s b); [done| |by intros b3 Hb3 _].
    intros b3 Hins.
    apply insert_ok_facts in Hins as (_ & Hc & Hv & Hz & Hru & _); [|done].
    rewrite !Z.add_simpl_r in *.
    destruct (sol_unused s b Hwf Hsol i _ Hi Hc Hz) as (Hsu & _).
    apply (hm_unique_missing (b_size b) (get (b_rows b) i)); try done.
    - by apply shape_row_hm.
    - lia.
    - by apply (sol_range s b).
  Qed.

  (** check for cols with size-1 entries *)
Lemma rule_col_forced i b :
    on_track s b → idx b i → res_sat (on_track s) never (rule_col i b).
  Proof.
    intros Ht Hi. unfold rule_col, board_get_size.
    pose proof Ht as (Hwf & Hsol & Hnoted). pose proof Hwf as (Hs & _).
    destruct (h_count (get (b_cols b) i) =? b_size b - 1) eqn:Hcount; [|done].
    apply Z.eqb_eq in Hcount.
    apply (res_sat_bind (λ st : board * Z * Z, on_track s st.1.1));
      [|by intros [[b' ?] ?] Hb'].
    apply (for_range_sat_break (λ st : board * Z * Z, st.1.1 = b)); [done|by intros ? ->|].
    intros j [[b' row] val] Hj Hb'. simpl in Hb'. subst b'. cbv zeta.
    destruct (_ && _); [|done].
    apply (res_sat_bind (on_track s)); [|by intros b3 Hb3].
    apply (insert_forced_sat s b); [done| |by intros b3 Hb3 _].
    intros b3 Hins.
    apply insert_ok_facts in Hins as (Hr & _ & Hv & Hz & _ & Hcu & _); [|done].
    rewrite !Z.add_simpl_r in *.
    destruct (sol_unused s b Hwf Hsol _ i Hr Hi Hz) as (_ & Hsu & _).
    apply (hm_unique_missing (b_size b) (get (b_cols b) i)); try done.
    - by apply shape_col_hm.
    - lia.
    - by apply (sol_range s b).
  Qed.

  (** check for numbers with size-1 entries *)
Lemma rule_value_forced i b :
    on_track s b → idx b i → res_sat (on_track s) never (rule_value i b).
  Proof.
    intros Ht Hi. unfold rule_value, board_get_size.
    pose proof Ht as (Hwf & Hsol & Hnoted). pose proof Hwf as (Hs & _).
    destruct (get (b_appearances b) i =? b_size b - 1) eqn:Hcount; [|done].
    apply Z.eqb_eq in Hcount.
    apply (res_sat_bind (λ st : board * Z * Z, on_track s st.1.1));
      [|by intros [[b' ?] ?] Hb'].
    apply (for_range_sat_break (λ st : board * Z * Z, st.1.1 = b)); [done|by intros ? ->|].
    intros j [[b' row] col] Hj Hb'. simpl in Hb'. subst b'. cbv zeta.
    destruct (_ && _); [|done].
    apply (res_sat_bind (on_track s)); [|by intros b3 Hb3].
    apply (insert_forced_sat s b); [done| |by intros b3 Hb3 _].
    intros b3 Hins.
    apply insert_ok_facts in Hins as (Hr & Hc & Hv & Hz & Hru & Hcu & _); [|done].
    rewrite !Z.add_simpl_r in *.
    destruct (sol_place_col s b Hwf Hsol _ (i + 1) Hc Hv Hcu) as (r1 & Hr1 & Hs1 & Hz1).
    destruct (sol_unused s b Hwf Hsol r1 _ Hr1 Hc Hz1) as (Hsu & _).
    rewrite Hs1 in Hsu.
    match goal with
    | |- cell s ?r _ = _ => assert (r1 = r) as <-
    end; [|done].
    apply (one_row_lacks b Hwf (i + 1) r1 _ Hv); [rewrite Z.add_simpl_r; lia|done..].
  Qed.

  (** check for boxs with size-1 entries *)
Lemma rule_box_forced i b :
    on_track s b → idx b i → res_sat (on_track s) never (rule_box i b).
  Proof.
    intros Ht Hi. unfold rule_box, board_get_size.
    pose proof Ht as (Hwf & Hsol & Hnoted). pose proof Hwf as (Hs & _).
    pose proof (track_size s b Ht) as Hsz.
    destruct (h_count (get (b_boxs b) i) =? b_size b - 1) eqn:Hcount; [|done].
    apply Z.eqb_eq in Hcount. cbv zeta.
    set (val := for_each 0 (b_size b) _ (-1)).
    set (root := isqrt (b_size b)).
    set (J := λ b2, on_track s b2 ∧ (b2 = b ∨ box_used b2 i val = true)).
    assert (J b) as HJ by (split; [done|by left]).
    eapply res_sat_impl; [apply (for_range_sat J never)| |done]; [done| |by intros b' [? _]].
    intros r b1 Hr HJ1. apply (res_sat_bind J); [|by intros b2 Hb2].
    apply (for_range_sat_break J J); [done|done|].
    intros c b2 Hc [Ht2 Hb2]. simpl.
    destruct (get2 (b_data b2) r c =? 0); [|by split].
    pose proof Ht2 as (Hwf2 & _). pose proof Hwf2 as (Hs2 & _).
    pose proof (track_size s b2 Ht2) as Hsz2.
    assert (idx b2 i) as Hi2 by (unfold idx in *; lia).
    assert (∀ b3, b_size b3 = b_size b2 → shape b3 → box_of b3 r c = i) as Hbox.
    { intros b3 Hsz3 Hs3. pose proof (box_corner b Hs i Hi) as Hcorner.
      cbv zeta in Hcorner. fold root in Hcorner.
      assert (b_size b3 = b_size b) as Hsz3' by lia.
      apply (box_range_iff b3 Hs3 i r c); unfold idx; rewrite ?Hsz3'; try (unfold idx in Hi; lia).
      cbv zeta. fold root. lia. }
    apply (res_sat_bind J); [|by intros b3 Hb3].
    apply (insert_forced_sat s b2 (r + 1) (c + 1) val); [done| |].
    - intros b3 Hins.
      apply insert_ok_facts in Hins as (Hr' & Hc' & Hv & Hz & _ & _ & Hbu & _); [|done].
      rewrite !Z.add_simpl_r in *. rewrite (Hbox b2 eq_refl Hs2) in Hbu.
      destruct Hb2 as [->|Hused]; [|congruence].
      destruct (sol_unused s b Hwf Hsol r c Hr' Hc' Hz) as (_ & _ & Hsu).
      rewrite (Hbox b eq_refl Hs) in Hsu.
      apply (hm_unique_missing (b_size b) (get (b_boxs b) i)); try done.
      + by apply shape_box_hm.
      + lia.
      + by apply (sol_range s b).
    - intros b3 Ht3 [->|Hins]; [by split|]. split; [done|]. right.
      pose proof Ht3 as (Hwf3 & _).
      apply insert_ok_facts in Hins as (Hr' & Hc' & Hv & _ & _ & _ & _ & Hsz3 & Hcell);
        [|done].
      rewrite !Z.add_simpl_r in *.
      destruct (wf_invariant1 b3 Hwf3 r c) as (_ & _ & Hbu & _).
      + unfold idx in *. by rewrite Hsz3.
      + unfold idx in *. by rewrite Hsz3.
      + rewrite Hcell. unfold is_val in Hv. lia.
      + rewrite Hcell, (Hbox b3 Hsz3 (proj1 Hwf3)) in Hbu. done.
  Qed.

  (** checks for rows where a number exists only once in the notes *)
Lemma hidden_row_forced val i b :
    on_track s b → idx b i → res_sat (on_track s) never (hidden_row val i b).
  Proof.
    intros Ht Hi. unfold hidden_row, board_get_size.
    pose proof Ht as (Hwf & Hsol & Hnoted). pose proof Hwf as (Hs & _).
    destruct (negb (heatmap_check (get (b_rows b) i) val)) eqn:Hlack; [|done].
    apply negb_true_iff in Hlack.
    apply (res_sat_bind (λ st : Z * Z,
             st.1 = 1 → ∀ j, 0 ≤ j < b_size b → note b i j val = true → j = st.2)).
    - apply (for_range_ind_break
               (λ j (st : Z * Z),
                  (st.1 = 0 ∧ ∀ j', 0 ≤ j' < j → note b i j' val = false) ∨
                  (st.1 = 1 ∧ ∀ j', 0 ≤ j' < j → note b i j' val = true → j' = st.2))).
      + pose proof (shape_pos _ Hs). lia.
      + left. split; [done|]. intros; lia.
      + intros [rc col] [[Hrc Hall]|[Hrc Hall]] Hone; simpl in *; [lia|done].
      + intros j [rc col] Hj HI. simpl in HI.
        fold (note b i j val). destruct (note b i j val) eqn:Hn; cbv zeta.
        * destruct (1 <? rc + 1) eqn:Hlt; simpl.
          { apply Z.ltb_lt in Hlt. intros; lia. }
          apply Z.ltb_ge in Hlt. right. split; [lia|].
          destruct HI as [[Hrc Hall]|[Hrc Hall]]; [|lia].
          intros j' Hj' Hn'. destruct (decide (j' = j)) as [|Hne]; [done|].
          rewrite Hall in Hn' by lia. done.
        * simpl. destruct HI as [[Hrc Hall]|[Hrc Hall]]; [left|right]; (split; [done|]).
          { intros j' Hj'. destruct (decide (j' = j)) as [->|Hne]; [done|].
            apply Hall. lia. }
          { intros j' Hj' Hn'. destruct (decide (j' = j)) as [->|Hne]; [congruence|].
            apply Hall; [lia|done]. }
    - intros [rc col] Huniq. simpl in Huniq.
      destruct (rc =? 1) eqn:Hone; [|done]. apply Z.eqb_eq in Hone.
      apply (insert_forced_sat s b); [done| |by intros b3 Hb3 _].
      intros b3 Hins.
      apply insert_ok_facts in Hins as (_ & Hc & Hv & _); [|done].
      rewrite !Z.add_simpl_r in *.
      destruct (sol_place_row s b Hwf Hsol i val Hi Hv Hlack) as (c0 & Hc0 & Hs0 & Hz0).
      pose proof (Hnoted i c0 Hi Hc0 Hz0) as Hn. rewrite Hs0 in Hn.
      by rewrite <- (Huniq Hone c0 Hc0 Hn).
  Qed.

  (** checks for cols where a number exists only once in the notes *)
Lemma hidden_col_forced val i b :
    on_track s b → idx b i → res_sat (on_track s) never (hidden_col val i b).
  Proof.
    intros Ht Hi. unfold hidden_col, board_get_size.
    pose proof Ht as (Hwf & Hsol & Hnoted). pose proof Hwf as (Hs & _).
    destruct (negb (heatmap_check (get (b_cols b) i) val)) eqn:Hlack; [|done].
    apply negb_true_iff in Hlack.
    apply (res_sat_bind (λ st : Z * Z,
             st.1 = 1 → ∀ j, 0 ≤ j < b_size b → note b j i val = true → j = st.2)).
    - apply (for_range_ind_break
               (λ j (st : Z * Z),
                  (st.1 = 0 ∧ ∀ j', 0 ≤ j' < j → note b j' i val = false) ∨
                  (st.1 = 1 ∧ ∀ j', 0 ≤ j' < j → note b j' i val = true → j' = st.2))).
      + pose proof (shape_pos _ Hs). lia.
      + left. split; [done|]. intros; lia.
      + intros [rc col] [[Hrc Hall]|[Hrc Hall]] Hone; simpl in *; [lia|done].
      + intros j [rc col] Hj HI. simpl in HI.
        fold (note b j i val). destruct (note b j i val) eqn:Hn; cbv zeta.
        * destruct (1 <? rc + 1) eqn:Hlt; simpl.
          { apply Z.ltb_lt in Hlt. intros; lia. }
          apply Z.ltb_ge in Hlt. right. split; [lia|].
          destruct HI as [[Hrc Hall]|[Hrc Hall]]; [|lia].
          intros j' Hj' Hn'. destruct (decide (j' = j)) as [|Hne]; [done|].
          rewrite Hall in Hn' by lia. done.
        * simpl. destruct HI as [[Hrc Hall]|[Hrc Hall]]; [left|right]; (split; [done|]).
          { intros j' Hj'. destruct (decide (j' = j)) as [->|Hne]; [done|].
            apply Hall. lia. }
          { intros j' Hj' Hn'. destruct (decide (j' = j)) as [->|Hne]; [congruence|].
            apply Hall; [lia|done]. }
    - intros [rc row] Huniq. simpl in Huniq.
      destruct (rc =? 1) eqn:Hone; [|done]. apply Z.eqb_eq in Hone.
      apply (insert_forced_sat s b); [done| |by intros b3 Hb3 _].
      intros b3 Hins.
      apply insert_ok_facts in Hins as (Hr & _ & Hv & _); [|done].
      rewrite !Z.add_simpl_r in *.
      destruct (sol_place_col s b Hwf Hsol i val Hi Hv Hlack) as (r0 & Hr0 & Hs0 & Hz0).
      pose proof (Hnoted r0 i Hr0 Hi Hz0) as Hn. rewrite Hs0 in Hn.
      by rewrite <- (Huniq Hone r0 Hr0 Hn).
  Qed.

  (** checks for boxs where a number exists only once in the notes *)
Lemma hidden_box_forced val i b :
    on_track s b → idx b i → res_sat (on_track s) never (hidden_box val i b).
  Proof.
    intros Ht Hi. unfold hidden_box, board_get_size.
    pose proof Ht as (Hwf & Hsol & Hnoted). pose proof Hwf as (Hs & _).
    destruct (negb (heatmap_check (get (b_boxs b) i) val)) eqn:Hlack; [|done].
    apply negb_true_iff in Hlack. cbv zeta.
    set (root := isqrt (b_size b)).
    set (r0 := root * (i `quot` root)). set (c0 := root * (i `rem` root)).
    pose proof (shape_root_pos b Hs) as Hroot. fold root in Hroot.
    (* the cells seen when the scan is at row [j], column [k] *)
    set (seen := λ (j k r c : Z),
           (r0 ≤ r < j ∧ c0 ≤ c < c0 + root) ∨ (r = j ∧ c0 ≤ c < k)).
    set (I := λ (j k : Z) (st : Z * Z * Z),
           0 ≤ st.1.1 ∧
           (st.1.1 = 0 → ∀ r c, seen j k r c → note b r c val = false) ∧
           (st.1.1 = 1 → ∀ r c, seen j k r c → note b r c val = true →
                         r = st.1.2 ∧ c = st.2)).
    set (P := λ st : Z * Z * Z,
           st.1.1 = 1 → ∀ r c, r0 ≤ r < r0 + root → c0 ≤ c < c0 + root →
                        note b r c val = true → r = st.1.2 ∧ c = st.2).
    apply (res_sat_bind P).
    - apply (for_range_ind_break (λ j, I j c0) P); [lia| | |].
      + unfold I; simpl. split; [done|]. split; intros _ r c [?|?]; lia.
      + intros [[bc row] col] (Hbc & H0 & H1) Hone r c Hr Hc Hn. simpl in *.
        apply H1; [done| |done]. left. lia.
      + intros j [[bc row] col] Hj HI.
        apply (res_sat_bind (I j (c0 + root))).
        * apply (for_range_ind_break (I j) (I j (c0 + root))); [lia|done|done|].
          intros k [[bc' row'] col'] Hk (Hbc & H0 & H1). simpl in *.
          fold (note b j k val). destruct (note b j k val) eqn:Hn; unfold I; simpl.
          { split; [lia|]. split; [intros; lia|]. intros Hone r c Hseen Hn'.
            assert (bc' = 0) as Hz by lia.
            destruct Hseen as [Hold|[-> Hc]].
            - rewrite (H0 Hz r c) in Hn'; [done|]. by left.
            - destruct (decide (c = k)) as [->|Hne]; [done|].
              rewrite (H0 Hz j c) in Hn'; [done|]. right. lia. }
          { split; [done|]. split.
            - intros Hz r c [Hold|[-> Hc]].
              + apply H0; [done|]. by left.
              + destruct (decide (c = k)) as [->|Hne]; [done|].
                apply H0; [done|]. right. lia.
            - intros Hone r c [Hold|[-> Hc]] Hn'.
              + apply H1; [done| |done]. by left.
              + destruct (decide (c = k)) as [->|Hne]; [congruence|].
                apply H1; [done| |done]. right. lia. }
        * intros [[bc' row'] col'] (Hbc & H0 & H1). simpl in *.
          destruct (1 <? bc') eqn:Hlt; unfold P, I; simpl.
          { apply Z.ltb_lt in Hlt. intros ?. lia. }
          split; [done|]. split.
          { intros Hz r c [Hold|[-> Hc]]; [|lia]. apply H0; [done|].
            destruct (decide (r = j)) as [->|Hne]; [right; lia|left; lia]. }
          { intros Hone r c [Hold|[-> Hc]] Hn'; [|lia]. apply H1; [done| |done].
            destruct (decide (r = j)) as [->|Hne]; [right; lia|left; lia]. }
    - intros [[bc row] col] Huniq. unfold P in Huniq. simpl in Huniq.
      destruct (bc =? 1) eqn:Hone; [|done]. apply Z.eqb_eq in Hone.
      apply (insert_forced_sat s b); [done| |by intros b3 Hb3 _].
      intros b3 Hins.
      apply insert_ok_facts in Hins as (_ & _ & Hv & _); [|done].
      rewrite !Z.add_simpl_r in *.
      destruct (sol_place_box s b Hwf Hsol i val Hi Hv Hlack)
        as (r1 & c1 & Hr1 & Hc1 & Hbox & Hs1 & Hz1).
      pose proof (Hnoted r1 c1 Hr1 Hc1 Hz1) as Hn. rewrite Hs1 in Hn.
      apply (box_range_iff b Hs i r1 c1 Hi Hr1 Hc1) in Hbox. cbv zeta in Hbox.
      fold root in Hbox. fold r0 c0 in Hbox.
      destruct (Huniq Hone r1 c1) as [<- <-]; [lia|lia|done|done].
  Qed.

Lemma rule_hidden_forced b :
    on_track s b → res_sat (on_track s) never (rule_hidden b).
  Proof.
    intros Ht. unfold rule_hidden, board_get_size.
    pose proof (track_size s b Ht) as Hsz.
    apply (for_range_sat (on_track s)); [done|].
    intros val b1 Hval Ht1. apply (res_sat_bind (on_track s)); [|by intros b2 Hb2].
    apply (for_range_sat (on_track s)); [done|].
    intros i b2 Hi Ht2.
    assert (∀ b3, on_track s b3 → idx b3 i) as Hidx.
    { intros b3 Ht3. pose proof (track_size s b3 Ht3). unfold idx. lia. }
    apply (res_sat_bind (on_track s)); [by apply hidden_row_forced; [|apply Hidx]|].
    intros b3 Ht3.
    apply (res_sat_bind (on_track s)); [by apply hidden_col_forced; [|apply Hidx]|].
    intros b4 Ht4.
    apply (res_sat_bind (on_track s)); [by apply hidden_box_forced; [|apply Hidx]|].
    by intros b5 Ht5.
  Qed.

Lemma round_forced b : on_track s b → res_sat (on_track s) never (round b).
  Proof.
    intros Ht. unfold round, board_get_size.
    pose proof (track_size s b Ht) as Hsz.
    apply (for_range_sat (on_track s)); [done|].
    intros i b1 Hi Ht1.
    assert (∀ b3, on_track s b3 → idx b3 i) as Hidx.
    { intros b3 Ht3. pose proof (track_size s b3 Ht3). unfold idx. lia. }
    apply (res_sat_bind (on_track s)); [by apply rule_value_forced; [|apply Hidx]|].
    intros b2 Ht2.
    apply (res_sat_bind (on_track s)); [by apply rule_row_forced; [|apply Hidx]|].
    intros b3 Ht3.
    apply (res_sat_bind (on_track s)); [by apply rule_col_forced; [|apply Hidx]|].
    intros b4 Ht4.
    apply (res_sat_bind (on_track s)); [by apply rule_box_forced; [|apply Hidx]|].
    intros b5 Ht5.
    apply (res_sat_bind (on_track s)); [by apply rule_cells_forced; [|apply Hidx]|].
    intros b6 Ht6.
    apply (res_sat_bind (on_track s)); [by apply rule_hidden_forced|].
    by intros b7 Ht7.
  Qed.

Lemma rounds_forced k b old c :
    on_track s b → rounds k b old = Some c → res_sat (on_track s) never c.
  Proof.
    revert b old. induction k as [|k IH]; intros b old Ht Hrun; simpl in Hrun.
    - destruct (_ && _); [done|]. by injection Hrun as <-.
    - destruct (_ && _); [|by injection Hrun as <-].
      pose proof (round_forced b Ht) as Hround.
      destruct (round b) as [b'| |]; simpl in Hround.
      + by apply (IH b' (b_total_appearances b)).
      + done.
      + by injection Hrun as <-.
  Qed.

  (** With a solution in sight, propagation does not give up, and it
      leaves the board on the way to the solution. *)
Lemma propagate_forced b c :
    on_track s b → propagate b = Some c → res_sat (on_track s) never c.
  Proof. intros Ht Hrun. unfold propagate in Hrun. by eapply rounds_forced. Qed.
End rules_forced.

(** ** The solver does not give up on a board that has a solution *)

(** A loop whose iteration [i0] establishes [T], which the iterations keep. *)
Lemma for_each_hit {St : Type} (Inv T : St → Prop) lo hi (f : Z → St → St) s i0 :
  lo ≤ i0 < hi → Inv s →
  (∀ i x, lo ≤ i < hi → Inv x → Inv (f i x)) →
  (∀ i x, lo ≤ i < hi → Inv x → T x → T (f i x)) →
  (∀ x, Inv x → T (f i0 x)) →
  T (for_each lo hi f s).
Proof.
  intros Hi0 Hs Hinv Hkeep Hhit.
  assert (Inv (for_each lo hi f s) ∧ (i0 < hi → T (for_each lo hi f s))) as [_ HT];
    [|apply HT; lia].
  apply (for_each_ind (λ k x, Inv x ∧ (i0 < k → T x))); [lia| |].
  - split; [done|]. lia.
  - intros i x Hi [Hx HTx]. split; [by apply Hinv|]. intros Hlt.
    destruct (decide (i = i0)) as [->|Hne]; [by apply Hhit|].
    apply Hkeep; [done..|]. apply HTx. lia.
Qed.

(** [board_make_notes] turns on every note of an empty cell whose value is
    absent from the row, the column and the box of the cell. *)
Lemma board_make_notes_on b r c v :
  shape b → idx b r → idx b c → is_val b v →
  cell b r c = 0 → row_used b r v = false → col_used b c v = false →
  box_used b (box_of b r c) v = false →
  note (board_make_notes b) r c v = true.
Proof.
  intros Hs Hr Hc Hv Hz Hru Hcu Hbu. unfold board_make_notes, board_get_size.
  set (Inv := λ b' : board, erase_notes b' = erase_notes b ∧ shape b').
  set (T := λ b' : board, note b' r c v = true).
  set (body := λ (i j val : Z) (b2 : board),
         if (get2 (b_data b2) i j =? 0) &&
            negb (heatmap_check (get (b_rows b2) i) val) &&
            negb (heatmap_check (get (b_cols b2) j) val) &&
            negb (heatmap_check (get (b_boxs b2) (box_finder i j (b_size b))) val)
         then note_on b2 i j val else b2).
  assert (∀ b', Inv b' → b_size b' = b_size b) as Hsize.
  { intros b' [Her _]. by apply erase_notes_eq in Her as (? & _). }
  assert (∀ i j val b', 0 ≤ i < b_size b → 0 ≤ j < b_size b → 1 ≤ val < b_size b + 1 →
            Inv b' → Inv (body i j val b')) as Hinv.
  { intros i j val b' Hi Hj Hval HI. pose proof (Hsize b' HI) as Hsz.
    destruct HI as [Her Hs']. unfold body. destruct (_ && _); [|done]. split.
    - by rewrite erase_note_on.
    - apply shape_note_on; [done|]. unfold is_val. lia. }
  assert (∀ i j val b', 0 ≤ i < b_size b → 0 ≤ j < b_size b → 1 ≤ val < b_size b + 1 →
            Inv b' → T b' → T (body i j val b')) as Hkeep.
  { intros i j val b' Hi Hj Hval HI HT. pose proof (Hsize b' HI) as Hsz.
    destruct HI as [Her Hs']. unfold body. destruct (_ && _); [|done]. unfold T.
    apply note_note_on; [done|unfold idx, is_val in *; lia..|by left]. }
  assert (∀ b', Inv b' → T (body r c v b')) as Hhit.
  { intros b' HI. pose proof (Hsize b' HI) as Hsz. destruct HI as [Her Hs'].
    pose proof (erase_notes_eq _ _ Her) as (_ & Hd & _ & _ & Hrows & Hcols & Hboxs).
    unfold body. rewrite Hd, Hrows, Hcols, Hboxs.
    unfold cell, row_used, col_used, box_used, box_of in *.
    rewrite Hz, Hru, Hcu, Hbu. simpl. unfold T.
    apply note_note_on; [done|unfold idx, is_val in *; lia..|by right]. }
  change (T (for_each 0 (b_size b)
    (λ i b0, for_each 0 (b_size b)
       (λ j b1, for_each 1 (b_size b + 1) (λ val b2, body i j val b2) b1) b0) b)).
  unfold idx, is_val in *.
  apply (for_each_hit Inv T _ _ _ _ r); [done|by split| | |].
  - intros i x Hi Hx. apply for_each_pres; [done|]. intros j x1 Hj Hx1.
    apply for_each_pres; [done|]. intros val x2 Hval Hx2. by apply Hinv.
  - intros i x Hi Hx HTx.
    apply (for_each_pres (λ y, Inv y ∧ T y)); [done|]. intros j x1 Hj Hx1.
    apply (for_each_pres (λ y, Inv y ∧ T y)); [done|]. intros val x2 Hval [Hx2 HT2].
    split; [by apply Hinv|by apply Hkeep].
  - intros x Hx. apply (for_each_hit Inv T _ _ _ _ c); [done|done| | |].
    + intros j x1 Hj Hx1. apply for_each_pres; [done|].
      intros val x2 Hval Hx2. by apply Hinv.
    + intros j x1 Hj Hx1 HT1.
      apply (for_each_pres (λ y, Inv y ∧ T y)); [done|]. intros val x2 Hval [Hx2 HT2].
      split; [by apply Hinv|by apply Hkeep].
    + intros x1 Hx1. apply (for_each_hit Inv T _ _ _ _ v); [lia|done| | |].
      * intros val x2 Hval Hx2. by apply Hinv.
      * intros val x2 Hval Hx2 HT2. by apply Hkeep.
      * intros x2 Hx2. by apply Hhit.
Qed.

(** After the notes are derived, the board is on the way to each of its
    solutions. *)
Lemma make_notes_on_track s b :
  wf b → solution s b → on_track s (board_make_notes b).
Proof.
  intros Hwf Hsol. pose proof Hwf as (Hs & _).
  destruct (board_make_notes_spec b Hs) as (Her & Hs1 & _).
  pose proof (erase_notes_eq _ _ Her) as (Hsz & Hd & _).
  assert (∀ r c, cell (board_make_notes b) r c = cell b r c) as Hcell.
  { intros r c. unfold cell. by rewrite Hd. }
  split; [by apply board_make_notes_wf|]. split.
  - destruct Hsol as (Hssz & Hcomp & Hag). split; [congruence|]. split; [done|].
    intros r c Hr Hc Hne. unfold idx in *. rewrite Hsz in *. rewrite Hcell in *.
    by apply Hag.
  - intros r c Hr Hc Hz. unfold idx in *. rewrite Hsz in *. rewrite Hcell in Hz.
    destruct (sol_unused s b Hwf Hsol r c Hr Hc Hz) as (Hru & Hcu & Hbu).
    apply board_make_notes_on; try done. unfold is_val. by apply (sol_range s b).
Qed.

Section guess_loop_sound.
  Context (s : board) (rec : board → Z → list event * outcome).
  Hypothesis Hrec : ∀ b n, wf b → solve_post (board_make_notes b) (rec b n).2.
  Hypothesis Hsound :
    ∀ b n r b', wf b → solution s b → (rec b n).2 = Returned r b' → r = SOLVED.

Lemma guess_loop_sound k b new_b n r b' :
    on_track s b → shape new_b → b_size new_b = b_size b →
    (guess_loop k rec b new_b n).2 = Returned r b' → r = SOLVED.
  Proof using Hrec Hsound.
    revert b new_b. induction k as [|k IH]; intros b new_b Ht Hnb Hsz; simpl; [done|].
    pose proof Ht as (Hwf & Hsol & Hnoted). pose proof Hwf as (Hs & _).
    rewrite (board_copy_eq new_b b) by done.
    pose proof (find_guess_sat b b eq_refl) as Hfind.
    destruct (find_guess b b) as [g|r0 b0|]; simpl in Hfind; [| |done].
    2:{ (* the scan met an empty cell without notes *)
        destruct Hfind as (_ & _ & i & j & Hi & Hj & Hz & Hc). exfalso.
        pose proof (Hnoted i j Hi Hj Hz) as Hn.
        pose proof (hm_count_pos _ _ _ (shape_note_hm b Hs i j Hi Hj)
                      (sol_range s b Hsol i j Hi Hj) Hn). lia. }
    assert (wf (g_board g) ∧ b_size (g_board g) = b_size b) as [Hwfg Hszg].
    { destruct Hfind as [->|(_ & _ & _ & _ & _ & st & Hins)]; [done|].
      split; [by eapply board_insert_wf|]. eapply board_insert_size; [apply Hwf|done]. }
    pose proof (Hrec (g_board g) (incr n) Hwfg) as Hpost.
    pose proof (Hsound (g_board g) (incr n)) as Hsnd.
    destruct (rec (g_board g) (incr n)) as [tr o]. simpl in Hpost, Hsnd.
    destruct o as [guess_ret new_b3| |]; simpl; [|done..].
    destruct Hpost as (Hwf3 & Hsz3 & Hst & _).
    rewrite board_make_notes_size in Hsz3 by apply Hwfg.
    destruct Hst as [[-> Hfilled]|[-> Hdead]]; simpl.
    - destruct (board_copy b new_b3); simpl; [|done]. by intros [= <- _].
    - destruct ((g_row g <? 0) || (g_col g <? 0)) eqn:Hneg; simpl; [done|].
      (* the guess is not what the solution has *)
      assert (¬ solution s (g_board g)) as Hnot.
      { intros Hsolg. specialize (Hsnd _ _ Hwfg Hsolg eq_refl). done. }
      destruct Hfind as [->|(_ & Hr & Hc & Hv & Hnote & st & Hins)]; [done|].
      assert (cell s (g_row g) (g_col g) ≠ g_val g) as Hne.
      { intros Heq. apply Hnot.
        pose proof (insert_forced s b (g_row g + 1) (g_col g + 1) (g_val g)
                      (λ _ _, True) Ht) as Hf.
        unfold insert_ in Hf. rewrite Hins in Hf. simpl in Hf.
        apply Hf. intros _ _. by rewrite !Z.add_simpl_r. }
      assert (on_track s (note_off b (g_row g) (g_col g) (g_val g))) as Ht'.
      { split; [by apply note_off_wf|]. split; [done|].
        intros i j Hi Hj Hz.
        apply note_note_off;
          [done|done|done|done|unfold idx in *; lia|unfold idx in *; lia| |].
        - pose proof (sol_range s b Hsol i j Hi Hj). lia.
        - split; [by apply Hnoted|]. intros (<- & <- & Heq). done. }
      intros Hrun.
      apply (IH (note_off b (g_row g) (g_col g) (g_val g)) new_b3 Ht' (proj1 Hwf3));
        [simpl; congruence|].
      destruct (guess_loop k rec _ new_b3 n) as [tr' o']. done.
  Qed.
End guess_loop_sound.

(** A call of [board_solve] on a board that has a solution answers
    SOLVED whenever it returns. *)
Lemma board_solve_sound s fuel b n r b' :
  wf b → solution s b → (board_solve fuel b n).2 = Returned r b' → r = SOLVED.
Proof.
  revert b n r b'. induction fuel as [|fuel IH]; intros b n r b' Hwf Hsol; simpl; [done|].
  pose proof (make_notes_on_track s b Hwf Hsol) as Ht1.
  pose proof (board_make_notes_size b (proj1 Hwf)) as Hsz1.
  set (b1 := board_make_notes b) in *.
  pose proof (propagate_forced s b1) as Hprop.
  destruct (propagate b1) as [[b2|r2 b2|]|]; simpl; [| |done..].
  - specialize (Hprop _ Ht1 eq_refl). simpl in Hprop.
    pose proof (track_size s b2 Hprop) as Hsz2.
    pose proof (track_size s b1 Ht1) as Hsz1'.
    unfold board_get_size.
    destruct (b_size b * b_size b <=? b_total_appearances b2); simpl.
    + by intros [= <- _].
    + destruct (board_create (b_size b)) as [new_b|] eqn:Hcreate; simpl; [|done].
      pose proof (guess_loop_sound s (board_solve fuel)
                    (λ b n, board_solve_post fuel b n) IH fuel b2 new_b n r b' Hprop)
        as Hloop.
      destruct (guess_loop fuel (board_solve fuel) b2 new_b n) as [tr o]. simpl in *.
      apply Hloop.
      * eapply board_create_shape; [done|]. apply (shape_int _ (proj1 Hwf)).
      * apply board_create_spec in Hcreate. destruct Hcreate as (_ & _ & -> & _).
        congruence.
  - by specialize (Hprop _ Ht1 eq_refl).
Qed.

(** ** The solver keeps what is placed *)

Lemma agrees_refl b : agrees b b.
Proof. by intros r c _ _ _. Qed.

Lemma agrees_trans b1 b2 b3 :
  b_size b2 = b_size b1 → agrees b3 b2 → agrees b2 b1 → agrees b3 b1.
Proof.
  intros Hsz H32 H21 r c Hr Hc Hne. specialize (H21 r c Hr Hc Hne).
  rewrite <- H21. apply H32; unfold idx in *; rewrite ?Hsz; try done. by rewrite H21.
Qed.

Lemma board_insert_agrees b row col val st b' :
  shape b → board_insert b row col val = Some (st, b') → agrees b' b.
Proof.
  intros Hs Hins. apply board_insert_cases in Hins as (Hr & Hc & Hv & Hcases).
  destruct Hcases as [(_ & _ & ->)|[(_ & _ & _ & ->)|(_ & Hz & _ & _ & _ & ->)]];
    [apply agrees_refl..|].
  intros r c Hr' Hc' Hne.
  rewrite insert_commit_cell by (done || (unfold idx in *; lia)).
  case_decide as Hd; [|done]. destruct Hd as [<- <-]. done.
Qed.

Lemma reach_agrees b b' : reach b b' → shape b → agrees b' b.
Proof.
  induction 1 as [|b row col val st b' b'' Hins _ IH]; intros Hs.
  - apply agrees_refl.
  - apply (agrees_trans _ b').
    + by eapply board_insert_size.
    + apply IH. by eapply board_insert_shape.
    + by eapply board_insert_agrees.
Qed.

Section guess_loop_keeps.
  Context (rec : board → Z → list event * outcome).
  Hypothesis Hrec : ∀ b n, wf b → solve_post (board_make_notes b) (rec b n).2.
  Hypothesis Hkeeps : ∀ b n, wf b → keeps b (rec b n).2.

Lemma guess_loop_keeps k b new_b n :
    wf b → shape new_b → b_size new_b = b_size b →
    keeps b (guess_loop k rec b new_b n).2.
  Proof using Hrec Hkeeps.
    revert b new_b. induction k as [|k IH]; intros b new_b Hwf Hnb Hsz; simpl; [done|].
    pose proof Hwf as (Hs & _).
    rewrite (board_copy_eq new_b b) by done.
    pose proof (find_guess_sat b b eq_refl) as Hfind.
    destruct (find_guess b b) as [g|r0 b0|]; simpl in Hfind; [| |done].
    2:{ destruct Hfind as (_ & -> & _). apply agrees_refl. }
    assert (wf (g_board g) ∧ b_size (g_board g) = b_size b ∧ agrees (g_board g) b)
      as (Hwfg & Hszg & Hag).
    { destruct Hfind as [->|(_ & _ & _ & _ & _ & st & Hins)];
        [split; [done|]; split; [done|apply agrees_refl]|].
      split; [by eapply board_insert_wf|]. split.
      - eapply board_insert_size; [apply Hwf|done].
      - by eapply board_insert_agrees. }
    pose proof (Hrec (g_board g) (incr n) Hwfg) as Hpost.
    pose proof (Hkeeps (g_board g) (incr n) Hwfg) as Hk.
    destruct (rec (g_board g) (incr n)) as [tr o]. simpl in Hpost, Hk.
    destruct o as [guess_ret new_b3| |]; simpl; [|done..].
    destruct Hpost as (Hwf3 & Hsz3 & Hst & _).
    rewrite board_make_notes_size in Hsz3 by apply Hwfg.
    destruct Hst as [[-> Hfilled]|[-> Hdead]]; simpl.
    - rewrite (board_copy_eq b new_b3); [|apply Hwf|done|congruence]. simpl.
      by apply (agrees_trans _ (g_board g)).
    - destruct ((g_row g <? 0) || (g_col g <? 0)) eqn:Hneg; simpl; [done|].
      destruct Hfind as [->|(_ & Hr & Hc & Hv & _)]; [done|].
      assert (wf (note_off b (g_row g) (g_col g) (g_val g))) as Hwf'
        by by apply note_off_wf.
      specialize (IH (note_off b (g_row g) (g_col g) (g_val g)) new_b3 Hwf'
                     (proj1 Hwf3) ltac:(simpl; congruence)).
      destruct (guess_loop k rec _ new_b3 n) as [tr' o']. simpl in *.
      destruct o' as [r' b''| |]; simpl in *; done.
  Qed.
End guess_loop_keeps.

Lemma board_solve_keeps fuel b n : wf b → keeps b (board_solve fuel b n).2.
Proof.
  revert b n. induction fuel as [|fuel IH]; intros b n Hwf; simpl; [done|].
  pose proof (board_make_notes_wf b Hwf) as Hwf1.
  pose proof (board_make_notes_size b (proj1 Hwf)) as Hsz1.
  destruct (board_make_notes_spec b (proj1 Hwf)) as (Her & _).
  pose proof (erase_notes_eq _ _ Her) as (_ & Hd & _).
  set (b1 := board_make_notes b) in *.
  assert (∀ b2, agrees b2 b1 → agrees b2 b) as Hag1.
  { intros b2 Hag r c Hr Hc Hne. unfold idx in *. rewrite <- Hsz1 in Hr, Hc.
    unfold cell in *. rewrite <- Hd in *. by apply Hag. }
  pose proof (propagate_sat b1) as Hprop.
  destruct (propagate b1) as [[b2|r b2|]|]; simpl; [| |done..].
  - specialize (Hprop _ (proj1 Hwf1) eq_refl). simpl in Hprop.
    pose proof (reach_wf _ _ Hprop Hwf1) as Hwf2.
    pose proof (reach_size _ _ Hprop (proj1 Hwf1)) as Hsz2.
    pose proof (reach_agrees _ _ Hprop (proj1 Hwf1)) as Hag2.
    unfold board_get_size.
    destruct (b_size b * b_size b <=? b_total_appearances b2); simpl; [by apply Hag1|].
    destruct (board_create (b_size b)) as [new_b|] eqn:Hcreate; simpl; [|done].
    pose proof (guess_loop_keeps (board_solve fuel) (λ b n, board_solve_post fuel b n)
                  IH fuel b2 new_b n Hwf2) as Hloop.
    destruct (guess_loop fuel (board_solve fuel) b2 new_b n) as [tr o]. simpl in *.
    destruct o as [r' b''| |]; simpl in *; [|done..].
    apply Hag1. apply (agrees_trans _ b2); [done| |done]. apply Hloop.
    + eapply board_create_shape; [done|]. apply (shape_int _ (proj1 Hwf)).
    + apply board_create_spec in Hcreate. destruct Hcreate as (_ & _ & -> & _).
      congruence.
  - specialize (Hprop _ (proj1 Hwf1) eq_refl). simpl in Hprop.
    destruct Hprop as (_ & Hreach & _). apply Hag1.
    by apply reach_agrees; [|apply Hwf1].
Qed.

(** ** The heap: the checks decide what they say *)

Module HeapCheck.
Import Heap.
Import HeapBoard.

Lemma places_complete n pl : valid_place n pl = true → pl ∈ places n.
Proof.
  intros Hpl. unfold places. rewrite !elem_of_app.
  destruct pl as [i|i|i|i j]; simpl in Hpl.
  - left. apply list_elem_of_fmap. exists i. split; [done|].
    apply elem_of_seqZ. apply in_range_spec in Hpl. lia.
  - right; left. apply list_elem_of_fmap. exists i. split; [done|].
    apply elem_of_seqZ. apply in_range_spec in Hpl. lia.
  - right; right; left. apply list_elem_of_fmap. exists i. split; [done|].
    apply elem_of_seqZ. apply in_range_spec in Hpl. lia.
  - right; right; right.
    apply andb_true_iff in Hpl as [Hi%in_range_spec Hj%in_range_spec].
    apply list_elem_of_bind. exists i. split; [|apply elem_of_seqZ; lia].
    apply list_elem_of_fmap. exists j. split; [done|]. apply elem_of_seqZ. lia.
Qed.

Lemma comps_complete n c : valid n c = true → c ∈ comps n.
Proof.
  intros Hc. unfold comps. rewrite !elem_of_app.
  destruct c as [| |i| | | | | |i|pl|pl]; simpl in Hc;
    try (left; solve [repeat ((by left) || right)]).
  - right; left. apply list_elem_of_fmap. exists i. split; [done|].
    apply elem_of_seqZ. apply in_range_spec in Hc. lia.
  - right; right; left. apply list_elem_of_fmap. exists i. split; [done|].
    apply elem_of_seqZ. apply in_range_spec in Hc. lia.
  - right; right; right; left. apply list_elem_of_fmap. exists pl.
    split; [done|]. by apply places_complete.
  - right; right; right; right. apply list_elem_of_fmap. exists pl.
    split; [done|]. by apply places_complete.
Qed.

Lemma separate_check_sound Ld Ls n :
  separate_check Ld Ls n = true →
  layout_ok Ld n ∧ layout_ok Ls n ∧ disjoint (blocks_of Ld n) (blocks_of Ls n).
Proof.
  unfold separate_check. intros Hnd%bool_decide_eq_true.
  apply NoDup_app in Hnd as (Hd & Hds & Hs).
  split; [|split].
  - intros c c' Hc Hc'. by apply (NoDup_fmap_inj_on Ld (comps n)); [|apply comps_complete..].
  - intros c c' Hc Hc'. by apply (NoDup_fmap_inj_on Ls (comps n)); [|apply comps_complete..].
  - intros blk (c & Hc & <-) (c' & Hc' & Heq). apply (Hds (Ld c)).
    + apply list_elem_of_fmap_2. by apply comps_complete.
    + rewrite <- Heq. apply list_elem_of_fmap_2. by apply comps_complete.
Qed.

Lemma content_offsets L b c off v :
  content L b c off = Some v → off ∈ offsets b c.
Proof.
  assert (∀ k, in_range k off = true → off ∈ seqZ 0 k) as Hin.
  { intros k Hk%in_range_spec. apply elem_of_seqZ. lia. }
  destruct c as [| |i| | | | | |i|pl|pl]; simpl;
    try (destruct (in_range _ off) eqn:E; [intros _; by apply Hin|done]).
  - intros Hc. apply elem_of_seqZ.
    repeat match type of Hc with
           | (if ?x =? ?y then _ else _) = _ =>
               destruct (Z.eqb_spec x y); [subst; unfold f_size, f_data, f_appearances,
                 f_total_appearances, f_rows, f_cols, f_boxs, f_notes; lia|]
           end.
    done.
  - intros Hc. apply elem_of_seqZ.
    repeat match type of Hc with
           | (if ?x =? ?y then _ else _) = _ =>
               destruct (Z.eqb_spec x y); [subst; unfold f_len, f_count, f_map; lia|]
           end.
    done.
Qed.

Lemma repr_check_sound L h p b : repr_check L h p b = true → repr L h p b.
Proof.
  unfold repr_check. intros [Hp%bool_decide_eq_true Hall]%andb_true_iff.
  split; [done|]. intros c off v Hc Hcont.
  rewrite forallb_forall in Hall.
  specialize (Hall c). rewrite forallb_forall in Hall.
  assert (In c (comps (b_size b))) as Hin.
  { apply list_elem_of_In. by apply comps_complete. }
  specialize (Hall Hin off). rewrite Hcont in Hall.
  eapply bool_decide_eq_true_1. apply Hall.
  apply list_elem_of_In. by apply (content_offsets L b c off v).
Qed.

Lemma mem_ok_check_sound h : mem_ok_check h = true → mem_ok h.
Proof.
  unfold mem_ok_check. intros Hall%bool_decide_eq_true blk off Hge.
  destruct (cells h !! (blk, off)) as [v|] eqn:Hv; [|done].
  apply Hall in Hv. simpl in Hv. lia.
Qed.

End HeapCheck.

(** * The claims *)

(** C1: on every board (satisfying the data-model invariants) on which
    [board_solve] reports SOLVED, the final grid is completely filled
    ([total_appearances = size * size]) and every row, every column and every
    box holds each value [1..size] exactly once: it is a permutation of
    [1..size]. *)
Theorem solved_board_complete fuel b n tr b' :
  wf b → board_solve fuel b n = (tr, Returned SOLVED b') →
  b_total_appearances b' = b_size b' * b_size b' ∧ units_complete b'.
Proof.
  intros Hwf Hrun. pose proof (board_solve_post fuel b n Hwf) as Hpost.
  rewrite Hrun in Hpost. simpl in Hpost.
  destruct Hpost as (Hwf' & _ & [[_ Hfilled]|[[=] _]] & _).
  split; [done|]. by apply filled_complete.
Qed.

Lemma solved_board_complete_witness :
  wf sample4 ∧
  board_solve 30 sample4 1 = (sample4_trace, Returned SOLVED sample4_solved) ∧
  b_total_appearances sample4_solved = b_size sample4_solved * b_size sample4_solved ∧
  units_complete sample4_solved.
Proof.
  assert (board_solve 30 sample4 1 = (sample4_trace, Returned SOLVED sample4_solved))
    as Hrun by (vm_compute; reflexivity).
  split; [apply sample4_wf|]. split; [exact Hrun|].
  exact (solved_board_complete 30 sample4 1 sample4_trace sample4_solved sample4_wf Hrun).
Defined.

(** C2: for every board satisfying the data-model invariants and every
    in-range [(row, col, val)] for which [board_insert] signals OK, afterwards
    the cell holds [val], [appearances[val]] and [total_appearances] have each
    grown by exactly one, [val] is in the used-sets of the row, the column
    and the box, the notes of the cell are empty, [val] is absent from the
    notes of every cell sharing the row, the column or the box, and
    Invariants 1 and 2 hold again. *)
Theorem insert_ok_effects b row col val b' :
  wf b → 1 ≤ row ≤ b_size b → 1 ≤ col ≤ b_size b → 1 ≤ val ≤ b_size b →
  board_insert b row col val = Some (INSERT_OK, b') →
  cell b' (row - 1) (col - 1) = val ∧
  get (b_appearances b') (val - 1) = get (b_appearances b) (val - 1) + 1 ∧
  b_total_appearances b' = b_total_appearances b + 1 ∧
  row_used b' (row - 1) val = true ∧
  col_used b' (col - 1) val = true ∧
  box_used b' (box_of b' (row - 1) (col - 1)) val = true ∧
  h_count (get2 (b_notes b') (row - 1) (col - 1)) = 0 ∧
  (∀ w, is_val b' w → note b' (row - 1) (col - 1) w = false) ∧
  (∀ i j, idx b' i → idx b' j →
     i = row - 1 ∨ j = col - 1 ∨ box_of b' i j = box_of b' (row - 1) (col - 1) →
     note b' i j val = false) ∧
  invariant1 b' ∧ invariant2 b' ∧ wf b'.
Proof.
  intros Hwf Hrow Hcol Hval Hins.
  pose proof (board_insert_wf _ _ _ _ _ _ Hwf Hins) as Hwf'.
  pose proof Hwf as (Hs & Hcore & Hnotes). pose proof Hwf' as (Hs' & Hcore' & _).
  apply board_insert_cases in Hins.
  destruct Hins as (Hr & Hc & Hv & [([=] & _)|[([=] & _)|(_ & Hz & Hru & Hcu & Hbu & ->)]]).
  set (b' := insert_commit b row col val _) in *.
  assert (b_size b' = b_size b) as Hsz by (by apply insert_commit_fields).
  assert (cell b' (row - 1) (col - 1) = val) as Hcell.
  { unfold b'. rewrite insert_commit_cell by (done || (unfold idx in *; lia)).
    case_decide; [done|tauto]. }
  assert (val ≠ 0) as Hne by (unfold is_val in *; lia).
  pose proof (wf_invariant1 b' Hwf') as Hinv1.
  assert (idx b' (row - 1) ∧ idx b' (col - 1)) as [Hr' Hc']
    by (unfold idx in *; rewrite Hsz; done).
  destruct (Hinv1 (row - 1) (col - 1) Hr' Hc') as (Hru' & Hcu' & Hbu' & Hcount & Hnone).
  { by rewrite Hcell. }
  rewrite Hcell in *.
  destruct (inv_count _ Hcore) as [Happ Htot]. destruct (inv_count _ Hcore') as [Happ' Htot'].
  assert (∀ p, count_grid p (b_data b') = count_grid p (b_data b) - b2z (p 0) + b2z (p val))
    as Hcnt.
  { intros p. destruct (insert_commit_fields b row col val Hs Hr Hc Hv) as (_ & Hd & _).
    fold b' in Hd. rewrite Hd.
    rewrite (count_grid_upd2 _ _ (b_size b)); [|apply Hs..|done|done].
    fold (cell b (row - 1) (col - 1)). by rewrite Hz. }
  split; [done|]. split; [|split].
  - rewrite Happ', Happ, Hcnt by (unfold is_val in *; rewrite ?Hsz; done).
    rewrite Z.eqb_refl. replace (0 =? val) with false by (symmetry; apply Z.eqb_neq; lia).
    simpl. lia.
  - rewrite Htot', Htot, Hcnt.
    replace (val =? 0) with false by (symmetry; apply Z.eqb_neq; lia). simpl. lia.
  - do 5 (split; [done|]). split; [|split; [done|split; [by apply wf_invariant2|done]]].
    intros i j Hi Hj Hunit. destruct (note b' i j val) eqn:Hn; [|done]. exfalso.
    unfold idx in *. rewrite Hsz in *.
    apply (insert_commit_note b row col val) in Hn as [_ Hret];
      [|done..|unfold is_val in *; lia].
    apply Hret. right. split; [done|].
    unfold b' in Hunit. rewrite !insert_commit_box_of in Hunit by done. done.
Qed.

Lemma insert_ok_effects_witness :
  wf empty4 ∧
  board_insert empty4 1 1 1 =
    Some (INSERT_OK, insert_commit empty4 1 1 1 (box_finder 0 0 4)) ∧
  cell (insert_commit empty4 1 1 1 (box_finder 0 0 4)) 0 0 = 1 ∧
  b_total_appearances (insert_commit empty4 1 1 1 (box_finder 0 0 4)) = 1.
Proof.
  assert (board_insert empty4 1 1 1 =
          Some (INSERT_OK, insert_commit empty4 1 1 1 (box_finder 0 0 4)))
    as Hins by (vm_compute; reflexivity).
  split; [apply empty4_wf|]. split; [exact Hins|].
  pose proof (insert_ok_effects empty4 1 1 1 _ empty4_wf
                ltac:(vm_compute; split; discriminate)
                ltac:(vm_compute; split; discriminate)
                ltac:(vm_compute; split; discriminate) Hins) as (H1 & _ & H3 & _).
  split; [exact H1|exact H3].
Defined.

(** C3: for every board and every in-range [(row, col, val)]: if the target
    cell is already filled, [board_insert] returns ALREADY_FILLED; otherwise,
    if [val] is already present in the row, the column or the box of the
    cell, it returns CONFLICT; in both cases the whole board is unchanged.
    In particular, inserting the same [(row, col, val)] again after an OK
    returns ALREADY_FILLED and changes nothing. *)
Theorem insert_failure_unchanged b row col val :
  1 ≤ row ≤ b_size b → 1 ≤ col ≤ b_size b → 1 ≤ val ≤ b_size b →
  (cell b (row - 1) (col - 1) ≠ 0 →
     board_insert b row col val = Some (ALREADY_FILLED, b)) ∧
  (cell b (row - 1) (col - 1) = 0 →
     row_used b (row - 1) val = true ∨ col_used b (col - 1) val = true ∨
     box_used b (box_of b (row - 1) (col - 1)) val = true →
     board_insert b row col val = Some (CONFLICT, b)) ∧
  (∀ st b1, board_insert b row col val = Some (st, b1) →
     st = ALREADY_FILLED ∨ st = CONFLICT → b1 = b) ∧
  (shape b →
   ∀ b1, board_insert b row col val = Some (INSERT_OK, b1) →
     board_insert b1 row col val = Some (ALREADY_FILLED, b1)).
Proof.
  intros Hrow Hcol Hval.
  assert (insert_args_ok b row col val = true) as Hargs.
  { apply insert_args_ok_spec. unfold idx, is_val. lia. }
  assert (∀ b0, insert_args_ok b0 row col val = true →
            cell b0 (row - 1) (col - 1) ≠ 0 →
            board_insert b0 row col val = Some (ALREADY_FILLED, b0)) as Hfilled.
  { intros b0 Hok Hne. unfold board_insert. rewrite Hok. simpl.
    unfold cell in Hne. by rewrite (proj2 (Z.eqb_neq _ _) Hne). }
  split; [by apply Hfilled|]. split.
  - intros Hz Hused. unfold board_insert. rewrite Hargs. simpl.
    unfold cell, row_used, col_used, box_used, box_of, board_get_size in *.
    rewrite Hz. simpl. repeat case_match; try done.
    destruct Hused as [?|[?|?]]; congruence.
  - split.
    { intros st b1 Hins Hst. eapply board_insert_failed; [done|].
      by destruct Hst as [->| ->]. }
    intros Hs b1 Hins. apply board_insert_cases in Hins.
    destruct Hins as (Hr & Hc & Hv &
      [([=] & _)|[([=] & _)|(_ & Hz & Hru & Hcu & Hbu & ->)]]).
    apply Hfilled.
    + apply insert_args_ok_spec. unfold idx, is_val.
      destruct (insert_commit_fields b row col val Hs Hr Hc Hv) as (-> & _).
      unfold idx, is_val in *. lia.
    + rewrite insert_commit_cell by (done || (unfold idx in *; lia)).
      case_decide; [lia|tauto].
Qed.

Lemma insert_failure_unchanged_witness :
  shape empty4 ∧
  board_insert empty4 1 1 1 =
    Some (INSERT_OK, insert_commit empty4 1 1 1 (box_finder 0 0 4)) ∧
  board_insert (insert_commit empty4 1 1 1 (box_finder 0 0 4)) 1 1 1 =
    Some (ALREADY_FILLED, insert_commit empty4 1 1 1 (box_finder 0 0 4)).
Proof.
  assert (board_insert empty4 1 1 1 =
          Some (INSERT_OK, insert_commit empty4 1 1 1 (box_finder 0 0 4)))
    as Hins by (vm_compute; reflexivity).
  split; [apply empty4_wf|]. split; [exact Hins|].
  exact (proj2 (proj2 (proj2 (insert_failure_unchanged empty4 1 1 1
                                ltac:(vm_compute; split; discriminate)
                                ltac:(vm_compute; split; discriminate)
                                ltac:(vm_compute; split; discriminate))))
           (proj1 empty4_wf) _ Hins).
Defined.




(** C5 fails on the empty 4×4 board: whatever the fuel (the depth allowed
    to the recursion), [board_solve] does not return.  The scan for a guess
    finds no cell (C6), and the recursive call is made on a copy of the same
    board. *)
Theorem solve_empty4_diverges fuel n : solve fuel empty4 n = OutOfFuel.
Proof.
  unfold solve. destruct fuel as [|fuel]; [done|].
  apply (board_solve_stalled _ _ empty4_notes empty4).
  - rewrite empty4_make_notes. apply empty4_notes_propagate.
  - vm_compute. reflexivity.
  - apply empty4_create.
  - destruct fuel as [|k]; [done|].
    apply (guess_loop_no_guess _ _ _ _ empty4_notes).
    + apply empty4_notes_copy.
    + apply empty4_notes_find_guess.
    + exact (empty4_notes_diverges (S k) (incr n)).
Qed.

(** C6 fails on the empty 4×4 board with its notes derived: cell (0,0) is
    empty and has [size] candidates, and the scan, which stops at
    [num_possible < size], selects no cell at all. *)
Theorem find_guess_skips_full_cell :
  cell empty4_notes 0 0 = 0 ∧
  h_count (get2 (b_notes empty4_notes) 0 0) = b_size empty4_notes ∧
  find_guess empty4_notes empty4_notes = Next (Guess empty4_notes (-1) (-1) (-1) false).
Proof. split; [done|]. split; [done|]. apply empty4_notes_find_guess. Qed.



(** C9: the second argument [n] of [board_solve] has no influence: for
    every board and all [n] and [m], the two calls return the same status
    and leave the board in the same state (and make the same calls).  The
    [n + 1] of the recursive call is taken with the wrap-around of the
    machine. *)
Theorem solve_ignores_n fuel b n m :
  board_solve fuel b n = board_solve fuel b m ∧ solve fuel b n = solve fuel b m.
Proof.
  split; [apply board_solve_n_irrelevant|].
  unfold solve. by rewrite (board_solve_n_irrelevant fuel b n m).
Qed.



(** C7: for boards of equal size, where the source satisfies the data-model
    invariants, [board_copy(dest, src)] makes the whole state of [dest]
    (grid, used-sets, notes, counters) equal to that of [src].  On the heap,
    when the two boards lie in separate blocks before the call, the call
    returns, each board then holds the value of [src] in its own blocks, and
    a later [board_insert] on either board leaves the other holding that
    value.  And [heatmap_copy(dest, src)] on heatmaps of equal length leaves
    [dest] with the members and the count of [src], on the heap in the blocks
    of [dest], with [src] as it was. *)
Theorem copy_makes_equal Ld Ls n pd ps h dest src hd hs :
  Heap.layout_ok Ld n → Heap.layout_ok Ls n →
  Heap.disjoint (Heap.blocks_of Ld n) (Heap.blocks_of Ls n) →
  Heap.mem_ok h → Heap.repr Ld h pd dest → Heap.repr Ls h ps src →
  b_size dest = n → b_size src = n → shape dest → wf src →
  hm_ok n hd → hm_ok n hs →
  board_copy dest src = Some src ∧
  (∃ h1, Heap.board_copy pd ps h = Some (tt, h1) ∧
         Heap.repr Ld h1 pd src ∧ Heap.repr Ls h1 ps src ∧
         (∀ row col val st h2,
            Heap.board_insert pd row col val h1 = Some (st, h2) →
            ∃ b', board_insert src row col val = Some (st, b') ∧
                  Heap.repr Ld h2 pd b' ∧ Heap.repr Ls h2 ps src) ∧
         (∀ row col val st h2,
            Heap.board_insert ps row col val h1 = Some (st, h2) →
            ∃ b', board_insert src row col val = Some (st, b') ∧
                  Heap.repr Ls h2 ps b' ∧ Heap.repr Ld h2 pd src)) ∧
  heatmap_copy hd hs = hs ∧
  (∀ v, 1 ≤ v ≤ n → heatmap_check (heatmap_copy hd hs) v = heatmap_check hs v) ∧
  h_count (heatmap_copy hd hs) = h_count hs ∧
  (∀ hh s m s' m',
     Heap.hm_repr hh s m hd → Heap.hm_repr hh s' m' hs →
     s ≠ m → ¬ Heap.two s m s' → ¬ Heap.two s m m' →
     ∃ hh', Heap.heatmap_copy (s, 0) (s', 0) hh = Some (tt, hh') ∧
            Heap.hm_repr hh' s m hs ∧ Heap.hm_repr hh' s' m' hs ∧
            Heap.only (Heap.two s m) hh hh').
Proof.
  intros HLd HLs Hdisj Hok Hrd Hrs Hnd Hns Hd Hsrc Hhd Hhs.
  split; [apply board_copy_eq; [done..|congruence]|].
  split; [by apply (HeapCopy.board_copy_separate Ld Ls n pd ps h dest src)|].
  destruct (heatmap_copy_spec n hd hs Hhd) as [Hcok Hchk]; [apply Hhs|].
  assert (heatmap_copy hd hs = hs) as Heq by (by apply (hm_ext n)).
  split; [done|]. split; [done|]. split; [by rewrite Heq|].
  intros hh s m s' m' Hr Hr' Hne Hs' Hm'.
  destruct (HeapSim.heatmap_copy_sim hh s m hd s' m' hs Hr Hr' Hne Hs' Hm')
    as (hh' & Hrun & Hr1 & Ho).
  { destruct Hhd as (-> & _ & -> & _). done. }
  { destruct Hhd as (-> & _), Hhs as (-> & _). done. }
  exists hh'. split; [done|]. rewrite Heq in Hr1. split; [done|]. split; [|done].
  by apply (HeapSim.hm_repr_only hh hh' s' m' hs (Heap.two s m)).
Qed.

Lemma copy_makes_equal_witness :
  board_copy empty4 sample4 = Some sample4 ∧
  (∃ h1, Heap.board_copy Heap.heap4_dest Heap.heap4_src Heap.heap4_mem = Some (tt, h1) ∧
         Heap.repr Heap.heap4_dest_layout h1 Heap.heap4_dest sample4 ∧
         Heap.repr Heap.heap4_src_layout h1 Heap.heap4_src sample4) ∧
  heatmap_copy (heatmap_create 4) (get (b_rows sample4) 0) = get (b_rows sample4) 0.
Proof.
  assert (hm_ok 4 (heatmap_create 4)) as Hhd.
  { apply hm_ok_create. unfold int_max. lia. }
  assert (hm_ok 4 (get (b_rows sample4) 0)) as Hhs.
  { apply (shape_row_hm sample4 (proj1 sample4_wf)). vm_compute. split; [discriminate|reflexivity]. }
  destruct (HeapCheck.separate_check_sound Heap.heap4_dest_layout Heap.heap4_src_layout 4)
    as (HLd & HLs & Hdisj); [vm_compute; reflexivity|].
  destruct (copy_makes_equal Heap.heap4_dest_layout Heap.heap4_src_layout 4
              Heap.heap4_dest Heap.heap4_src Heap.heap4_mem empty4 sample4
              (heatmap_create 4) (get (b_rows sample4) 0) HLd HLs Hdisj)
    as (H1 & (h1 & Hrun & Hr1 & Hr2 & _) & H2 & _).
  - apply HeapCheck.mem_ok_check_sound. vm_compute. reflexivity.
  - apply HeapCheck.repr_check_sound. vm_compute. reflexivity.
  - apply HeapCheck.repr_check_sound. vm_compute. reflexivity.
  - reflexivity.
  - reflexivity.
  - apply empty4_wf.
  - apply sample4_wf.
  - exact Hhd.
  - exact Hhs.
  - split; [exact H1|]. split; [|exact H2]. exists h1. split; [exact Hrun|].
    split; [exact Hr1|exact Hr2].
Defined.
